(** * A segmented commit log: the index, the segments and the log

    A shallow embedding of the log package of go-microsrv-distib-log
    (internal/log): the memory-mapped index of a segment, the store and the
    segment built on it, and the log that owns the segments.

    Conventions of the embedding:
    - a [uint64] is a [Z] in [[0, 2^64)]; every addition, subtraction and
      multiplication of the source is followed by [wrap64], a conversion to
      [uint32] by [uint32], to [int64] by [int64];
    - a [[]byte] is a [list byte]; a slice expression [s[lo:hi]] is [slice],
      which has no result when Go would panic;
    - a Go function returning [(value, error)] returns an [outcome]:
      [Ok v] for [(v, nil)], [Err e] for [(zero, e)], [Panic] for a run-time
      panic (index out of range, nil dereference);
    - pointers to segments are indices into a heap of segments, so that
      [activeSegment] and the entries of [segments] alias as they do in Go;
    - the calls into the operating system (open, truncate, mmap, sync,
      unlink) are taken to succeed on valid arguments ([os.Truncate] refuses
      a negative length): the files of a segment are the byte lists held by
      its store and index;
    - a directory is the list of the offsets parsed from the names of its
      entries with the contents of the files of each base offset; in a
      rotation the files of the new segment are created empty. *)

From Stdlib Require Import ZArith Lia Bool.
From Stdlib Require Import Strings.Byte.
From stdpp Require Import base list sorting.

Local Open Scope Z_scope.

(** ** Machine integers *)

Definition wrap64 (z : Z) : Z := z mod 2 ^ 64.
Definition uint32 (z : Z) : Z := z mod 2 ^ 32.
Definition int64 (z : Z) : Z := (z + 2 ^ 63) mod 2 ^ 64 - 2 ^ 63.

Definition is_uint64 (z : Z) : Prop := 0 <= z < 2 ^ 64.
Definition is_uint32 (z : Z) : Prop := 0 <= z < 2 ^ 32.
Definition is_int64 (z : Z) : Prop := - 2 ^ 63 <= z < 2 ^ 63.

(** ** Bytes *)

Definition Z_of_byte (b : byte) : Z := Z.of_N (Byte.to_N b).

(** Go's conversion [byte(v)] of an unsigned integer. *)
Definition byte_of_Z (z : Z) : byte :=
  match Byte.of_N (Z.to_N (z mod 256)) with
  | Some b => b
  | None => x00
  end.

(** ** Results of Go calls *)

Inductive error : Type :=
| EOF                                (* io.EOF *)
| ErrOffsetOutOfRange (off : Z)      (* fmt.Errorf("offset out of range: %d", off) *)
| IoError                            (* a short read of the store file *)
| ErrCodec.                          (* the record codec rejected the bytes *)

Inductive outcome (A : Type) : Type :=
| Ok (a : A)
| Err (e : error)
| Panic.
Arguments Ok {A} a.
Arguments Err {A} e.
Arguments Panic {A}.

Definition bind {A B : Type} (m : outcome A) (k : A -> outcome B) : outcome B :=
  match m with
  | Ok a => k a
  | Err e => Err e
  | Panic => Panic
  end.

Notation "'let*' x ':=' m 'in' k" := (bind m (fun x => k))
  (at level 10, x pattern, m at level 100, k at level 200).

(** A slice expression or an indexing that has no result panics. *)
Definition must {A : Type} (o : option A) : outcome A :=
  match o with
  | Some a => Ok a
  | None => Panic
  end.

(** ** Slices *)

(** [s[lo:hi]] on a slice whose capacity is its length (a mapped file, a
    file's contents): defined when [0 <= lo <= hi <= len(s)]. *)
Definition slice (s : list byte) (lo hi : Z) : option (list byte) :=
  if (0 <=? lo) && (lo <=? hi) && (hi <=? Z.of_nat (length s))
  then Some (take (Z.to_nat (hi - lo)) (drop (Z.to_nat lo) s))
  else None.

(** Writing through a sub-slice [s[lo:hi]]: [f] is run on the sub-slice and
    its result replaces those bytes of [s]. *)
Definition slice_update (s : list byte) (lo hi : Z)
    (f : list byte -> option (list byte)) : option (list byte) :=
  match slice s lo hi with
  | Some b =>
      match f b with
      | Some b' => Some (take (Z.to_nat lo) s ++ b' ++ drop (Z.to_nat hi) s)
      | None => None
      end
  | None => None
  end.

(** ** The byte order [enc] (binary.BigEndian) *)

Definition Uint32 (b : list byte) : option Z :=
  match b with
  | b0 :: b1 :: b2 :: b3 :: _ =>
      Some (Z.lor (Z.lor (Z.lor (Z_of_byte b3)
                                (Z.shiftl (Z_of_byte b2) 8))
                         (Z.shiftl (Z_of_byte b1) 16))
                  (Z.shiftl (Z_of_byte b0) 24))
  | _ => None
  end.

Definition Uint64 (b : list byte) : option Z :=
  match b with
  | b0 :: b1 :: b2 :: b3 :: b4 :: b5 :: b6 :: b7 :: _ =>
      Some (Z.lor (Z.lor (Z.lor (Z.lor (Z.lor (Z.lor (Z.lor
             (Z_of_byte b7)
             (Z.shiftl (Z_of_byte b6) 8))
             (Z.shiftl (Z_of_byte b5) 16))
             (Z.shiftl (Z_of_byte b4) 24))
             (Z.shiftl (Z_of_byte b3) 32))
             (Z.shiftl (Z_of_byte b2) 40))
             (Z.shiftl (Z_of_byte b1) 48))
             (Z.shiftl (Z_of_byte b0) 56))
  | _ => None
  end.

(** The bytes [PutUint32] and [PutUint64] store, most significant first. *)
Definition bytes32 (v : Z) : list byte :=
  [byte_of_Z (Z.shiftr v 24); byte_of_Z (Z.shiftr v 16);
   byte_of_Z (Z.shiftr v 8); byte_of_Z v].

Definition bytes64 (v : Z) : list byte :=
  [byte_of_Z (Z.shiftr v 56); byte_of_Z (Z.shiftr v 48);
   byte_of_Z (Z.shiftr v 40); byte_of_Z (Z.shiftr v 32);
   byte_of_Z (Z.shiftr v 24); byte_of_Z (Z.shiftr v 16);
   byte_of_Z (Z.shiftr v 8); byte_of_Z v].

Definition PutUint32 (v : Z) (b : list byte) : option (list byte) :=
  match b with
  | _ :: _ :: _ :: _ :: rest => Some (bytes32 v ++ rest)
  | _ => None
  end.

Definition PutUint64 (v : Z) (b : list byte) : option (list byte) :=
  match b with
  | _ :: _ :: _ :: _ :: _ :: _ :: _ :: _ :: rest => Some (bytes64 v ++ rest)
  | _ => None
  end.

(** ** Configuration *)

Record Config : Type := mkConfig {
  MaxStoreBytes : Z;
  MaxIndexBytes : Z;
  InitialOffset : Z
}.

(** ** The index *)

Definition offWidth : Z := 4.
Definition posWidth : Z := 8.
Definition entWidth : Z := offWidth + posWidth.

(** [type index struct]: the mapped file and the number of bytes of it that
    hold entries. *)
Record index : Type := mkIndex {
  index_mMap : list byte;
  index_size : Z
}.

(** [type Index struct], the exported variant of the same file. *)
Record Index : Type := mkIndex' {
  Index_mMap : list byte;
  Index_size : Z
}.

(** [os.Truncate(name, n)] on the contents of a file: cut, or extended with
    zero bytes. *)
Definition truncate_file (contents : list byte) (n : Z) : list byte :=
  take (Z.to_nat n) contents
    ++ repeat x00 (Z.to_nat n - length contents)%nat.

(** The index [newIndex] returns when it succeeds: [size] is the size of
    the file as found, the file is then brought to [int64(MaxIndexBytes)]
    bytes and mapped. *)
Definition mapped_index (contents : list byte) (c : Config) : index :=
  {| index_mMap := truncate_file contents (int64 (MaxIndexBytes c));
     index_size := Z.of_nat (length contents) |}.

(** [newIndex]: [os.Truncate] takes the length [int64(MaxIndexBytes)] and
    refuses a negative one; [newIndex] returns that error. *)
Definition newIndex (contents : list byte) (c : Config) : outcome index :=
  if int64 (MaxIndexBytes c) <? 0 then Err IoError
  else Ok (mapped_index contents c).

Definition index_Read (i : index) (in_ : Z) : outcome (Z * Z) :=
  if index_size i =? 0 then Err EOF
  else
    let out := if in_ =? -1
               then uint32 (wrap64 (index_size i / entWidth - 1))
               else uint32 in_ in
    let pos := wrap64 (out * entWidth) in
    if index_size i <? wrap64 (pos + entWidth) then Err EOF
    else
      let* b := must (slice (index_mMap i) pos (wrap64 (pos + offWidth))) in
      let* out := must (Uint32 b) in
      let* b := must (slice (index_mMap i) (wrap64 (pos + offWidth))
                            (wrap64 (pos + entWidth))) in
      let* pos := must (Uint64 b) in
      Ok (out, pos).

Definition Index_Read (i : Index) (in_ : Z) : outcome (Z * Z) :=
  if Index_size i =? 0 then Err EOF
  else
    let out := if in_ =? -1
               then uint32 (wrap64 (Index_size i / entWidth - 1))
               else uint32 in_ in
    let pos := wrap64 (out * entWidth) in
    if Index_size i <? wrap64 (pos + entWidth) then Err EOF
    else
      let* b := must (slice (Index_mMap i) pos (wrap64 (pos + entWidth))) in
      let* out := must (Uint32 b) in
      let* b := must (slice (Index_mMap i) (wrap64 (pos + offWidth))
                            (wrap64 (pos + entWidth))) in
      let* pos := must (Uint64 b) in
      Ok (out, pos).

Definition index_Write (i : index) (off pos : Z) : outcome index :=
  if Z.of_nat (length (index_mMap i)) <? wrap64 (index_size i + entWidth)
  then Err EOF
  else
    let* m := must (slice_update (index_mMap i) (index_size i)
                      (wrap64 (index_size i + offWidth)) (PutUint32 off)) in
    let* m := must (slice_update m (wrap64 (index_size i + offWidth))
                      (wrap64 (index_size i + entWidth)) (PutUint64 pos)) in
    Ok {| index_mMap := m; index_size := wrap64 (index_size i + entWidth) |}.

(** [(i *index) Close()]: the mapping is synced to the file, the file is cut
    to [size] bytes and closed. The result is the contents of the file;
    [Truncate] takes an [int64] and refuses a negative length. *)
Definition index_Close (i : index) : outcome (list byte) :=
  if int64 (index_size i) <? 0 then Err IoError
  else Ok (truncate_file (index_mMap i) (int64 (index_size i))).

(** ** Records and their codec *)

(** [api.Record]: the payload and the offset the log assigns. *)
Record api_Record : Type := mkRecord {
  Value : list byte;
  Offset : Z
}.

Definition set_Offset (r : api_Record) (off : Z) : api_Record :=
  {| Value := Value r; Offset := off |}.

(** The serializer of records ([proto.Marshal], [proto.Unmarshal]) is an
    external collaborator of the package. *)
Class Codec : Type := {
  marshal : api_Record -> list byte;
  unmarshal : list byte -> option api_Record
}.

(** The codec contract: a marshalled record unmarshals to itself. *)
Class CodecLaws `{Codec} : Prop := {
  unmarshal_marshal :
    forall r, is_uint64 (Offset r) -> unmarshal (marshal r) = Some r
}.

(** The marshalled form of a record is a Go slice whatever offset the log
    assigns: its length is an [int]. *)
Definition marshals `{Codec} (r : api_Record) : Prop :=
  forall off, is_uint64 off ->
    Z.of_nat (length (marshal (set_Offset r off))) < 2 ^ 63.

(** A codec to run the log on: the offset as 8 bytes, then the payload. *)
Definition plain_marshal (r : api_Record) : list byte :=
  bytes64 (Offset r) ++ Value r.

Definition plain_unmarshal (b : list byte) : option api_Record :=
  match Uint64 b with
  | Some off => Some {| Value := drop 8 b; Offset := off |}
  | None => None
  end.

Definition plain_codec : Codec :=
  {| marshal := plain_marshal; unmarshal := plain_unmarshal |}.

(** ** The store *)

Definition lenWidth : Z := 8.

(** Modelled from the spec: store.go is not among the sources. The store is
    an append-only file behind a write buffer: [store_buf] holds the bytes
    appended since the last flush, [store_size] counts the bytes of file and
    buffer together. *)
Record store : Type := mkStore {
  store_file : list byte;
  store_buf : list byte;
  store_size : Z
}.

(** Modelled from the spec: opening an existing file uses its current length
    as the starting size. *)
Definition newStore (contents : list byte) : store :=
  {| store_file := contents;
     store_buf := [];
     store_size := Z.of_nat (length contents) |}.

(** Modelled from the spec: Append writes [len(p)] as a big-endian u64, then
    [p]; it returns the number of bytes written and the position of the
    length prefix, and grows [size] by that number. *)
Definition store_Append (s : store) (p : list byte) : store * outcome (Z * Z) :=
  let pos := store_size s in
  let w := wrap64 (Z.of_nat (length p) + lenWidth) in
  ({| store_file := store_file s;
      store_buf := store_buf s ++ bytes64 (Z.of_nat (length p)) ++ p;
      store_size := wrap64 (store_size s + w) |},
   Ok (w, pos)).

Definition store_flush (s : store) : store :=
  {| store_file := store_file s ++ store_buf s;
     store_buf := [];
     store_size := store_size s |}.

(** A positional read of [n] bytes at [off]; a short read is an error. *)
Definition ReadAt (file : list byte) (off n : Z) : outcome (list byte) :=
  match slice file off (off + n) with
  | Some b => Ok b
  | None => Err IoError
  end.

(** Modelled from the spec: Read flushes the buffer, reads 8 bytes at [pos]
    to obtain the length [L], then reads [L] bytes at [pos + 8]. *)
Definition store_Read (s : store) (pos : Z) : store * outcome (list byte) :=
  let s' := store_flush s in
  (s',
   let* size := ReadAt (store_file s') pos lenWidth in
   let* L := must (Uint64 size) in
   ReadAt (store_file s') (wrap64 (pos + lenWidth)) L).

(** Modelled from the spec: Close flushes the buffer and closes the file. *)
Definition store_Close (s : store) : store * outcome unit :=
  (store_flush s, Ok tt).

(** ** The segment *)

(** Modelled from the spec: segment.go is not among the sources. A segment
    pairs a store and an index with its base offset and next offset;
    [segment_removed] records that [Remove] closed and unlinked its files. *)
Record segment : Type := mkSegment {
  segment_store : store;
  segment_index : index;
  baseOffset : Z;
  nextOffset : Z;
  segment_config : Config;
  segment_removed : bool
}.

Definition set_store (s : segment) (st : store) : segment :=
  {| segment_store := st; segment_index := segment_index s;
     baseOffset := baseOffset s; nextOffset := nextOffset s;
     segment_config := segment_config s;
     segment_removed := segment_removed s |}.

Definition set_index_next (s : segment) (ix : index) (next : Z) : segment :=
  {| segment_store := segment_store s; segment_index := ix;
     baseOffset := baseOffset s; nextOffset := next;
     segment_config := segment_config s;
     segment_removed := segment_removed s |}.

Definition set_removed (s : segment) : segment :=
  {| segment_store := segment_store s; segment_index := segment_index s;
     baseOffset := baseOffset s; nextOffset := nextOffset s;
     segment_config := segment_config s;
     segment_removed := true |}.

(** Modelled from the spec: the store and the index are opened on the two
    files of the base offset (given by their contents); with an empty index
    [next_offset] is the base offset, otherwise it is the base offset plus
    the last relative offset plus one. *)
Definition newSegment (storeFile indexFile : list byte) (base : Z)
    (c : Config) : outcome segment :=
  let st := newStore storeFile in
  let* ix := newIndex indexFile c in
  if index_size ix =? 0 then
    Ok {| segment_store := st; segment_index := ix; baseOffset := base;
          nextOffset := base; segment_config := c;
          segment_removed := false |}
  else
    let* e := index_Read ix (-1) in
    Ok {| segment_store := st; segment_index := ix; baseOffset := base;
          nextOffset := wrap64 (wrap64 (base + fst e) + 1);
          segment_config := c; segment_removed := false |}.

(** Modelled from the spec: Append sets the record's offset to
    [next_offset], marshals it, appends it to the store, writes the index
    entry (next_offset - base_offset, position), and increments
    [next_offset]; it returns the assigned offset. *)
Definition segment_Append `{Codec} (s : segment) (record : api_Record)
    : segment * outcome Z :=
  let cur := nextOffset s in
  let p := marshal (set_Offset record cur) in
  let '(st, r) := store_Append (segment_store s) p in
  let s := set_store s st in
  match r with
  | Ok (_, pos) =>
      match index_Write (segment_index s)
              (uint32 (wrap64 (nextOffset s - baseOffset s))) pos with
      | Ok ix => (set_index_next s ix (wrap64 (nextOffset s + 1)), Ok cur)
      | Err e => (s, Err e)
      | Panic => (s, Panic)
      end
  | Err e => (s, Err e)
  | Panic => (s, Panic)
  end.

(** Modelled from the spec: Read looks the relative offset up in the index,
    reads the store at the position found and unmarshals the bytes. *)
Definition segment_Read `{Codec} (s : segment) (off : Z)
    : segment * outcome api_Record :=
  match index_Read (segment_index s) (int64 (wrap64 (off - baseOffset s))) with
  | Ok (_, pos) =>
      let '(st, r) := store_Read (segment_store s) pos in
      (set_store s st,
       let* p := r in
       match unmarshal p with
       | Some record => Ok record
       | None => Err ErrCodec
       end)
  | Err e => (s, Err e)
  | Panic => (s, Panic)
  end.

(** Modelled from the spec (I4): the store has reached [max_store_bytes], or
    the index has no room for another entry. *)
Definition segment_IsMaxed (s : segment) : bool :=
  (MaxStoreBytes (segment_config s) <=? store_size (segment_store s))
  || (MaxIndexBytes (segment_config s)
        <? wrap64 (index_size (segment_index s) + entWidth)).

(** Modelled from the spec: Close closes the index, then the store. The
    index's Close syncs the mapping and cuts the file to [size]; the mapping
    in memory stays as it is. *)
Definition segment_Close (s : segment) : segment * outcome unit :=
  let '(st, r) := store_Close (segment_store s) in
  (set_store s st, r).

(** Modelled from the spec: Remove closes the segment, then unlinks both
    files. *)
Definition segment_Remove (s : segment) : segment * outcome unit :=
  let '(s, r) := segment_Close s in
  match r with
  | Ok _ => (set_removed s, Ok tt)
  | Err e => (s, Err e)
  | Panic => (s, Panic)
  end.

(** ** The log (log.go) *)

(** [type Log struct]. The fields [activeSegment] and [segments] hold
    pointers to segments: indices into [heap], where the segments the log
    created live. A new segment is allocated at the end of the heap. *)
Record Log : Type := mkLog {
  Log_Config : Config;
  activeSegment : option nat;
  segments : list nat;
  heap : list segment
}.

Definition set_heap (l : Log) (h : list segment) : Log :=
  {| Log_Config := Log_Config l; activeSegment := activeSegment l;
     segments := segments l; heap := h |}.

(** Modelled from the spec: a directory of segment files, as [setup] finds
    it. [dir_offsets] are the offsets parsed from the names of its entries,
    in the order [os.ReadDir] lists them (a name that is not a number parses
    to 0); [dir_store b] and [dir_index b] are the contents of the files
    [<b>.store] and [<b>.index], empty where the file does not exist and is
    created. *)
Record directory : Type := mkDirectory {
  dir_offsets : list Z;
  dir_store : Z -> list byte;
  dir_index : Z -> list byte
}.

Definition empty_directory : directory :=
  {| dir_offsets := []; dir_store := fun _ => [];
     dir_index := fun _ => [] |}.

(** [(l *Log) newSegment(off)] in the directory [dir]. *)
Definition Log_newSegment_in (dir : directory) (l : Log) (off : Z)
    : Log * outcome unit :=
  match newSegment (dir_store dir off) (dir_index dir off) off
          (Log_Config l) with
  | Ok s =>
      ({| Log_Config := Log_Config l;
          activeSegment := Some (length (heap l));
          segments := segments l ++ [length (heap l)];
          heap := heap l ++ [s] |}, Ok tt)
  | Err e => (l, Err e)
  | Panic => (l, Panic)
  end.

(** [(l *Log) newSegment(off)] when the directory holds no file for [off],
    as in a rotation, where [off] is beyond the offsets of the log: the two
    files of the new segment are created empty. *)
Definition Log_newSegment (l : Log) (off : Z) : Log * outcome unit :=
  Log_newSegment_in empty_directory l off.

(** The loop of [setup] over [baseOffsets]: it calls [newSegment] on
    [baseOffsets[i]] and skips the next element, [i] going up by two. *)
Fixpoint every_other {A : Type} (l : list A) : list A :=
  match l with
  | [] => []
  | x :: rest =>
      x :: match rest with
           | [] => []
           | _ :: rest => every_other rest
           end
  end.

(** The base offsets [setup] opens segments for, from the offsets parsed
    from the names of the directory entries: they are sorted ascending, and
    every other one is taken. *)
Definition setup_bases (offs : list Z) : list Z :=
  every_other (merge_sort Z.le offs).

(** The second loop of [setup]: a segment is opened for each base offset,
    in order; the first error is returned. *)
Fixpoint Log_setup_loop (dir : directory) (l : Log) (bases : list Z)
    : Log * outcome unit :=
  match bases with
  | [] => (l, Ok tt)
  | b :: bases =>
      match Log_newSegment_in dir l b with
      | (l, Ok _) => Log_setup_loop dir l bases
      | (l, Err e) => (l, Err e)
      | (l, Panic) => (l, Panic)
      end
  end.

(** [(l *Log) setup()] in the directory [dir]: the segments of the base
    offsets found are opened, and when there is none the segment at
    [InitialOffset] is created. *)
Definition Log_setup (dir : directory) (l : Log) : Log * outcome unit :=
  match Log_setup_loop dir l (setup_bases (dir_offsets dir)) with
  | (l, Ok _) =>
      match segments l with
      | [] => Log_newSegment_in dir l (InitialOffset (Log_Config l))
      | _ :: _ => (l, Ok tt)
      end
  | (l, Err e) => (l, Err e)
  | (l, Panic) => (l, Panic)
  end.

Definition with_defaults (c : Config) : Config :=
  let c := if MaxStoreBytes c =? 0
           then {| MaxStoreBytes := 1024; MaxIndexBytes := MaxIndexBytes c;
                   InitialOffset := InitialOffset c |}
           else c in
  if MaxIndexBytes c =? 0
  then {| MaxStoreBytes := MaxStoreBytes c;
          MaxIndexBytes := wrap64 (entWidth * 3);
          InitialOffset := InitialOffset c |}
  else c.

(** [NewLog(dir, c)]: the defaults are set and [setup] is run. *)
Definition NewLog (dir : directory) (c : Config) : Log * outcome unit :=
  Log_setup dir {| Log_Config := with_defaults c; activeSegment := None;
                   segments := []; heap := [] |}.

(** [(l *Log) Append(record)]: the Go function returns the pair
    [(off, err)]; [None] stands for a panic. *)
Definition Log_Append `{Codec} (l : Log) (record : api_Record)
    : Log * option (Z * option error) :=
  match activeSegment l with
  | None => (l, None)
  | Some a =>
      match heap l !! a with
      | None => (l, None)
      | Some s =>
          let '(s, r) := segment_Append s record in
          let l := set_heap l (<[a := s]> (heap l)) in
          match r with
          | Ok off =>
              if segment_IsMaxed s then
                match Log_newSegment l (wrap64 (off + 1)) with
                | (l, Ok _) => (l, Some (off, None))
                | (l, Err e) => (l, Some (off, Some e))
                | (l, Panic) => (l, None)
                end
              else (l, Some (off, None))
          | Err e => (l, Some (0, Some e))
          | Panic => (l, None)
          end
      end
  end.

(** The loop of [Read]: the first segment of the list whose range holds
    [off], if any. *)
Fixpoint Log_Read_find (h : list segment) (ptrs : list nat) (off : Z)
    : outcome (option nat) :=
  match ptrs with
  | [] => Ok None
  | p :: ptrs =>
      let* s := must (h !! p) in
      if (baseOffset s <=? off) && (off <? nextOffset s)
      then Ok (Some p)
      else Log_Read_find h ptrs off
  end.

Definition Log_Read `{Codec} (l : Log) (off : Z)
    : Log * outcome api_Record :=
  match Log_Read_find (heap l) (segments l) off with
  | Ok (Some p) =>
      match heap l !! p with
      | Some s =>
          let '(s, r) := segment_Read s off in
          (set_heap l (<[p := s]> (heap l)), r)
      | None => (l, Panic)
      end
  | Ok None => (l, Err (ErrOffsetOutOfRange off))
  | Err e => (l, Err e)
  | Panic => (l, Panic)
  end.

Definition Log_LowestOffset (l : Log) : outcome Z :=
  let* p := must (segments l !! 0%nat) in
  let* s := must (heap l !! p) in
  Ok (baseOffset s).

(** [l.segments[len(l.segments)-1]]: the index is an [int]; on an empty list
    it is [-1] and the indexing panics. *)
Definition Log_HighestOffset (l : Log) : outcome Z :=
  let n := Z.of_nat (length (segments l)) - 1 in
  let* p := must (if n <? 0 then None else segments l !! Z.to_nat n) in
  let* s := must (heap l !! p) in
  let off := nextOffset s in
  if off =? 0 then Ok 0 else Ok (wrap64 (off - 1)).

(** The loop of [Truncate]: [kept] is the local slice [segments]. *)
Fixpoint Log_Truncate_loop (h : list segment) (ptrs kept : list nat)
    (lowest : Z) : list segment * outcome (list nat) :=
  match ptrs with
  | [] => (h, Ok kept)
  | p :: ptrs =>
      match h !! p with
      | None => (h, Panic)
      | Some s =>
          if nextOffset s <=? wrap64 (lowest + 1) then
            let '(s, r) := segment_Remove s in
            let h := <[p := s]> h in
            match r with
            | Ok _ => Log_Truncate_loop h ptrs kept lowest
            | Err e => (h, Err e)
            | Panic => (h, Panic)
            end
          else Log_Truncate_loop h ptrs (kept ++ [p]) lowest
      end
  end.

Definition Log_Truncate (l : Log) (lowest : Z) : Log * outcome unit :=
  match Log_Truncate_loop (heap l) (segments l) [] lowest with
  | (h, Ok kept) =>
      ({| Log_Config := Log_Config l; activeSegment := activeSegment l;
          segments := kept; heap := h |}, Ok tt)
  | (h, Err e) => (set_heap l h, Err e)
  | (h, Panic) => (set_heap l h, Panic)
  end.

(** * Specification predicates *)

(** ** What an index holds *)

(** An index entry on disk: the relative offset as a big-endian u32, then
    the position as a big-endian u64. *)
Definition encode_entry (e : Z * Z) : list byte :=
  bytes32 (fst e) ++ bytes64 (snd e).

Definition is_entry (e : Z * Z) : Prop :=
  is_uint32 (fst e) /\ is_uint64 (snd e).

(** The index [i] holds the entries [es]: its first [size] bytes are their
    encodings, in order. *)
Definition index_holds (i : index) (es : list (Z * Z)) : Prop :=
  index_size i = entWidth * Z.of_nat (length es)
  /\ (exists tail, index_mMap i = flat_map encode_entry es ++ tail)
  /\ Forall is_entry es.


(** An index of three slots holding the one entry (7, 1234). *)
Definition example_index : index :=
  {| index_mMap := encode_entry (7, 1234) ++ repeat x00 24;
     index_size := 12 |}.


(** ** What a log holds *)

(** Every pointer of the segment list points into the heap. *)
Definition heap_ok (l : Log) : Prop :=
  Forall (fun p => (p < length (heap l))%nat) (segments l).

(** The segment a pointer of the log points to. *)
Definition segment_at (l : Log) (p : nat) (s : segment) : Prop :=
  p ∈ segments l /\ heap l !! p = Some s.

(** The tail of the segment list. *)
Definition tail_segment (l : Log) (s : segment) : Prop :=
  exists p, last (segments l) = Some p /\ heap l !! p = Some s.

(** A segment without records. *)
Definition segment_empty (s : segment) : Prop :=
  nextOffset s = baseOffset s.

(** [Truncate(lowest)] drops a segment when its next offset is at most
    [lowest + 1], computed on [uint64]. *)
Definition dropped (lowest : Z) (s : segment) : bool :=
  nextOffset s <=? wrap64 (lowest + 1).

(** The pointers [Truncate(lowest)] retains, by the next offsets [nexts] of
    the heap. *)
Definition retained (nexts : list Z) (lowest : Z) (p : nat) : bool :=
  match nexts !! p with
  | Some next => negb (next <=? wrap64 (lowest + 1))
  | None => false
  end.

(** A log created with the default configuration, and one whose first
    segment starts at offset 16. *)
Definition default_config : Config :=
  {| MaxStoreBytes := 0; MaxIndexBytes := 0; InitialOffset := 0 |}.

Definition fresh_log : Log := fst (NewLog empty_directory default_config).

Definition fresh_log_16 : Log :=
  fst (NewLog empty_directory {| MaxStoreBytes := 0; MaxIndexBytes := 0;
                 InitialOffset := 16 |}).


(** A segment with the given base and next offsets and nothing else of
    interest, and a log of three such segments covering [0..10), [10..20)
    and [20..30). *)
Definition bare_segment (base next : Z) : segment :=
  {| segment_store := newStore [];
     segment_index := mapped_index [] (with_defaults default_config);
     baseOffset := base; nextOffset := next;
     segment_config := with_defaults default_config;
     segment_removed := false |}.

Definition three_segment_log : Log :=
  {| Log_Config := with_defaults default_config;
     activeSegment := Some 2%nat;
     segments := [0%nat; 1%nat; 2%nat];
     heap := [bare_segment 0 10; bare_segment 10 20; bare_segment 20 30] |}.


(** What [Truncate] leaves in the heap for the segment [s] at pointer [q]:
    [s] removed when [q] is listed and [s] is dropped, [s] otherwise. *)
Definition after_Truncate (ptrs : list nat) (lowest : Z) (q : nat)
    (s : segment) : segment :=
  if bool_decide (q ∈ ptrs) && dropped lowest s
  then fst (segment_Remove s) else s.



(** [Truncate(lowest)] keeps the active segment of [l] in the list. *)
Definition Truncate_keeps_active (l : Log) (lowest : Z) : Prop :=
  forall a, activeSegment l = Some a -> a ∈ segments l ->
            a ∈ segments (fst (Log_Truncate l lowest)).

(** The fresh default log after one append. *)
Definition one_record_log : Log :=
  fst (@Log_Append plain_codec fresh_log {| Value := []; Offset := 0 |}).


(** ** Offset ranges *)

(** The offset [off] lies in the range [[base_offset, next_offset)] of [s]. *)
Definition in_range (s : segment) (off : Z) : Prop :=
  baseOffset s <= off < nextOffset s.

(** [ss] are the segments of the log's list, in order. *)
Definition listed (l : Log) (ss : list segment) : Prop :=
  Forall2 (fun p s => heap l !! p = Some s) (segments l) ss.

(** The offsets of the segments are [uint64] values. *)
Definition offsets_typed (ss : list segment) : Prop :=
  Forall (fun s => is_uint64 (baseOffset s) /\ is_uint64 (nextOffset s)) ss.

(** Invariant I2 in its local form: every range is well formed and each
    segment starts where the one before it ends. *)
Fixpoint contiguous (ss : list segment) : Prop :=
  match ss with
  | [] => True
  | s :: rest =>
      baseOffset s <= nextOffset s
      /\ match rest with
         | [] => True
         | t :: _ => baseOffset t = nextOffset s
         end
      /\ contiguous rest
  end.


(** ** Appending *)

(** The segment [newSegment] makes on two empty files. *)
Definition fresh_segment (base : Z) (c : Config) : segment :=
  {| segment_store := newStore []; segment_index := mapped_index [] c;
     baseOffset := base; nextOffset := base; segment_config := c;
     segment_removed := false |}.

(** The log after its active segment [a] became [s], and after a rotation
    to a new segment at [off]. *)
Definition with_active (l : Log) (a : nat) (s : segment) : Log :=
  set_heap l (<[a := s]> (heap l)).

Definition rotated (l : Log) (off : Z) : Log :=
  {| Log_Config := Log_Config l;
     activeSegment := Some (length (heap l));
     segments := segments l ++ [length (heap l)];
     heap := heap l ++ [fresh_segment off (Log_Config l)] |}.

(** A log whose first segment starts at the last offset and holds one
    entry: the first append rotates. *)
Definition last_offset_config : Config :=
  {| MaxStoreBytes := 0; MaxIndexBytes := 12; InitialOffset := 2 ^ 64 - 1 |}.

Definition last_offset_log : Log :=
  fst (NewLog empty_directory last_offset_config).

Definition empty_record : api_Record := {| Value := []; Offset := 0 |}.


(** ** The invariant of the segment list *)

(** The values a list of pointers points to. *)
Fixpoint deref {A : Type} (h : list A) (ptrs : list nat) : list A :=
  match ptrs with
  | [] => []
  | p :: ptrs =>
      match h !! p with
      | Some s => s :: deref h ptrs
      | None => deref h ptrs
      end
  end.

(** The segments of the log's list. *)
Definition Log_segments (l : Log) : list segment :=
  deref (heap l) (segments l).


Definition ranges_disjoint (ss : list segment) : Prop :=
  forall i j s t off, i <> j -> ss !! i = Some s -> ss !! j = Some t ->
                      ~ (in_range s off /\ in_range t off).



(** The active segment is the tail of the list, unless the list is empty. *)
Definition active_is_tail (l : Log) : Prop :=
  exists a, activeSegment l = Some a /\ (a < length (heap l))%nat
            /\ (segments l = [] \/ last (segments l) = Some a).

(** The invariant of a log. *)
Definition log_inv (l : Log) : Prop :=
  heap_ok l /\ NoDup (segments l) /\ active_is_tail l
  /\ contiguous (Log_segments l) /\ offsets_typed (Log_segments l).

(** The offset space is not exhausted: the active segment's next offset is
    not the last offset. *)
Definition no_wrap (l : Log) : Prop :=
  forall a s, activeSegment l = Some a -> heap l !! a = Some s ->
              nextOffset s < 2 ^ 64 - 1.

Definition Config_typed (c : Config) : Prop :=
  is_uint64 (MaxStoreBytes c) /\ is_uint64 (MaxIndexBytes c)
  /\ is_uint64 (InitialOffset c).

(** The states a log goes through from the state [init] in which it was
    opened, by [Append] (in states that satisfy [guard]), [Read] and
    [Truncate]. *)
Inductive reachable_when `{Codec} (guard : Log -> Prop) (init : Log)
    : Log -> Prop :=
| reachable_init : reachable_when guard init init
| reachable_Append l r :
    reachable_when guard init l -> guard l ->
    reachable_when guard init (fst (Log_Append l r))
| reachable_Read l off :
    reachable_when guard init l ->
    reachable_when guard init (fst (Log_Read l off))
| reachable_Truncate l lowest :
    reachable_when guard init l ->
    reachable_when guard init (fst (Log_Truncate l lowest)).


Definition reachable_unguarded `{Codec} (init : Log) : Log -> Prop :=
  reachable_when (fun _ => True) init.


(** The log after one more append. *)
Definition appended `{Codec} (l : Log) (r : api_Record) : Log :=
  fst (Log_Append l r).





(** ** What a segment holds *)

(** A record in the store file: its length as a big-endian u64, then its
    bytes. *)
Definition frame (p : list byte) : list byte :=
  bytes64 (Z.of_nat (length p)) ++ p.

Definition store_image (ps : list (list byte)) : list byte :=
  flat_map frame ps.

(** The segment [s] holds the records [rs], in order: the store is the
    image of their marshalled forms, the index maps the relative offset [k]
    to the position of the [k]-th frame. *)
Definition segment_holds `{Codec} (s : segment) (rs : list api_Record)
    : Prop :=
  (exists es,
     index_holds (segment_index s) es
     /\ length es = length rs
     /\ forall (k : nat) e, es !! k = Some e ->
          e = (Z.of_nat k,
               Z.of_nat (length (store_image (marshal <$> take k rs)))))
  /\ store_file (segment_store s) ++ store_buf (segment_store s)
     = store_image (marshal <$> rs)
  /\ store_size (segment_store s)
     = Z.of_nat (length (store_image (marshal <$> rs)))
  /\ store_size (segment_store s) < 2 ^ 64
  /\ nextOffset s = baseOffset s + Z.of_nat (length rs)
  /\ Forall (fun r => is_uint64 (Offset r)) rs
  /\ Z.of_nat (length (index_mMap (segment_index s)))
     = MaxIndexBytes (segment_config s).

(** The segment after its store flushed its buffer. *)
Definition flushed (s : segment) : segment :=
  set_store s (store_flush (segment_store s)).

(** The limits of a configuration under which sizes and positions stay
    within their types. *)
Definition Config_small (c : Config) : Prop :=
  0 < MaxStoreBytes c < 2 ^ 62 /\ entWidth <= MaxIndexBytes c < 2 ^ 32.


(** ** What a log holds: its records *)

(** Every listed segment holds some records under the log's
    configuration. *)
Definition segments_hold `{Codec} (l : Log) : Prop :=
  forall p s, p ∈ segments l -> heap l !! p = Some s ->
    segment_config s = Log_Config l /\ exists rs, segment_holds s rs.

(** The invariant of the round trip: the list invariant, a configuration
    within the limits, segments that hold records, and an active segment
    that is listed and has room. *)
Definition log_holds `{Codec} (l : Log) : Prop :=
  log_inv l /\ Config_small (Log_Config l)
  /\ segments_hold l
  /\ (exists a s, activeSegment l = Some a /\ a ∈ segments l
        /\ heap l !! a = Some s /\ segment_IsMaxed s = false).

(** The log holds the record [r] at the offset [off]. *)
Definition holds `{Codec} (l : Log) (off : Z) (r : api_Record) : Prop :=
  exists p s rs (k : nat),
    p ∈ segments l /\ heap l !! p = Some s /\ segment_holds s rs
    /\ rs !! k = Some r /\ off = baseOffset s + Z.of_nat k.


(** The next offset the log assigns. *)
Definition Log_next (l : Log) (n : Z) : Prop :=
  exists a s, activeSegment l = Some a /\ heap l !! a = Some s
              /\ nextOffset s = n.


(** The calls [Append(r)] for each record of [rs] in turn, and the calls
    [Read(off)] for each offset of [offs] in turn, with their results. *)
Fixpoint Log_Append_all `{Codec} (l : Log) (rs : list api_Record)
    : Log * list (option (Z * option error)) :=
  match rs with
  | [] => (l, [])
  | r :: rs =>
      let '(l, res) := Log_Append l r in
      let '(l, ress) := Log_Append_all l rs in
      (l, res :: ress)
  end.

Fixpoint Log_Read_each `{Codec} (l : Log) (offs : list Z)
    : Log * list (outcome api_Record) :=
  match offs with
  | [] => (l, [])
  | off :: offs =>
      let '(l, res) := Log_Read l off in
      let '(l, ress) := Log_Read_each l offs in
      (l, res :: ress)
  end.

(** Four records to append. *)
Definition four_records : list api_Record :=
  [ {| Value := [x61]; Offset := 0 |};
    {| Value := [x62; x63]; Offset := 7 |};
    {| Value := []; Offset := 0 |};
    {| Value := [x64]; Offset := 0 |} ].


(** ** Examples of indexes and logs *)


(** An index of two slots that holds one entry, and an index without
    room. *)
Definition one_slot_free : index :=
  {| index_mMap := encode_entry (7, 1234) ++ repeat x00 12;
     index_size := 12 |}.

Definition full_index : index :=
  {| index_mMap := encode_entry (7, 1234); index_size := 12 |}.


(** The default log after the four records: segments [0..3) and [3..4). *)
Definition four_appended : Log :=
  fst (@Log_Append_all plain_codec fresh_log four_records).


(** ** Logs without room, and the segment test *)


(** The active segment is the first one of the heap, it has no index entry
    and its mapping has no room for one. *)
Definition index_without_room (l : Log) : Prop :=
  exists s, activeSegment l = Some 0%nat /\ heap l !! 0%nat = Some s
            /\ index_size (segment_index s) = 0
            /\ Z.of_nat (length (index_mMap (segment_index s))) < entWidth.






(** A log whose first segment starts two offsets before the end of the
    offset space and whose segments hold one entry each, after three
    appends: its segments are based at [2^64 - 2], [2^64 - 1], 0 and 1. *)
Definition near_last_config : Config :=
  {| MaxStoreBytes := 0; MaxIndexBytes := 12; InitialOffset := 2 ^ 64 - 2 |}.

Definition near_last_log : Log :=
  fst (NewLog empty_directory near_last_config).

Definition wrapped_three_log : Log :=
  @appended plain_codec
    (@appended plain_codec
       (@appended plain_codec near_last_log empty_record) empty_record)
    empty_record.


(** ** Opening a log on a directory *)


(** The files a log leaves when closed after three records in the segment
    at base 0 and a rotation to base 3. *)
Definition closed_store (b : Z) : list byte :=
  if b =? 0
  then store_image (plain_marshal <$> [ {| Value := []; Offset := 0 |};
                                        {| Value := []; Offset := 1 |};
                                        {| Value := []; Offset := 2 |} ])
  else [].

Definition closed_index (b : Z) : list byte :=
  if b =? 0 then flat_map encode_entry [(0, 0); (1, 16); (2, 32)] else [].

(** The directory of these files, and the same directory with one more
    entry, whose name is not a number and parses to 0. *)
Definition paired_directory : directory :=
  {| dir_offsets := [0; 0; 3; 3]; dir_store := closed_store;
     dir_index := closed_index |}.


Definition reopened_log : Log := fst (NewLog paired_directory default_config).

(** * Properties *)

(** ** Machine integers and bytes *)

Lemma wrap64_small z : 0 <= z < 2 ^ 64 -> wrap64 z = z.
Proof. intros. unfold wrap64. apply Z.mod_small. lia. Qed.

Lemma wrap64_range z : 0 <= wrap64 z < 2 ^ 64.
Proof. unfold wrap64. apply Z.mod_pos_bound. lia. Qed.

Lemma uint32_small z : 0 <= z < 2 ^ 32 -> uint32 z = z.
Proof. intros. unfold uint32. apply Z.mod_small. lia. Qed.

Lemma uint32_range z : 0 <= uint32 z < 2 ^ 32.
Proof. unfold uint32. apply Z.mod_pos_bound. lia. Qed.

Lemma int64_small z : 0 <= z < 2 ^ 63 -> int64 z = z.
Proof. intros. unfold int64. rewrite Z.mod_small; lia. Qed.

Lemma Z_of_byte_range b : 0 <= Z_of_byte b < 256.
Proof. unfold Z_of_byte. pose proof (Byte.to_N_bounded b). lia. Qed.

Lemma Z_of_byte_of_Z z : Z_of_byte (byte_of_Z z) = z mod 256.
Proof.
  unfold Z_of_byte, byte_of_Z.
  assert (0 <= z mod 256 < 256) by (apply Z.mod_pos_bound; lia).
  destruct (Byte.of_N (Z.to_N (z mod 256))) eqn:E.
  - apply Byte.to_of_N in E. rewrite E. lia.
  - rewrite Byte.of_N_None_iff in E. lia.
Qed.

(** ** Big-endian decoding inverts encoding *)

Lemma testbit_low_byte v n :
  0 <= n -> Z.testbit (v mod 256) n = Z.testbit v n && (n <? 8).
Proof.
  intros Hn. change 256 with (2 ^ 8). rewrite <- Z.land_ones by lia.
  rewrite Z.land_spec, Z.testbit_ones by lia.
  destruct (Z.leb_spec 0 n); [|lia]. reflexivity.
Qed.

Lemma testbit_byte_at v k n :
  0 <= k -> 0 <= n ->
  Z.testbit (Z.shiftl (Z.shiftr v k mod 256) k) n
  = Z.testbit v n && ((k <=? n) && (n <? k + 8)).
Proof.
  intros Hk Hn. rewrite Z.shiftl_spec by lia.
  destruct (Z.leb_spec k n).
  - rewrite testbit_low_byte by lia. rewrite Z.shiftr_spec by lia.
    replace (n - k + k) with n by lia.
    destruct (Z.ltb_spec (n - k) 8), (Z.ltb_spec n (k + 8)); try lia;
      reflexivity.
  - rewrite Z.testbit_neg_r by lia. rewrite andb_false_r. reflexivity.
Qed.

(** Replaces every comparison of the goal that [lia] settles by its value. *)
Ltac decide_cmp :=
  repeat match goal with
  | |- context [?a <=? ?b] =>
      first [ rewrite (proj2 (Z.leb_le a b)) by lia
            | rewrite (proj2 (Z.leb_gt a b)) by lia ]
  | |- context [?a <? ?b] =>
      first [ rewrite (proj2 (Z.ltb_lt a b)) by lia
            | rewrite (proj2 (Z.ltb_ge a b)) by lia ]
  end.

Lemma Uint32_bytes32 v rest : Uint32 (bytes32 v ++ rest) = Some (v mod 2 ^ 32).
Proof.
  unfold bytes32, Uint32. cbn [app]. rewrite !Z_of_byte_of_Z. f_equal.
  apply Z.bits_inj'. intros n Hn.
  rewrite !Z.lor_spec, !testbit_byte_at, testbit_low_byte by lia.
  rewrite <- Z.land_ones, Z.land_spec, Z.testbit_ones by lia.
  destruct (Z.testbit v n); simpl; [|reflexivity].
  assert (n < 8 \/ 8 <= n < 16 \/ 16 <= n < 24 \/ 24 <= n < 32 \/ 32 <= n)
    as Hc by lia.
  repeat (destruct Hc as [Hc|Hc]; [decide_cmp; reflexivity|]).
  decide_cmp; reflexivity.
Qed.

Lemma Uint64_bytes64 v rest : Uint64 (bytes64 v ++ rest) = Some (v mod 2 ^ 64).
Proof.
  unfold bytes64, Uint64. cbn [app]. rewrite !Z_of_byte_of_Z. f_equal.
  apply Z.bits_inj'. intros n Hn.
  rewrite !Z.lor_spec, !testbit_byte_at, testbit_low_byte by lia.
  rewrite <- Z.land_ones, Z.land_spec, Z.testbit_ones by lia.
  destruct (Z.testbit v n); simpl; [|reflexivity].
  assert (n < 8 \/ 8 <= n < 16 \/ 16 <= n < 24 \/ 24 <= n < 32
          \/ 32 <= n < 40 \/ 40 <= n < 48 \/ 48 <= n < 56 \/ 56 <= n < 64
          \/ 64 <= n) as Hc by lia.
  repeat (destruct Hc as [Hc|Hc]; [decide_cmp; reflexivity|]).
  decide_cmp; reflexivity.
Qed.

Lemma length_bytes32 v : length (bytes32 v) = 4%nat.
Proof. reflexivity. Qed.

Lemma length_bytes64 v : length (bytes64 v) = 8%nat.
Proof. reflexivity. Qed.

(** Decoding looks at the first bytes of a slice only. *)
Lemma Uint32_app (b rest : list byte) :
  length b = 4%nat -> Uint32 (b ++ rest) = Uint32 b.
Proof.
  intros Hb. do 4 (destruct b as [|? b]; [discriminate|]).
  destruct b; [reflexivity|discriminate].
Qed.

Lemma Uint64_app (b rest : list byte) :
  length b = 8%nat -> Uint64 (b ++ rest) = Uint64 b.
Proof.
  intros Hb. do 8 (destruct b as [|? b]; [discriminate|]).
  destruct b; [reflexivity|discriminate].
Qed.

Lemma Uint32_is_Some (b : list byte) : (4 <= length b)%nat -> is_Some (Uint32 b).
Proof.
  intros Hb. do 4 (destruct b as [|? b]; [simpl in Hb; lia|]). simpl. eauto.
Qed.

Lemma Uint64_is_Some (b : list byte) : (8 <= length b)%nat -> is_Some (Uint64 b).
Proof.
  intros Hb. do 8 (destruct b as [|? b]; [simpl in Hb; lia|]). simpl. eauto.
Qed.

(** ** Slices *)

Lemma slice_Some (s : list byte) lo hi :
  0 <= lo -> lo <= hi -> hi <= Z.of_nat (length s) ->
  slice s lo hi = Some (take (Z.to_nat (hi - lo)) (drop (Z.to_nat lo) s)).
Proof.
  intros H1 H2 H3. unfold slice.
  apply Z.leb_le in H1, H2, H3. rewrite H1, H2, H3. reflexivity.
Qed.

Lemma slice_None (s : list byte) lo hi :
  Z.of_nat (length s) < hi -> slice s lo hi = None.
Proof.
  intros H. unfold slice. apply Z.leb_gt in H. rewrite H.
  rewrite andb_false_r. reflexivity.
Qed.

Lemma slice_Some_inv (s b : list byte) lo hi :
  slice s lo hi = Some b ->
  0 <= lo /\ lo <= hi /\ hi <= Z.of_nat (length s)
  /\ b = take (Z.to_nat (hi - lo)) (drop (Z.to_nat lo) s).
Proof.
  unfold slice. intros H.
  destruct (0 <=? lo) eqn:E1; [|discriminate].
  destruct (lo <=? hi) eqn:E2; [|discriminate].
  destruct (hi <=? Z.of_nat (length s)) eqn:E3; [|discriminate].
  simpl in H. inversion H.
  apply Z.leb_le in E1, E2, E3. auto.
Qed.

Lemma length_slice (s b : list byte) lo hi :
  slice s lo hi = Some b -> Z.of_nat (length b) = hi - lo.
Proof.
  intros H. apply slice_Some_inv in H as (? & ? & ? & ->).
  rewrite length_take, length_drop. lia.
Qed.

(** A slice of an extended list is the slice of the list. *)
Lemma slice_app_l (s t b : list byte) lo hi :
  slice s lo hi = Some b -> slice (s ++ t) lo hi = Some b.
Proof.
  intros H. apply slice_Some_inv in H as (? & ? & ? & ->).
  rewrite slice_Some by (rewrite ?length_app; lia). f_equal.
  rewrite drop_app_le by lia.
  rewrite take_app_le by (rewrite length_drop; lia). reflexivity.
Qed.

(** The head of a slice is the head of any longer slice from the same
    place. *)
Lemma slice_prefix (s : list byte) lo mid hi :
  0 <= lo -> lo <= mid -> mid <= hi -> hi <= Z.of_nat (length s) ->
  exists b rest,
    slice s lo mid = Some b /\ slice s lo hi = Some (b ++ rest)
    /\ slice s mid hi = Some rest.
Proof.
  intros H1 H2 H3 H4.
  exists (take (Z.to_nat (mid - lo)) (drop (Z.to_nat lo) s)).
  exists (take (Z.to_nat (hi - mid)) (drop (Z.to_nat mid) s)).
  rewrite !slice_Some by lia. repeat split. f_equal.
  replace (Z.to_nat (hi - lo))
    with (Z.to_nat (mid - lo) + Z.to_nat (hi - mid))%nat by lia.
  rewrite <- take_take_drop, drop_drop. do 3 f_equal. lia.
Qed.

(** ** Reading the index *)

Lemma length_encode_entry e : length (encode_entry e) = 12%nat.
Proof. reflexivity. Qed.

Lemma length_flat_map_encode es :
  length (flat_map encode_entry es) = (12 * length es)%nat.
Proof.
  induction es as [|e es IH]; [reflexivity|].
  cbn [flat_map]. rewrite length_app, IH, length_encode_entry. simpl. lia.
Qed.

(** The bytes of entry [k] inside the encodings of [es]. *)
Lemma flat_map_encode_lookup es (k : nat) e :
  es !! k = Some e ->
  exists pre post,
    flat_map encode_entry es = pre ++ encode_entry e ++ post
    /\ length pre = (12 * k)%nat.
Proof.
  intros Hk.
  exists (flat_map encode_entry (take k es)),
         (flat_map encode_entry (drop (S k) es)).
  split.
  - rewrite <- (take_drop_middle es k e Hk) at 1.
    rewrite flat_map_app. reflexivity.
  - rewrite length_flat_map_encode, length_take.
    apply lookup_lt_Some in Hk. lia.
Qed.

(** The two decodings [Read] performs at the place of an entry. *)
Lemma read_entry_at (m pre rest : list byte) (e : Z * Z) (pos : Z) :
  m = pre ++ encode_entry e ++ rest ->
  pos = Z.of_nat (length pre) ->
  is_entry e ->
  (let* b := must (slice m pos (pos + offWidth)) in
   let* out := must (Uint32 b) in
   let* b := must (slice m (pos + offWidth) (pos + entWidth)) in
   let* p := must (Uint64 b) in
   Ok (out, p)) = Ok e.
Proof.
  intros -> -> [Ho Hp]. destruct e as [o p]. simpl in Ho, Hp.
  unfold offWidth, entWidth, offWidth, posWidth, encode_entry. simpl fst; simpl snd.
  rewrite !slice_Some
    by (rewrite ?length_app, ?length_bytes32, ?length_bytes64; lia).
  replace (Z.to_nat (Z.of_nat (length pre) + 4 - Z.of_nat (length pre)))
    with 4%nat by lia.
  replace (Z.to_nat (Z.of_nat (length pre) + (4 + 8)
                     - (Z.of_nat (length pre) + 4))) with 8%nat by lia.
  rewrite Nat2Z.id.
  rewrite drop_app_length.
  replace (Z.to_nat (Z.of_nat (length pre) + 4))
    with (length pre + 4)%nat by lia.
  rewrite <- drop_drop, drop_app_length.
  rewrite <- app_assoc.
  rewrite (take_app_length' (bytes32 o)) by reflexivity.
  rewrite (drop_app_length' (bytes32 o)) by reflexivity.
  rewrite (take_app_length' (bytes64 p)) by reflexivity.
  cbn [must bind].
  rewrite <- (app_nil_r (bytes32 o)), Uint32_bytes32.
  rewrite <- (app_nil_r (bytes64 p)), Uint64_bytes64.
  cbn [must bind].
  unfold is_uint32, is_uint64 in *.
  rewrite !Z.mod_small by lia. reflexivity.
Qed.

(** [Read] of an entry the index holds, at an input whose conversion to
    [uint32] is the entry's number. *)
Lemma index_Read_holds (i : index) es (k : nat) e (out : Z) :
  index_holds i es ->
  es !! k = Some e ->
  out = Z.of_nat k -> out < 2 ^ 32 ->
  (let pos := wrap64 (out * entWidth) in
   if index_size i <? wrap64 (pos + entWidth) then Err EOF
   else
     let* b := must (slice (index_mMap i) pos (wrap64 (pos + offWidth))) in
     let* out := must (Uint32 b) in
     let* b := must (slice (index_mMap i) (wrap64 (pos + offWidth))
                           (wrap64 (pos + entWidth))) in
     let* pos := must (Uint64 b) in
     Ok (out, pos)) = Ok e.
Proof.
  intros (Hsz & [tail Hm] & Hall) Hk -> Hlt.
  pose proof (lookup_lt_Some _ _ _ Hk) as Hlen.
  destruct (flat_map_encode_lookup _ _ _ Hk) as (pre & post & Hflat & Hpre).
  cbv zeta. unfold entWidth, offWidth, posWidth in *.
  rewrite (wrap64_small (Z.of_nat k * (4 + 8))) by lia.
  rewrite !wrap64_small by lia.
  destruct (Z.ltb_spec (index_size i) (Z.of_nat k * (4 + 8) + (4 + 8)));
    [lia|].
  apply (read_entry_at _ pre (post ++ tail)).
  - rewrite Hm, Hflat, <- !app_assoc. reflexivity.
  - lia.
  - eapply Forall_lookup_1; eauto.
Qed.

(** ** The two variants of [Read] *)

(** Where [Read] decodes: the entry number after conversion to [uint32], so
    a position below [2^36]. *)
Lemma read_position_range (out : Z) :
  0 <= out < 2 ^ 32 ->
  wrap64 (out * entWidth) = out * entWidth
  /\ wrap64 (out * entWidth + offWidth) = out * entWidth + offWidth
  /\ wrap64 (out * entWidth + entWidth) = out * entWidth + entWidth.
Proof.
  intros H. unfold entWidth, offWidth, posWidth.
  rewrite !wrap64_small by lia. auto.
Qed.

(** Decoding the relative offset from the whole entry or from its first four
    bytes gives the same result, and panics in the same cases. *)
Lemma decode_entry_variants (m : list byte) (pos : Z) :
  0 <= pos ->
  (let* b := must (slice m pos (pos + entWidth)) in
   let* out := must (Uint32 b) in
   let* b := must (slice m (pos + offWidth) (pos + entWidth)) in
   let* p := must (Uint64 b) in
   Ok (out, p))
  = (let* b := must (slice m pos (pos + offWidth)) in
     let* out := must (Uint32 b) in
     let* b := must (slice m (pos + offWidth) (pos + entWidth)) in
     let* p := must (Uint64 b) in
     Ok (out, p)).
Proof.
  intros Hpos.
  destruct (Z_le_gt_dec (pos + entWidth) (Z.of_nat (length m))) as [Hin|Hout].
  - destruct (slice_prefix m pos (pos + offWidth) (pos + entWidth))
      as (b & rest & H1 & H2 & H3);
      try (unfold entWidth, offWidth, posWidth in *; lia).
    rewrite H1, H2, H3. cbn [must bind].
    rewrite Uint32_app; [reflexivity|].
    apply length_slice in H1. unfold offWidth in H1. lia.
  - rewrite (slice_None m pos (pos + entWidth)) by lia.
    rewrite (slice_None m (pos + offWidth) (pos + entWidth)) by lia.
    cbn [must bind].
    destruct (slice m pos (pos + offWidth)) as [b|] eqn:Hb; [|reflexivity].
    cbn [must bind].
    destruct (Uint32_is_Some b) as [o Ho].
    + apply length_slice in Hb. unfold offWidth in Hb. lia.
    + rewrite Ho. reflexivity.
Qed.

(** C9. The two [Read] implementations of the source, [Index.Read] (relative
    offset decoded from the 12-byte slice of the entry) and [index.Read]
    (decoded from its first 4 bytes), give the same result (relative offset,
    position, error, or panic) for every mapped file, size and input. *)
Theorem Index_Read_index_Read (m : list byte) (sz n : Z) :
  Index_Read {| Index_mMap := m; Index_size := sz |} n
  = index_Read {| index_mMap := m; index_size := sz |} n.
Proof.
  unfold Index_Read, index_Read. cbn [Index_mMap Index_size index_mMap index_size].
  destruct (sz =? 0); [reflexivity|].
  set (out := if n =? -1 then uint32 (wrap64 (sz / entWidth - 1)) else uint32 n).
  assert (Hout : 0 <= out < 2 ^ 32)
    by (subst out; destruct (n =? -1); apply uint32_range).
  cbv zeta.
  destruct (read_position_range out Hout) as (E1 & E2 & E3).
  rewrite !E1, !E2, !E3.
  destruct (sz <? out * entWidth + entWidth); [reflexivity|].
  apply decode_entry_variants. unfold entWidth, offWidth, posWidth. lia.
Qed.

(** ** What [Read] returns *)

Lemma index_holds_size (i : index) es :
  index_holds i es -> index_size i = entWidth * Z.of_nat (length es).
Proof. intros (H & _). exact H. Qed.

Lemma index_Read_nth (i : index) es (n : Z) e :
  index_holds i es ->
  0 <= n < 2 ^ 32 ->
  es !! Z.to_nat n = Some e ->
  index_Read i n = Ok e.
Proof.
  intros Hi Hn He.
  pose proof (index_holds_size _ _ Hi) as Hsz.
  pose proof (lookup_lt_Some _ _ _ He) as Hlen.
  unfold index_Read.
  destruct (Z.eqb_spec (index_size i) 0) as [E|_];
    [unfold entWidth, offWidth, posWidth in Hsz; lia|].
  destruct (Z.eqb_spec n (-1)) as [E|_]; [lia|].
  rewrite uint32_small by lia.
  apply (index_Read_holds i es (Z.to_nat n) e n Hi He); lia.
Qed.

Lemma index_Read_last (i : index) es :
  index_holds i es ->
  Z.of_nat (length es) <= 2 ^ 32 ->
  es <> [] ->
  exists e, es !! Z.to_nat (index_size i / entWidth - 1) = Some e
            /\ index_Read i (-1) = Ok e.
Proof.
  intros Hi Hmax Hne.
  pose proof (index_holds_size _ _ Hi) as Hsz.
  assert (Hlen : (0 < length es)%nat) by (destruct es; [congruence|simpl; lia]).
  assert (Hdiv : index_size i / entWidth = Z.of_nat (length es)).
  { rewrite Hsz, Z.mul_comm. apply Z.div_mul.
    unfold entWidth, offWidth, posWidth. lia. }
  destruct (lookup_lt_is_Some_2 es (Z.to_nat (index_size i / entWidth - 1)))
    as [e He]; [lia|].
  exists e. split; [exact He|].
  unfold index_Read.
  destruct (Z.eqb_spec (index_size i) 0) as [E|_];
    [unfold entWidth, offWidth, posWidth in Hsz; lia|].
  change (-1 =? -1) with true. cbv iota.
  rewrite (wrap64_small (index_size i / entWidth - 1)) by lia.
  rewrite uint32_small by lia.
  apply (index_Read_holds i es (Z.to_nat (index_size i / entWidth - 1)) e _
           Hi He); lia.
Qed.

(** [Read] reports the end of the file exactly on an empty index and past
    its last entry, for inputs that are entry numbers. *)
Lemma index_Read_EOF (i : index) es (n : Z) :
  index_holds i es ->
  Z.of_nat (length es) <= 2 ^ 32 ->
  -1 <= n < 2 ^ 32 ->
  index_Read i n = Err EOF
  <-> index_size i = 0 \/ index_size i < (n + 1) * entWidth.
Proof.
  intros Hi Hmax Hn.
  pose proof (index_holds_size _ _ Hi) as Hsz.
  assert (Hw : entWidth = 12) by reflexivity.
  destruct (Z.eq_dec n (-1)) as [->|Hn1].
  - split.
    + intros HR. destruct es as [|e0 es'].
      * left. rewrite Hsz. simpl. lia.
      * destruct (index_Read_last i (e0 :: es') Hi Hmax) as (e & _ & HOk);
          [discriminate|]. congruence.
    + intros [E|E]; [|lia].
      unfold index_Read. rewrite E. reflexivity.
  - split.
    + intros HR.
      destruct (Z_lt_ge_dec n (Z.of_nat (length es))) as [Hlt|Hge]; [|lia].
      destruct (lookup_lt_is_Some_2 es (Z.to_nat n)) as [e He]; [lia|].
      rewrite (index_Read_nth i es n e Hi) in HR by (auto; lia).
      discriminate.
    + intros HE. unfold index_Read.
      destruct (Z.eqb_spec (index_size i) 0) as [E|Hnz]; [reflexivity|].
      destruct HE as [E|E]; [contradiction|].
      destruct (Z.eqb_spec n (-1)) as [E'|_]; [lia|].
      rewrite uint32_small by lia.
      destruct (read_position_range n) as (E1 & _ & E3); [lia|].
      rewrite E1, E3.
      destruct (Z.ltb_spec (index_size i) (n * entWidth + entWidth));
        [reflexivity|lia].
Qed.

(** C8, amended. For an index whose first [size] bytes hold at most [2^32]
    entries: [Read(-1)] returns the entry at index [size/entWidth - 1];
    [Read(n)] with [0 <= n < 2^32] returns the entry at index [n]; and for
    [-1 <= n < 2^32], [Read(n)] fails with [EOF] exactly when [size = 0] or
    [size < (n+1) * entWidth]. *)
Theorem index_Read_entries (i : index) (es : list (Z * Z)) :
  index_holds i es ->
  Z.of_nat (length es) <= 2 ^ 32 ->
  (es <> [] ->
   exists e, es !! Z.to_nat (index_size i / entWidth - 1) = Some e
             /\ index_Read i (-1) = Ok e)
  /\ (forall n e, 0 <= n < 2 ^ 32 ->
        es !! Z.to_nat n = Some e -> index_Read i n = Ok e)
  /\ (forall n, -1 <= n < 2 ^ 32 ->
        (index_Read i n = Err EOF
         <-> index_size i = 0 \/ index_size i < (n + 1) * entWidth)).
Proof.
  intros Hi Hmax. repeat split.
  - intros Hne. apply (index_Read_last i es Hi Hmax Hne).
  - intros n e Hn He. apply (index_Read_nth i es n e Hi Hn He).
  - apply (index_Read_EOF i es n Hi Hmax); assumption.
  - apply (index_Read_EOF i es n Hi Hmax); assumption.
Qed.

Lemma example_index_holds : index_holds example_index [(7, 1234)].
Proof.
  split; [reflexivity|]. split.
  - exists (repeat x00 24). reflexivity.
  - repeat constructor; unfold is_uint32, is_uint64; simpl; lia.
Qed.

Lemma index_Read_entries_witness :
  index_Read example_index (-1) = Ok (7, 1234)
  /\ index_Read example_index 0 = Ok (7, 1234)
  /\ (index_Read example_index 1 = Err EOF
      <-> index_size example_index = 0
          \/ index_size example_index < (1 + 1) * entWidth).
Proof.
  destruct (index_Read_entries example_index [(7, 1234)] example_index_holds)
    as (Hlast & Hnth & Heof); [simpl; lia|].
  split; [|split].
  - destruct Hlast as (e & He & HR); [discriminate|].
    vm_compute in He. inversion He; subst e. exact HR.
  - apply Hnth; [lia|reflexivity].
  - apply Heof. lia.
Defined.

(** C8 as stated fails beyond [2^32]: the input is converted to [uint32], so
    [Read(2^32)] on a one-entry index returns entry 0 although entry [2^32]
    lies beyond [size]. *)
Lemma index_Read_beyond_uint32 :
  ~ (forall (i : index) (es : list (Z * Z)) (n : Z),
       index_holds i es -> 0 <= n ->
       (index_Read i n = Err EOF
        <-> index_size i = 0 \/ index_size i < (n + 1) * entWidth)).
Proof.
  intros H.
  destruct (H example_index [(7, 1234)] (2 ^ 32) example_index_holds)
    as [_ Hback]; [lia|].
  assert (HR : index_Read example_index (2 ^ 32) = Err EOF).
  { apply Hback. right. vm_compute. reflexivity. }
  vm_compute in HR. discriminate.
Qed.

(** ** The highest and lowest offsets *)

Lemma last_lookup_Z {A} (l : list A) :
  (if Z.of_nat (length l) - 1 <? 0 then None
   else l !! Z.to_nat (Z.of_nat (length l) - 1)) = last l.
Proof.
  rewrite last_lookup. destruct l as [|a l].
  - reflexivity.
  - destruct (Z.ltb_spec (Z.of_nat (length (a :: l)) - 1) 0) as [H|H];
      [simpl in H; lia|].
    f_equal. simpl. lia.
Qed.

Lemma Log_HighestOffset_tail (l : Log) (s : segment) :
  tail_segment l s ->
  Log_HighestOffset l
  = if nextOffset s =? 0 then Ok 0 else Ok (wrap64 (nextOffset s - 1)).
Proof.
  intros (p & Hp & Hs). unfold Log_HighestOffset. cbv zeta.
  rewrite last_lookup_Z, Hp. cbn [must bind]. rewrite Hs. reflexivity.
Qed.

(** C6, amended. On a log with a non-empty segment list, [HighestOffset]
    returns the tail's next offset minus 1 when that next offset is
    positive, and 0 when it is 0. *)
Theorem Log_HighestOffset_spec (l : Log) (s : segment) :
  tail_segment l s ->
  is_uint64 (nextOffset s) ->
  (0 < nextOffset s -> Log_HighestOffset l = Ok (nextOffset s - 1))
  /\ (nextOffset s = 0 -> Log_HighestOffset l = Ok 0).
Proof.
  intros Ht Hu. rewrite (Log_HighestOffset_tail l s Ht). split.
  - intros Hpos. destruct (Z.eqb_spec (nextOffset s) 0); [lia|].
    rewrite wrap64_small by (unfold is_uint64 in Hu; lia). reflexivity.
  - intros ->. reflexivity.
Qed.

Lemma fresh_log_16_tail :
  exists s, tail_segment fresh_log_16 s /\ segment_empty s
            /\ nextOffset s = 16.
Proof.
  eexists. split; [|split].
  - exists 0%nat. split; reflexivity.
  - reflexivity.
  - reflexivity.
Qed.

Lemma Log_HighestOffset_spec_witness :
  Log_HighestOffset fresh_log_16 = Ok 15.
Proof.
  destruct fresh_log_16_tail as (s & Ht & _ & Hn).
  destruct (Log_HighestOffset_spec fresh_log_16 s Ht) as [Hpos _].
  - rewrite Hn. unfold is_uint64. lia.
  - rewrite Hpos by lia. rewrite Hn. reflexivity.
Defined.

(** C6 as stated fails: a log whose only segment starts at offset 16 and
    holds no record has highest offset 15, not 0. *)
Lemma Log_HighestOffset_empty_tail :
  ~ (forall (l : Log) (s : segment),
       tail_segment l s -> segment_empty s -> Log_HighestOffset l = Ok 0).
Proof.
  intros H. destruct fresh_log_16_tail as (s & Ht & He & _).
  specialize (H fresh_log_16 s Ht He). vm_compute in H. discriminate.
Qed.

(** ** Truncation *)

Lemma segment_Remove_eq (s : segment) :
  segment_Remove s
  = (set_removed (set_store s (store_flush (segment_store s))), Ok tt).
Proof. reflexivity. Qed.

Lemma segment_Remove_idem (s : segment) :
  fst (segment_Remove (fst (segment_Remove s))) = fst (segment_Remove s).
Proof.
  rewrite !segment_Remove_eq. cbn [fst]. unfold set_removed, set_store.
  cbn. unfold store_flush. cbn. rewrite app_nil_r. reflexivity.
Qed.

Lemma segment_Remove_offsets (s : segment) :
  nextOffset (fst (segment_Remove s)) = nextOffset s
  /\ baseOffset (fst (segment_Remove s)) = baseOffset s
  /\ segment_removed (fst (segment_Remove s)) = true.
Proof. rewrite segment_Remove_eq. auto. Qed.

Lemma fmap_insert_same {A B} (f : A -> B) (h : list A) (p : nat) (s s' : A) :
  h !! p = Some s -> f s' = f s -> f <$> <[p := s']> h = f <$> h.
Proof.
  intros Hp Hf. rewrite list_fmap_insert, Hf.
  apply list_insert_id. rewrite list_lookup_fmap, Hp. reflexivity.
Qed.

Lemma after_Truncate_cons_ne (p : nat) (ptrs : list nat) (lowest : Z)
    (q : nat) (s : segment) :
  q <> p ->
  after_Truncate (p :: ptrs) lowest q s = after_Truncate ptrs lowest q s.
Proof.
  intros Hne. unfold after_Truncate.
  rewrite (bool_decide_ext (q ∈ p :: ptrs) (q ∈ ptrs)); [reflexivity|].
  rewrite elem_of_cons. intuition congruence.
Qed.

(** The loop of [Truncate] retains, in order, the pointers whose segment is
    not dropped; it changes the heap only at dropped segments, which it
    removes. *)
Lemma Log_Truncate_loop_spec (lowest : Z) (ptrs : list nat) :
  forall (h : list segment) (kept : list nat),
    Forall (fun p => (p < length h)%nat) ptrs ->
    exists h',
      Log_Truncate_loop h ptrs kept lowest
      = (h', Ok (kept ++ List.filter (retained (nextOffset <$> h) lowest) ptrs))
      /\ length h' = length h
      /\ nextOffset <$> h' = nextOffset <$> h
      /\ baseOffset <$> h' = baseOffset <$> h
      /\ (forall q s, h !! q = Some s ->
            h' !! q = Some (after_Truncate ptrs lowest q s)).
Proof.
  induction ptrs as [|p ptrs IH]; intros h kept Hok.
  - exists h. cbn. rewrite app_nil_r. repeat split; auto.
  - apply Forall_cons in Hok as [Hp Hok].
    destruct (lookup_lt_is_Some_2 h p Hp) as [s Hs].
    cbn [Log_Truncate_loop List.filter]. rewrite Hs.
    unfold retained at 1. rewrite list_lookup_fmap, Hs.
    cbn [fmap option_fmap option_map].
    destruct (nextOffset s <=? wrap64 (lowest + 1)) eqn:Hd; cbn [negb].
    + rewrite segment_Remove_eq.
      set (s' := set_removed (set_store s (store_flush (segment_store s)))).
      assert (Hs' : s' = fst (segment_Remove s)) by reflexivity.
      destruct (IH (<[p := s']> h) kept) as (h' & HL & Hlen & Hn & Hb & Hq).
      { rewrite length_insert. exact Hok. }
      rewrite (fmap_insert_same nextOffset h p s s' Hs eq_refl) in HL, Hn.
      rewrite (fmap_insert_same baseOffset h p s s' Hs eq_refl) in Hb.
      rewrite length_insert in Hlen.
      exists h'. repeat split; auto.
      intros q sq Hsq. unfold after_Truncate.
      destruct (decide (q = p)) as [->|Hne].
      * assert (sq = s) by congruence. subst sq.
        rewrite (Hq p s') by (apply list_lookup_insert_eq; exact Hp).
        rewrite bool_decide_eq_true_2 by left.
        assert (Hds : dropped lowest s = true) by exact Hd.
        rewrite Hds. cbn [andb].
        unfold after_Truncate.
        destruct (bool_decide (p ∈ ptrs) && dropped lowest s');
          rewrite Hs', ?segment_Remove_idem; reflexivity.
      * rewrite (Hq q sq)
          by (rewrite list_lookup_insert_ne by congruence; exact Hsq).
        fold (after_Truncate (p :: ptrs) lowest q sq).
        rewrite after_Truncate_cons_ne by exact Hne. reflexivity.
    + destruct (IH h (kept ++ [p])) as (h' & HL & Hlen & Hn & Hb & Hq);
        [exact Hok|].
      exists h'. rewrite <- app_assoc in HL. repeat split; auto.
      intros q sq Hsq. rewrite (Hq q sq Hsq). unfold after_Truncate.
      destruct (decide (q = p)) as [->|Hne].
      * assert (sq = s) by congruence. subst sq.
        unfold dropped. rewrite Hd, !andb_false_r. reflexivity.
      * fold (after_Truncate ptrs lowest q sq).
        fold (after_Truncate (p :: ptrs) lowest q sq).
        rewrite after_Truncate_cons_ne by exact Hne. reflexivity.
Qed.

Lemma retained_dropped (h : list segment) (lowest : Z) (p : nat) (s : segment) :
  h !! p = Some s ->
  retained (nextOffset <$> h) lowest p = negb (dropped lowest s).
Proof.
  intros Hs. unfold retained, dropped. rewrite list_lookup_fmap, Hs.
  reflexivity.
Qed.

Lemma Log_Truncate_run (l : Log) (lowest : Z) :
  heap_ok l ->
  exists h',
    Log_Truncate l lowest
    = ({| Log_Config := Log_Config l; activeSegment := activeSegment l;
          segments := List.filter (retained (nextOffset <$> heap l) lowest)
                        (segments l);
          heap := h' |}, Ok tt)
    /\ length h' = length (heap l)
    /\ nextOffset <$> h' = nextOffset <$> heap l
    /\ baseOffset <$> h' = baseOffset <$> heap l
    /\ (forall q s, heap l !! q = Some s ->
          h' !! q = Some (after_Truncate (segments l) lowest q s)).
Proof.
  intros Hok.
  destruct (Log_Truncate_loop_spec lowest (segments l) (heap l) [] Hok)
    as (h' & HL & Hrest).
  exists h'. split; [|exact Hrest].
  unfold Log_Truncate. rewrite HL. reflexivity.
Qed.

Lemma Log_Truncate_each (l : Log) (lowest : Z) :
  heap_ok l ->
  exists l',
    Log_Truncate l lowest = (l', Ok tt)
    /\ segments l'
       = List.filter (retained (nextOffset <$> heap l) lowest) (segments l)
    /\ (forall p s, segment_at l p s ->
          if dropped lowest s
          then ((p ∉ segments l')
                /\ heap l' !! p = Some (fst (segment_Remove s)))
          else ((p ∈ segments l') /\ heap l' !! p = Some s)).
Proof.
  intros Hok.
  destruct (Log_Truncate_run l lowest Hok) as (h' & HT & _ & _ & _ & Hq).
  eexists. split; [exact HT|]. cbn [segments heap]. split; [reflexivity|].
  intros p s [Hin Hs].
  pose proof (retained_dropped (heap l) lowest p s Hs) as Hr.
  rewrite (Hq p s Hs). unfold after_Truncate.
  rewrite bool_decide_eq_true_2 by exact Hin. cbn [andb].
  destruct (dropped lowest s) eqn:Hd; cbn [negb] in Hr.
  - split; [|reflexivity].
    rewrite list_elem_of_In, filter_In. intros [_ Hc]. congruence.
  - split; [|reflexivity].
    rewrite list_elem_of_In, filter_In. split; [|exact Hr].
    apply list_elem_of_In. exact Hin.
Qed.

(** C4, amended. [Truncate(lowest)] succeeds, removes exactly the segments
    whose next offset is at most [lowest + 1] as the code computes it, on
    [uint64], and retains the others, in order and as they were. Below the
    largest offset that sum is [lowest + 1]; at [lowest = 2^64 - 1] it is 0,
    and only a segment whose next offset is 0 is removed. *)
Theorem Log_Truncate_spec (l : Log) (lowest : Z) :
  heap_ok l ->
  exists l',
    Log_Truncate l lowest = (l', Ok tt)
    /\ segments l'
       = List.filter (retained (nextOffset <$> heap l) lowest) (segments l)
    /\ (forall p s, segment_at l p s ->
          if dropped lowest s
          then ((p ∉ segments l')
                /\ heap l' !! p = Some (fst (segment_Remove s)))
          else ((p ∈ segments l') /\ heap l' !! p = Some s))
    /\ (0 <= lowest < 2 ^ 64 - 1 ->
        forall s, dropped lowest s = (nextOffset s <=? lowest + 1))
    /\ (lowest = 2 ^ 64 - 1 ->
        forall s, dropped lowest s = (nextOffset s <=? 0)).
Proof.
  intros Hok.
  destruct (Log_Truncate_each l lowest Hok) as (l' & HT & Hseg & Hall).
  exists l'. split; [exact HT|]. split; [exact Hseg|]. split; [exact Hall|].
  split.
  - intros Hl s. unfold dropped. rewrite wrap64_small by lia. reflexivity.
  - intros -> s. reflexivity.
Qed.

Lemma three_segment_log_ok : heap_ok three_segment_log.
Proof. repeat constructor. Qed.

Lemma Log_Truncate_spec_witness :
  Log_Truncate three_segment_log 14
  = ({| Log_Config := Log_Config three_segment_log;
        activeSegment := Some 2%nat;
        segments := [1%nat; 2%nat];
        heap := [fst (segment_Remove (bare_segment 0 10));
                 bare_segment 10 20; bare_segment 20 30] |}, Ok tt)
  /\ dropped 14 (bare_segment 0 10) = true
  /\ dropped 14 (bare_segment 10 20) = false.
Proof.
  destruct (Log_Truncate_spec three_segment_log 14 three_segment_log_ok)
    as (l' & HT & Hseg & _ & Hd & _).
  split; [|split].
  - vm_compute. reflexivity.
  - rewrite Hd by lia. reflexivity.
  - rewrite Hd by lia. reflexivity.
Defined.

(** C4 as stated fails at the largest argument: in [Truncate(2^64 - 1)] the
    sum [lowest + 1] is 0 on [uint64], and the three segments with next
    offsets 10, 20 and 30, all at most [lowest + 1], stay in the list. *)
Lemma Log_Truncate_wraps :
  ~ (forall (l : Log) (lowest : Z) (p : nat) (s : segment),
       heap_ok l -> is_uint64 lowest -> segment_at l p s ->
       nextOffset s <= lowest + 1 ->
       p ∉ segments (fst (Log_Truncate l lowest))).
Proof.
  intros H.
  apply (H three_segment_log (2 ^ 64 - 1) 0%nat (bare_segment 0 10)
           three_segment_log_ok).
  - unfold is_uint64. lia.
  - split; [left|reflexivity].
  - cbn. lia.
  - vm_compute. left.
Qed.

(** ** Truncation and the active segment *)

Lemma filter_nil_iff {A} (f : A -> bool) (l : list A) :
  List.filter f l = [] <-> (forall x, x ∈ l -> f x = false).
Proof.
  induction l as [|a l IH]; cbn [List.filter].
  - split; [intros _ x Hx; inversion Hx|reflexivity].
  - destruct (f a) eqn:Ha.
    + split; [discriminate|]. intros H.
      rewrite (H a) in Ha by left. discriminate.
    + rewrite IH. split.
      * intros H x Hx. apply elem_of_cons in Hx as [->|Hx]; auto.
      * intros H x Hx. apply H. right. exact Hx.
Qed.

(** C5, amended. [Truncate(lowest)] keeps the active segment in the list
    exactly when its next offset exceeds [lowest + 1] as the code computes
    it, on [uint64]: [lowest + 1] below the largest offset, and 0 at
    [lowest = 2^64 - 1]. Otherwise it removes the active segment, like any
    other. *)
Theorem Log_Truncate_active (l : Log) (lowest : Z) (a : nat) (s : segment) :
  heap_ok l ->
  activeSegment l = Some a ->
  segment_at l a s ->
  (a ∈ segments (fst (Log_Truncate l lowest))
   <-> wrap64 (lowest + 1) < nextOffset s)
  /\ (nextOffset s <= wrap64 (lowest + 1) ->
      exists s', heap (fst (Log_Truncate l lowest)) !! a = Some s'
                 /\ segment_removed s' = true)
  /\ (0 <= lowest < 2 ^ 64 - 1 ->
      (a ∈ segments (fst (Log_Truncate l lowest))
       <-> lowest + 1 < nextOffset s))
  /\ (lowest = 2 ^ 64 - 1 ->
      (a ∈ segments (fst (Log_Truncate l lowest)) <-> 0 < nextOffset s)).
Proof.
  intros Hok _ Hat.
  destruct (Log_Truncate_each l lowest Hok) as (l' & HT & _ & Hall).
  specialize (Hall a s Hat). rewrite HT. cbn [fst].
  unfold dropped in Hall.
  assert (Hiff : a ∈ segments l' <-> wrap64 (lowest + 1) < nextOffset s).
  { destruct (Z.leb_spec (nextOffset s) (wrap64 (lowest + 1))) as [Hle|Hgt].
    - destruct Hall as [Hnotin _]. split; [contradiction|lia].
    - destruct Hall as [Hin _]. split; auto. }
  split; [exact Hiff|]. split; [|split].
  - intros Hle.
    destruct (Z.leb_spec (nextOffset s) (wrap64 (lowest + 1))) as [_|Hgt];
      [|lia].
    destruct Hall as [_ Hheap]. eexists. split; [exact Hheap|].
    apply segment_Remove_offsets.
  - intros Hl. rewrite wrap64_small in Hiff by lia. exact Hiff.
  - intros ->. exact Hiff.
Qed.

Lemma fresh_log_ok : heap_ok fresh_log.
Proof. repeat constructor. Qed.

Lemma Log_Truncate_active_witness :
  ~ (0%nat ∈ segments (fst (Log_Truncate fresh_log 0))).
Proof.
  destruct (Log_Truncate_active fresh_log 0 0%nat
              (bare_segment 0 0) fresh_log_ok) as [Hiff _].
  - reflexivity.
  - split; [left|reflexivity].
  - intros Hin. apply Hiff in Hin. vm_compute in Hin. discriminate.
Defined.

(** C5 as stated fails: on a fresh log, and on a log holding the single
    record 0, [Truncate(0)] removes the active segment. *)
Lemma Log_Truncate_removes_active :
  ~ Truncate_keeps_active fresh_log 0
  /\ ~ Truncate_keeps_active one_record_log 0.
Proof.
  split; intros H.
  - specialize (H 0%nat eq_refl). vm_compute in H.
    assert (Hin : 0%nat ∈ [0%nat]) by left.
    specialize (H Hin). inversion H.
  - specialize (H 0%nat eq_refl). vm_compute in H.
    assert (Hin : 0%nat ∈ [0%nat]) by left.
    specialize (H Hin). inversion H.
Qed.

(** ** Offsets of a log without segments *)

Lemma Log_offsets_no_segment (l : Log) :
  segments l = [] ->
  Log_LowestOffset l = Panic /\ Log_HighestOffset l = Panic.
Proof.
  intros E. unfold Log_LowestOffset, Log_HighestOffset. rewrite E.
  split; reflexivity.
Qed.

Lemma Log_offsets_some_segment (l : Log) :
  heap_ok l -> segments l <> [] ->
  exists lo hi, Log_LowestOffset l = Ok lo /\ Log_HighestOffset l = Ok hi.
Proof.
  intros Hok Hne.
  destruct (segments l) as [|p ps] eqn:E; [congruence|].
  assert (Hp : (p < length (heap l))%nat).
  { unfold heap_ok in Hok. rewrite E in Hok. apply Forall_cons in Hok as [H _].
    exact H. }
  destruct (lookup_lt_is_Some_2 _ _ Hp) as [s Hs].
  assert (Hlast : exists q, last (segments l) = Some q).
  { rewrite E. destruct (last (p :: ps)) eqn:El; [eauto|].
    apply last_None in El. discriminate. }
  destruct Hlast as [q Hq].
  assert (Hqin : q ∈ segments l).
  { rewrite last_lookup in Hq. eapply list_elem_of_lookup_2. exact Hq. }
  assert (Hqlt : (q < length (heap l))%nat).
  { unfold heap_ok in Hok. rewrite Forall_forall in Hok. apply Hok.
    exact Hqin. }
  destruct (lookup_lt_is_Some_2 _ _ Hqlt) as [t Ht].
  exists (baseOffset s).
  exists (if nextOffset t =? 0 then 0 else wrap64 (nextOffset t - 1)).
  split.
  - unfold Log_LowestOffset. rewrite E. cbn [lookup list_lookup must bind].
    rewrite Hs. reflexivity.
  - rewrite (Log_HighestOffset_tail l t) by (exists q; auto).
    destruct (nextOffset t =? 0); reflexivity.
Qed.

Lemma Log_Truncate_empties (l : Log) (lowest : Z) :
  heap_ok l ->
  segments (fst (Log_Truncate l lowest)) = []
  <-> (forall p s, segment_at l p s -> nextOffset s <= wrap64 (lowest + 1)).
Proof.
  intros Hok.
  destruct (Log_Truncate_run l lowest Hok) as (h' & HT & _).
  rewrite HT. cbn [fst segments]. rewrite filter_nil_iff. split.
  - intros H p s [Hin Hs]. specialize (H p Hin).
    rewrite (retained_dropped _ _ _ _ Hs) in H. unfold dropped in H.
    destruct (Z.leb_spec (nextOffset s) (wrap64 (lowest + 1)));
      [assumption|discriminate].
  - intros H p Hin.
    assert (Hp : (p < length (heap l))%nat).
    { unfold heap_ok in Hok. rewrite Forall_forall in Hok. auto. }
    destruct (lookup_lt_is_Some_2 _ _ Hp) as [s Hs].
    rewrite (retained_dropped _ _ _ _ Hs). unfold dropped.
    specialize (H p s (conj Hin Hs)).
    destruct (Z.leb_spec (nextOffset s) (wrap64 (lowest + 1)));
      [reflexivity|lia].
Qed.

(** C10. [Truncate] leaves the segment list empty exactly when every
    segment (the active one included) has a next offset of at most
    [lowest + 1], as on a fresh log truncated at 0; [LowestOffset] and
    [HighestOffset] panic on an empty segment list, and return an offset on
    a non-empty one. *)
Theorem Log_offsets_need_segments :
  (segments fresh_log <> []
   /\ Log_Truncate fresh_log 0
      = ({| Log_Config := Log_Config fresh_log; activeSegment := Some 0%nat;
            segments := [];
            heap := [fst (segment_Remove (bare_segment 0 0))] |}, Ok tt))
  /\ (forall l lowest, heap_ok l ->
        (segments (fst (Log_Truncate l lowest)) = []
         <-> (forall p s, segment_at l p s ->
                nextOffset s <= wrap64 (lowest + 1))))
  /\ (forall l, segments l = [] ->
        Log_LowestOffset l = Panic /\ Log_HighestOffset l = Panic)
  /\ (forall l, heap_ok l -> segments l <> [] ->
        exists lo hi,
          Log_LowestOffset l = Ok lo /\ Log_HighestOffset l = Ok hi).
Proof.
  split; [|split; [|split]].
  - split; [discriminate|]. vm_compute. reflexivity.
  - apply Log_Truncate_empties.
  - apply Log_offsets_no_segment.
  - apply Log_offsets_some_segment.
Qed.

Lemma Log_offsets_need_segments_witness :
  Log_LowestOffset (fst (Log_Truncate fresh_log 0)) = Panic
  /\ Log_HighestOffset (fst (Log_Truncate fresh_log 0)) = Panic
  /\ (exists lo hi, Log_LowestOffset fresh_log = Ok lo
                    /\ Log_HighestOffset fresh_log = Ok hi).
Proof.
  destruct Log_offsets_need_segments as ((_ & HT) & _ & Hpanic & Hok).
  rewrite HT. cbn [fst].
  destruct (Hpanic (fst (Log_Truncate fresh_log 0))) as [H1 H2].
  - rewrite HT. reflexivity.
  - rewrite HT in H1, H2. cbn [fst] in H1, H2. split; [exact H1|].
    split; [exact H2|].
    apply Hok; [apply fresh_log_ok|discriminate].
Defined.

(** ** Reading an offset no segment holds *)

Lemma heap_ok_listed (l : Log) :
  heap_ok l -> exists ss, listed l ss.
Proof.
  unfold heap_ok, listed. induction (segments l) as [|p ps IH]; intros Hok.
  - exists []. constructor.
  - apply Forall_cons in Hok as [Hp Hok].
    destruct (IH Hok) as [ss Hss].
    destruct (lookup_lt_is_Some_2 _ _ Hp) as [s Hs].
    exists (s :: ss). constructor; assumption.
Qed.

Lemma listed_elem (l : Log) ss s :
  listed l ss -> s ∈ ss -> exists p, segment_at l p s.
Proof.
  unfold listed, segment_at. intros HF Hin.
  apply list_elem_of_lookup in Hin as [i Hi].
  destruct (Forall2_lookup_r _ _ _ _ _ HF Hi) as (p & Hp & Hs).
  exists p. split; [|exact Hs]. eapply list_elem_of_lookup_2. exact Hp.
Qed.

Lemma listed_segment_at (l : Log) ss p s :
  listed l ss -> segment_at l p s -> s ∈ ss.
Proof.
  unfold listed, segment_at. intros HF [Hin Hs].
  apply list_elem_of_lookup in Hin as [i Hi].
  destruct (Forall2_lookup_l _ _ _ _ _ HF Hi) as (t & Ht & Hpt).
  assert (t = s) by congruence. subst t.
  eapply list_elem_of_lookup_2. exact Ht.
Qed.

(** The loop of [Read] finds no segment exactly when no listed segment holds
    the offset; a segment it finds is listed and holds it. *)
Lemma Log_Read_find_spec (h : list segment) (off : Z) (ptrs : list nat) ss :
  Forall2 (fun p s => h !! p = Some s) ptrs ss ->
  (Log_Read_find h ptrs off = Ok None /\ (forall s, s ∈ ss -> ~ in_range s off))
  \/ (exists p s, Log_Read_find h ptrs off = Ok (Some p)
                  /\ p ∈ ptrs /\ h !! p = Some s /\ in_range s off).
Proof.
  induction 1 as [|p s ptrs ss Hs HF IH]; cbn [Log_Read_find].
  - left. split; [reflexivity|]. intros s Hin. inversion Hin.
  - rewrite Hs. cbn [must bind].
    destruct ((baseOffset s <=? off) && (off <? nextOffset s)) eqn:Hb.
    + apply andb_true_iff in Hb as [H1 H2].
      apply Z.leb_le in H1. apply Z.ltb_lt in H2.
      right. exists p, s. split; [reflexivity|]. split; [left|].
      split; [exact Hs|]. split; assumption.
    + assert (Hout : ~ in_range s off).
      { intros [H1 H2]. apply Z.leb_le in H1. apply Z.ltb_lt in H2.
        rewrite H1, H2 in Hb. discriminate. }
      destruct IH as [[E Hnone]|(q & t & E & Hin & Ht & Hr)].
      * left. split; [exact E|]. intros t Ht.
        apply elem_of_cons in Ht as [->|Ht]; auto.
      * right. exists q, t. split; [exact E|]. split; [right; exact Hin|].
        split; assumption.
Qed.

Lemma index_Read_Err (i : index) (n : Z) (e : error) :
  index_Read i n = Err e -> e = EOF.
Proof.
  unfold index_Read.
  destruct (index_size i =? 0); [congruence|]. cbv zeta.
  match goal with |- context [if ?c then Err EOF else _] => destruct c end;
    [congruence|].
  intros H.
  repeat match type of H with
         | context [must ?o] => destruct o; cbn [must bind] in H
         end; discriminate.
Qed.

(** A segment never answers that the offset is out of range. *)
Lemma segment_Read_not_out_of_range `{Codec} (s : segment) (off o : Z) :
  snd (segment_Read s off) <> Err (ErrOffsetOutOfRange o).
Proof.
  unfold segment_Read.
  destruct (index_Read (segment_index s) (int64 (wrap64 (off - baseOffset s))))
    as [[out pos]|e|] eqn:E; cbn [snd].
  - unfold store_Read. cbn [snd].
    unfold ReadAt.
    repeat match goal with
           | |- context [slice ?a ?b ?c] => destruct (slice a b c); cbn [bind]
           | |- context [must ?x] => destruct x; cbn [must bind]
           | |- context [unmarshal ?x] => destruct (unmarshal x)
           end; discriminate.
  - apply index_Read_Err in E. subst e. discriminate.
  - discriminate.
Qed.

Lemma contiguous_next_le_last ss s t :
  contiguous ss -> s ∈ ss -> last ss = Some t ->
  nextOffset s <= nextOffset t.
Proof.
  revert s. induction ss as [|u ss IH]; intros s Hc Hin Hlast;
    [inversion Hin|].
  destruct Hc as (Hu & Hadj & Hrest).
  destruct ss as [|v ss'].
  - apply elem_of_cons in Hin as [->|Hin]; [|inversion Hin].
    cbn in Hlast. inversion Hlast. lia.
  - change (last (u :: v :: ss')) with (last (v :: ss')) in Hlast.
    assert (Hv : nextOffset v <= nextOffset t) by (apply IH; auto; left).
    pose proof Hrest as (Hvle & _).
    apply elem_of_cons in Hin as [->|Hin].
    + lia.
    + apply IH; auto.
Qed.

Lemma Log_Read_none (l : Log) `{Codec} (off : Z) ss :
  listed l ss ->
  (forall s, s ∈ ss -> ~ in_range s off) ->
  Log_Read l off = (l, Err (ErrOffsetOutOfRange off)).
Proof.
  intros Hl Hnone. unfold Log_Read.
  destruct (Log_Read_find_spec (heap l) off (segments l) ss Hl)
    as [[E _]|(p & s & _ & Hin & Hs & Hr)].
  - rewrite E. reflexivity.
  - exfalso. apply (Hnone s); [|exact Hr].
    apply (listed_segment_at l ss p s Hl). split; assumption.
Qed.

Lemma Log_Read_out_of_range_inv (l l' : Log) `{Codec} (off o : Z) ss :
  listed l ss ->
  Log_Read l off = (l', Err (ErrOffsetOutOfRange o)) ->
  l' = l /\ o = off /\ (forall s, s ∈ ss -> ~ in_range s off).
Proof.
  intros Hl HR. unfold Log_Read in HR.
  destruct (Log_Read_find_spec (heap l) off (segments l) ss Hl)
    as [[E Hnone]|(p & s & E & Hin & Hs & Hr)]; rewrite E in HR.
  - inversion HR. subst. auto.
  - rewrite Hs in HR.
    pose proof (segment_Read_not_out_of_range s off o) as Hno.
    destruct (segment_Read s off) as [s' r]. cbn [snd] in Hno.
    inversion HR. congruence.
Qed.

(** C7, amended. [Read(off)] fails with the out-of-range error exactly
    when no listed segment holds [off] in its range; then the log is
    unchanged. It fails so on a log without segments and on a log whose
    segments are all empty; and, as long as the listed segments are
    contiguous with [uint64] offsets (no rotation has gone past the last
    offset), on every offset from [HighestOffset + 1] on. *)
Theorem Log_Read_out_of_range `{Codec} (l : Log) (off : Z) (ss : list segment) :
  listed l ss ->
  ((exists l', Log_Read l off = (l', Err (ErrOffsetOutOfRange off)))
   <-> ~ (exists s, s ∈ ss /\ in_range s off))
  /\ (forall l' o, Log_Read l off = (l', Err (ErrOffsetOutOfRange o)) ->
        l' = l /\ o = off)
  /\ (ss = [] -> Log_Read l off = (l, Err (ErrOffsetOutOfRange off)))
  /\ ((forall s, s ∈ ss -> segment_empty s) ->
      Log_Read l off = (l, Err (ErrOffsetOutOfRange off)))
  /\ (contiguous ss -> offsets_typed ss ->
      forall highest, Log_HighestOffset l = Ok highest ->
        highest + 1 <= off ->
        Log_Read l off = (l, Err (ErrOffsetOutOfRange off))).
Proof.
  intros Hl. split; [|split; [|split; [|split]]].
  - split.
    + intros [l' HR] (s & Hin & Hr).
      destruct (Log_Read_out_of_range_inv l l' off off ss Hl HR)
        as (_ & _ & Hnone).
      exact (Hnone s Hin Hr).
    + intros Hnone. exists l. apply (Log_Read_none l off ss Hl).
      intros s Hin Hr. apply Hnone. eauto.
  - intros l' o HR.
    destruct (Log_Read_out_of_range_inv l l' off o ss Hl HR) as (? & ? & _).
    auto.
  - intros ->. apply (Log_Read_none l off [] Hl). intros s Hin. inversion Hin.
  - intros Hempty. apply (Log_Read_none l off ss Hl).
    intros s Hin [H1 H2]. specialize (Hempty s Hin).
    unfold segment_empty in Hempty. lia.
  - intros Hc Hty highest Hhi Hoff. apply (Log_Read_none l off ss Hl).
    intros s Hin [H1 H2].
    destruct (last ss) as [t|] eqn:Hlast.
    + assert (Htail : tail_segment l t).
      { unfold tail_segment. unfold listed in Hl.
        rewrite last_lookup in Hlast.
        destruct (Forall2_lookup_r _ _ _ _ _ Hl Hlast) as (p & Hp & Hs).
        exists p. split; [|exact Hs].
        rewrite last_lookup.
        rewrite (Forall2_length _ _ _ Hl). exact Hp. }
      rewrite (Log_HighestOffset_tail l t Htail) in Hhi.
      pose proof (contiguous_next_le_last ss s t Hc Hin Hlast) as Hle.
      assert (Ht : is_uint64 (nextOffset t)).
      { unfold offsets_typed in Hty. rewrite Forall_forall in Hty.
        apply Hty. rewrite last_lookup in Hlast.
        eapply list_elem_of_lookup_2. exact Hlast. }
      unfold is_uint64 in Ht.
      destruct (Z.eqb_spec (nextOffset t) 0) as [E|E].
      * inversion Hhi. lia.
      * rewrite wrap64_small in Hhi by lia. inversion Hhi. lia.
    + apply last_None in Hlast. subst ss. inversion Hin.
Qed.

Lemma fresh_log_listed : listed fresh_log [bare_segment 0 0].
Proof. repeat constructor. Qed.



(** ** Appending to a segment and to the log *)

Lemma int64_nonneg (z : Z) : 0 <= z < 2 ^ 63 -> (int64 z <? 0) = false.
Proof. intros Hz. rewrite int64_small by exact Hz. apply Z.ltb_ge. lia. Qed.

Lemma int64_neg (z : Z) : 2 ^ 63 <= z < 2 ^ 64 -> (int64 z <? 0) = true.
Proof.
  intros Hz. apply Z.ltb_lt. unfold int64.
  replace (z + 2 ^ 63) with (z - 2 ^ 63 + 1 * 2 ^ 64) by lia.
  rewrite Z.mod_add by lia. rewrite Z.mod_small by lia. lia.
Qed.

Lemma newSegment_run (base : Z) (c : Config) :
  newSegment [] [] base c
  = if int64 (MaxIndexBytes c) <? 0 then Err IoError
    else Ok (fresh_segment base c).
Proof.
  unfold newSegment, newIndex.
  destruct (int64 (MaxIndexBytes c) <? 0); reflexivity.
Qed.


Lemma NewLog_empty (c : Config) :
  NewLog empty_directory c
  = Log_newSegment {| Log_Config := with_defaults c; activeSegment := None;
                      segments := []; heap := [] |}
      (InitialOffset (with_defaults c)).
Proof. reflexivity. Qed.

Lemma Log_newSegment_run (l : Log) (off : Z) :
  Log_newSegment l off
  = if int64 (MaxIndexBytes (Log_Config l)) <? 0 then (l, Err IoError)
    else (rotated l off, Ok tt).
Proof.
  unfold Log_newSegment, Log_newSegment_in. cbn [empty_directory dir_store dir_index].
  rewrite newSegment_run.
  destruct (int64 (MaxIndexBytes (Log_Config l)) <? 0); reflexivity.
Qed.

Lemma Log_newSegment_eq (l : Log) (off : Z) :
  0 <= MaxIndexBytes (Log_Config l) < 2 ^ 63 ->
  Log_newSegment l off = (rotated l off, Ok tt).
Proof.
  intros Hc. rewrite Log_newSegment_run, int64_nonneg by exact Hc. reflexivity.
Qed.

(** What [Append] does to a segment: on success the offset returned is the
    next offset, which is incremented; on failure the offsets stay. *)
Lemma segment_Append_offsets `{Codec} (s : segment) (r : api_Record) :
  baseOffset (fst (segment_Append s r)) = baseOffset s
  /\ segment_config (fst (segment_Append s r)) = segment_config s
  /\ match snd (segment_Append s r) with
     | Ok off =>
         off = nextOffset s
         /\ nextOffset (fst (segment_Append s r)) = wrap64 (nextOffset s + 1)
     | _ => nextOffset (fst (segment_Append s r)) = nextOffset s
     end.
Proof.
  unfold segment_Append, store_Append. cbn.
  destruct (index_Write _ _ _); cbn; auto.
Qed.

(** [Append] on the log, step by step. *)
Lemma Log_Append_run `{Codec} (l : Log) (r : api_Record) (a : nat)
    (s : segment) :
  activeSegment l = Some a ->
  heap l !! a = Some s ->
  Log_Append l r
  = let l1 := with_active l a (fst (segment_Append s r)) in
    match snd (segment_Append s r) with
    | Ok off =>
        if segment_IsMaxed (fst (segment_Append s r))
        then if int64 (MaxIndexBytes (Log_Config l)) <? 0
             then (l1, Some (off, Some IoError))
             else (rotated l1 (wrap64 (off + 1)), Some (off, None))
        else (l1, Some (off, None))
    | Err e => (l1, Some (0, Some e))
    | Panic => (l1, None)
    end.
Proof.
  intros Ha Hs. unfold Log_Append. rewrite Ha, Hs.
  destruct (segment_Append s r) as [s' res]. cbn [fst snd].
  destruct res as [off|e|]; try reflexivity.
  rewrite Log_newSegment_run. cbn [set_heap Log_Config]. unfold with_active.
  destruct (segment_IsMaxed s'); [|reflexivity].
  destruct (int64 (MaxIndexBytes (Log_Config l)) <? 0); reflexivity.
Qed.

Lemma Log_Append_success_inv `{Codec} (l l1 : Log) (r : api_Record) (o : Z) :
  Log_Append l r = (l1, Some (o, None)) ->
  exists a s,
    activeSegment l = Some a /\ heap l !! a = Some s
    /\ snd (segment_Append s r) = Ok o.
Proof.
  intros HA. unfold Log_Append in HA.
  destruct (activeSegment l) as [a|] eqn:Ha; [|discriminate].
  destruct (heap l !! a) as [s|] eqn:Hs; [|discriminate].
  exists a, s. split; [reflexivity|]. split; [exact Hs|].
  destruct (segment_Append s r) as [s' res]. cbn [snd].
  destruct res as [off|e|]; try discriminate.
  destruct (segment_IsMaxed s').
  - destruct (Log_newSegment _ _) as [l' [?|?|]]; inversion HA; reflexivity.
  - inversion HA. reflexivity.
Qed.

(** After a successful [Append] the active segment's next offset is the
    offset returned plus one, on [uint64]. *)
Lemma Log_Append_next `{Codec} (l l1 : Log) (r : api_Record) (o : Z) :
  Log_Append l r = (l1, Some (o, None)) ->
  exists a1 s1,
    activeSegment l1 = Some a1 /\ heap l1 !! a1 = Some s1
    /\ nextOffset s1 = wrap64 (o + 1).
Proof.
  intros HA.
  destruct (Log_Append_success_inv l l1 r o HA) as (a & s & Ha & Hs & Hres).
  rewrite (Log_Append_run l r a s Ha Hs) in HA. cbv zeta in HA.
  destruct (segment_Append_offsets s r) as (_ & _ & Hoff).
  rewrite Hres in HA, Hoff. destruct Hoff as [Ho Hnext].
  assert (Hlt : (a < length (heap l))%nat) by (eapply lookup_lt_Some; eauto).
  destruct (segment_IsMaxed (fst (segment_Append s r)));
    [destruct (int64 (MaxIndexBytes (Log_Config l)) <? 0);
       [discriminate HA|]|]; inversion HA; subst.
  - exists (length (<[a:=fst (segment_Append s r)]> (heap l))).
    exists (fresh_segment (wrap64 (nextOffset s + 1)) (Log_Config l)).
    cbn. split; [reflexivity|]. split; [|reflexivity].
    rewrite lookup_app_r by lia. rewrite Nat.sub_diag. reflexivity.
  - exists a, (fst (segment_Append s r)). cbn. split; [exact Ha|].
    split; [|exact Hnext].
    apply list_lookup_insert_eq. exact Hlt.
Qed.

(** C2, amended. Of two consecutive successful appends the second returns
    the offset of the first plus one on [uint64]: exactly one greater unless
    the first offset is [2^64 - 1], the last of the offset space. *)
Theorem Log_Append_consecutive `{Codec} (l l1 l2 : Log) (r1 r2 : api_Record)
    (o1 o2 : Z) :
  Log_Append l r1 = (l1, Some (o1, None)) ->
  Log_Append l1 r2 = (l2, Some (o2, None)) ->
  o2 = wrap64 (o1 + 1)
  /\ (0 <= o1 < 2 ^ 64 - 1 -> o2 = o1 + 1 /\ o1 < o2).
Proof.
  intros H1 H2.
  destruct (Log_Append_next l l1 r1 o1 H1) as (a1 & s1 & Ha1 & Hs1 & Hn1).
  destruct (Log_Append_success_inv l1 l2 r2 o2 H2)
    as (a & s & Ha & Hs & Hres).
  assert (a = a1) by congruence. subst a.
  assert (s = s1) by congruence. subst s.
  destruct (segment_Append_offsets s1 r2) as (_ & _ & Hoff).
  rewrite Hres in Hoff. destruct Hoff as [Ho _].
  assert (E : o2 = wrap64 (o1 + 1)) by congruence.
  split; [exact E|].
  intros Hr. rewrite wrap64_small in E by lia. lia.
Qed.

Lemma Log_Append_consecutive_witness :
  exists l1 l2,
    @Log_Append plain_codec fresh_log empty_record = (l1, Some (0, None))
    /\ @Log_Append plain_codec l1 empty_record = (l2, Some (1, None)).
Proof.
  eexists. eexists. split; [vm_compute; reflexivity|].
  match goal with
  | |- @Log_Append _ ?l1 _ = (?l2, _) =>
      pose proof (@Log_Append_consecutive plain_codec fresh_log l1
                    (fst (@Log_Append plain_codec l1 empty_record))
                    empty_record empty_record 0 1) as Hc
  end.
  destruct Hc as [_ Hc]; [vm_compute; reflexivity|vm_compute; reflexivity|].
  vm_compute. reflexivity.
Defined.

(** C2 as stated fails at the end of the offset space: on a log whose
    first segment starts at [2^64 - 1], the first append returns [2^64 - 1]
    and rotates to a segment at [off + 1], which is 0; the second append
    returns 0. *)
Lemma Log_Append_wraps :
  ~ (forall (l l1 l2 : Log) (r1 r2 : api_Record) (o1 o2 : Z),
       @Log_Append plain_codec l r1 = (l1, Some (o1, None)) ->
       @Log_Append plain_codec l1 r2 = (l2, Some (o2, None)) ->
       o2 = o1 + 1).
Proof.
  intros H.
  specialize (H last_offset_log
                (fst (@Log_Append plain_codec last_offset_log empty_record))
                (fst (@Log_Append plain_codec
                        (fst (@Log_Append plain_codec last_offset_log
                                empty_record)) empty_record))
                empty_record empty_record (2 ^ 64 - 1) 0).
  assert (E : 0 = 2 ^ 64 - 1 + 1);
    [apply H; vm_compute; reflexivity|discriminate].
Qed.

(** ** Contiguous segment lists are sorted, disjoint and without gaps *)




(** A segment ends before any later segment starts. *)
Lemma contiguous_before ss i j s t :
  contiguous ss -> (i < j)%nat -> ss !! i = Some s -> ss !! j = Some t ->
  nextOffset s <= baseOffset t.
Proof.
  revert i j s t. induction ss as [|u ss IH]; intros i j s t Hc Hij Hi Hj;
    [discriminate|].
  pose proof Hc as (_ & Hadj & Hrest).
  destruct j as [|j]; [lia|]. cbn in Hj.
  destruct i as [|i]; cbn in Hi.
  - inversion Hi; subst u.
    destruct ss as [|v ss]; [discriminate|].
    destruct j as [|j]; cbn in Hj.
    + inversion Hj; subst. lia.
    + pose proof (IH 0%nat (S j) v t Hrest ltac:(lia) eq_refl Hj) as H0.
      destruct Hrest as (Hv & _). lia.
  - apply (IH i j s t Hrest); auto. lia.
Qed.


Lemma contiguous_disjoint ss : contiguous ss -> ranges_disjoint ss.
Proof.
  intros Hc i j s t off Hne Hi Hj [[H1 H2] [H3 H4]].
  destruct (Nat.lt_total i j) as [Hlt|[Heq|Hgt]]; [|contradiction|].
  - pose proof (contiguous_before ss i j s t Hc Hlt Hi Hj). lia.
  - pose proof (contiguous_before ss j i t s Hc Hgt Hj Hi). lia.
Qed.


(** ** Pointers and the heap *)

Lemma deref_fmap {A B} (f : A -> B) (h : list A) (ptrs : list nat) :
  f <$> deref h ptrs = deref (f <$> h) ptrs.
Proof.
  induction ptrs as [|p ptrs IH]; [reflexivity|].
  cbn [deref]. rewrite list_lookup_fmap.
  destruct (h !! p); cbn; rewrite ?fmap_cons, IH; reflexivity.
Qed.

Lemma deref_app {A} (h : list A) (ps qs : list nat) :
  deref h (ps ++ qs) = deref h ps ++ deref h qs.
Proof.
  induction ps as [|p ps IH]; [reflexivity|].
  cbn [deref app]. destruct (h !! p); rewrite IH; reflexivity.
Qed.

Lemma deref_insert_notin {A} (h : list A) (ptrs : list nat) (p : nat) (s : A) :
  p ∉ ptrs -> deref (<[p := s]> h) ptrs = deref h ptrs.
Proof.
  induction ptrs as [|q ptrs IH]; intros Hni; [reflexivity|].
  apply not_elem_of_cons in Hni as [Hne Hni].
  cbn [deref]. rewrite list_lookup_insert_ne by congruence.
  rewrite IH by exact Hni. reflexivity.
Qed.

Lemma deref_app_heap {A} (h t : list A) (ptrs : list nat) :
  Forall (fun p => (p < length h)%nat) ptrs ->
  deref (h ++ t) ptrs = deref h ptrs.
Proof.
  induction 1 as [|p ptrs Hp _ IH]; [reflexivity|].
  cbn [deref]. rewrite lookup_app_l by exact Hp. rewrite IH. reflexivity.
Qed.

Lemma deref_listed {A} (h : list A) (ptrs : list nat) :
  Forall (fun p => (p < length h)%nat) ptrs ->
  Forall2 (fun p s => h !! p = Some s) ptrs (deref h ptrs).
Proof.
  induction 1 as [|p ptrs Hp _ IH]; [constructor|].
  cbn [deref]. destruct (lookup_lt_is_Some_2 _ _ Hp) as [s Hs].
  rewrite Hs. constructor; assumption.
Qed.

Lemma Log_segments_listed (l : Log) : heap_ok l -> listed l (Log_segments l).
Proof. apply deref_listed. Qed.

Lemma deref_filter (h : list segment) (ptrs : list nat) (lowest : Z) :
  deref h (List.filter (retained (nextOffset <$> h) lowest) ptrs)
  = List.filter (fun s => negb (dropped lowest s)) (deref h ptrs).
Proof.
  induction ptrs as [|p ptrs IH]; [reflexivity|].
  cbn [List.filter deref].
  destruct (h !! p) as [s|] eqn:Hs.
  - rewrite (retained_dropped h lowest p s Hs). cbn [List.filter].
    destruct (dropped lowest s); cbn [negb].
    + exact IH.
    + cbn [deref]. rewrite Hs, IH. reflexivity.
  - unfold retained at 1. rewrite list_lookup_fmap, Hs. exact IH.
Qed.

(** ** Contiguity under the changes a log makes *)

Lemma contiguous_same_offsets (ss ss' : list segment) :
  baseOffset <$> ss' = baseOffset <$> ss ->
  nextOffset <$> ss' = nextOffset <$> ss ->
  contiguous ss -> contiguous ss'.
Proof.
  revert ss'. induction ss as [|s ss IH]; intros ss' Hb Hn Hc.
  - destruct ss'; [exact I|discriminate].
  - destruct ss' as [|s' ss']; [discriminate|].
    rewrite !fmap_cons in Hb, Hn. inversion Hb. inversion Hn.
    destruct Hc as (Hs & Hadj & Hrest).
    split; [lia|]. split; [|apply IH; assumption].
    destruct ss as [|t ss], ss' as [|t' ss']; try discriminate; [exact I|].
    match goal with H : baseOffset <$> _ = baseOffset <$> _ |- _ =>
      rewrite !fmap_cons in H; inversion H end.
    lia.
Qed.

Lemma offsets_typed_same_offsets (ss ss' : list segment) :
  baseOffset <$> ss' = baseOffset <$> ss ->
  nextOffset <$> ss' = nextOffset <$> ss ->
  offsets_typed ss -> offsets_typed ss'.
Proof.
  unfold offsets_typed.
  revert ss'. induction ss as [|s ss IH]; intros ss' Hb Hn Hc.
  - destruct ss'; [constructor|discriminate].
  - destruct ss' as [|s' ss']; [discriminate|].
    rewrite !fmap_cons in Hb, Hn. inversion Hb. inversion Hn.
    apply Forall_cons in Hc as [Hs Hc].
    constructor; [|apply IH; assumption].
    match goal with H : baseOffset s' = _ |- _ => rewrite H end.
    match goal with H : nextOffset s' = _ |- _ => rewrite H end.
    exact Hs.
Qed.

Lemma contiguous_snoc (ss : list segment) (t : segment) :
  contiguous ss ->
  baseOffset t <= nextOffset t ->
  (forall u, last ss = Some u -> baseOffset t = nextOffset u) ->
  contiguous (ss ++ [t]).
Proof.
  induction ss as [|s ss IH]; intros Hc Ht Hlast.
  - cbn. auto.
  - destruct Hc as (Hs & Hadj & Hrest). cbn [app contiguous].
    split; [exact Hs|]. split.
    + destruct ss as [|v ss]; cbn [app].
      * apply Hlast. reflexivity.
      * exact Hadj.
    + apply IH; auto. intros u Hu. apply Hlast.
      destruct ss; [discriminate|exact Hu].
Qed.

Lemma contiguous_snoc_inv (ss : list segment) (t : segment) :
  contiguous (ss ++ [t]) ->
  contiguous ss /\ baseOffset t <= nextOffset t
  /\ (forall u, last ss = Some u -> baseOffset t = nextOffset u).
Proof.
  induction ss as [|s ss IH]; intros Hc.
  - cbn in Hc. destruct Hc as (Ht & _). repeat split; auto. discriminate.
  - cbn [app contiguous] in Hc. destruct Hc as (Hs & Hadj & Hrest).
    destruct (IH Hrest) as (Hc' & Ht & Hlast).
    split; [|split; [exact Ht|]].
    + cbn [contiguous]. split; [exact Hs|]. split; [|exact Hc'].
      destruct ss as [|v ss]; [exact I|exact Hadj].
    + intros u Hu. destruct ss as [|v ss].
      * cbn in Hu. inversion Hu; subst. exact Hadj.
      * apply Hlast. exact Hu.
Qed.

(** Dropping the segments that end at or before an offset leaves a suffix
    of a contiguous list. *)
Lemma contiguous_filter (ss : list segment) (lowest : Z) :
  contiguous ss ->
  let kept := List.filter (fun s => negb (dropped lowest s)) ss in
  contiguous kept /\ (kept = [] \/ last kept = last ss).
Proof.
  intros Hc. cbv zeta.
  induction ss as [|s ss IH]; [cbn; auto|].
  pose proof Hc as (Hs & Hadj & Hrest).
  cbn [List.filter]. destruct (dropped lowest s) eqn:Hd; cbn [negb].
  - destruct (IH Hrest) as [Hk Hl]. split; [exact Hk|].
    destruct Hl as [E|E]; [left; exact E|].
    destruct ss as [|v ss]; [left; reflexivity|right; exact E].
  - assert (Hall : List.filter (fun s => negb (dropped lowest s)) ss = ss).
    { clear IH. revert s Hc Hs Hadj Hrest Hd.
      induction ss as [|v ss IHs]; intros s Hc Hs Hadj Hrest Hd;
        [reflexivity|].
      pose proof Hrest as (Hv & Hadjv & Hrestv).
      assert (Hdv : dropped lowest v = false).
      { unfold dropped in *. apply Z.leb_gt in Hd. apply Z.leb_gt. lia. }
      cbn [List.filter]. rewrite Hdv. cbn [negb]. f_equal.
      apply (IHs v); auto. }
    rewrite Hall. split; [exact Hc|]. right. reflexivity.
Qed.

(** ** The invariant is established and preserved *)

Lemma NoDup_List_filter {A} (f : A -> bool) (l : list A) :
  NoDup l -> NoDup (List.filter f l).
Proof.
  induction 1 as [|a l Hni Hnd IH]; cbn [List.filter]; [constructor|].
  destruct (f a); [|exact IH].
  constructor; [|exact IH].
  rewrite list_elem_of_In, filter_In, <- list_elem_of_In. tauto.
Qed.

Lemma Forall_List_filter {A} (P : A -> Prop) (f : A -> bool) (l : list A) :
  Forall P l -> Forall P (List.filter f l).
Proof.
  rewrite !Forall_forall. intros H x Hx.
  apply list_elem_of_In, filter_In in Hx as [Hx _].
  apply H, list_elem_of_In, Hx.
Qed.

(** A heap with the same offsets at every pointer keeps the invariant. *)
Lemma log_inv_same_offsets (l : Log) (h' : list segment) :
  log_inv l ->
  length h' = length (heap l) ->
  baseOffset <$> h' = baseOffset <$> heap l ->
  nextOffset <$> h' = nextOffset <$> heap l ->
  log_inv (set_heap l h').
Proof.
  intros (Hok & Hnd & (a & Ha & Hlt & Htail) & Hc & Hty) Hlen Hb Hn.
  assert (Hbs : baseOffset <$> deref h' (segments l)
                = baseOffset <$> Log_segments l)
    by (unfold Log_segments; rewrite !deref_fmap, Hb; reflexivity).
  assert (Hns : nextOffset <$> deref h' (segments l)
                = nextOffset <$> Log_segments l)
    by (unfold Log_segments; rewrite !deref_fmap, Hn; reflexivity).
  split; [|split; [|split; [|split]]].
  - unfold heap_ok in *. cbn. rewrite Hlen. exact Hok.
  - exact Hnd.
  - exists a. cbn. rewrite Hlen. auto.
  - apply (contiguous_same_offsets (Log_segments l)); assumption.
  - apply (offsets_typed_same_offsets (Log_segments l)); assumption.
Qed.

(** Once a retained segment is met, all later ones are retained. *)
Lemma retained_from (h : list segment) (lowest : Z) (ptrs : list nat)
    (s : segment) :
  Forall (fun p => (p < length h)%nat) ptrs ->
  contiguous (s :: deref h ptrs) ->
  dropped lowest s = false ->
  List.filter (retained (nextOffset <$> h) lowest) ptrs = ptrs.
Proof.
  intros Hok. revert s.
  induction Hok as [|p ptrs Hp _ IH]; intros s Hc Hd; [reflexivity|].
  destruct (lookup_lt_is_Some_2 _ _ Hp) as [t Ht].
  cbn [deref] in Hc. rewrite Ht in Hc.
  destruct Hc as (Hs & Hadj & Hrest). pose proof Hrest as (Htr & _).
  assert (Hdt : dropped lowest t = false).
  { unfold dropped in *. apply Z.leb_gt in Hd. apply Z.leb_gt. lia. }
  cbn [List.filter]. rewrite (retained_dropped h lowest p t Ht), Hdt.
  cbn [negb]. f_equal. apply (IH t); assumption.
Qed.

Lemma retained_suffix (h : list segment) (lowest : Z) (ptrs : list nat) :
  Forall (fun p => (p < length h)%nat) ptrs ->
  contiguous (deref h ptrs) ->
  let kept := List.filter (retained (nextOffset <$> h) lowest) ptrs in
  kept = [] \/ last kept = last ptrs.
Proof.
  cbv zeta. induction 1 as [|p ptrs Hp Hok IH]; intros Hc; [left; reflexivity|].
  destruct (lookup_lt_is_Some_2 _ _ Hp) as [s Hs].
  cbn [deref] in Hc. rewrite Hs in Hc.
  cbn [List.filter]. rewrite (retained_dropped h lowest p s Hs).
  destruct (dropped lowest s) eqn:Hd; cbn [negb].
  - destruct Hc as (_ & _ & Hrest).
    destruct (IH Hrest) as [E|E]; [left; exact E|].
    destruct ptrs as [|q ptrs]; [left; reflexivity|right; exact E].
  - rewrite (retained_from h lowest ptrs s Hok Hc Hd). right. reflexivity.
Qed.

Lemma Log_Truncate_inv (l : Log) (lowest : Z) :
  log_inv l -> log_inv (fst (Log_Truncate l lowest)).
Proof.
  intros Hinv. pose proof Hinv as (Hok & Hnd & (a & Ha & Hlt & Htail) & Hc & Hty).
  destruct (Log_Truncate_run l lowest Hok) as (h' & HT & Hlen & Hn & Hb & _).
  rewrite HT. cbn [fst].
  set (kept := List.filter (retained (nextOffset <$> heap l) lowest) (segments l)).
  apply (log_inv_same_offsets
           {| Log_Config := Log_Config l; activeSegment := activeSegment l;
              segments := kept; heap := heap l |} h'); try assumption.
  destruct (contiguous_filter (Log_segments l) lowest Hc) as [Hck _].
  split; [|split; [|split; [|split]]].
  - apply Forall_List_filter. exact Hok.
  - apply NoDup_List_filter. exact Hnd.
  - exists a. cbn. split; [exact Ha|]. split; [exact Hlt|].
    destruct (retained_suffix (heap l) lowest (segments l) Hok Hc) as [E|E].
    + left. exact E.
    + destruct Htail as [E0|E0].
      * left. subst kept. rewrite E0. reflexivity.
      * right. subst kept. rewrite E. exact E0.
  - unfold Log_segments. cbn. subst kept. rewrite deref_filter. exact Hck.
  - unfold Log_segments. cbn. subst kept. rewrite deref_filter.
    apply Forall_List_filter. exact Hty.
Qed.

Lemma Log_Read_heap `{Codec} (l : Log) (off : Z) :
  fst (Log_Read l off) = l
  \/ exists p s st, heap l !! p = Some s
       /\ fst (Log_Read l off) = set_heap l (<[p := set_store s st]> (heap l)).
Proof.
  unfold Log_Read.
  destruct (Log_Read_find (heap l) (segments l) off) as [[p|]|e|];
    try (left; reflexivity).
  destruct (heap l !! p) as [s|] eqn:Hs; [|left; reflexivity].
  unfold segment_Read.
  destruct (index_Read _ _) as [[out pos]|e|].
  - destruct (store_Read (segment_store s) pos) as [st r].
    right. exists p, s, st. split; [exact Hs|reflexivity].
  - right. exists p, s, (segment_store s). split; [exact Hs|].
    destruct s; reflexivity.
  - right. exists p, s, (segment_store s). split; [exact Hs|].
    destruct s; reflexivity.
Qed.

Lemma Log_Read_inv `{Codec} (l : Log) (off : Z) :
  log_inv l -> log_inv (fst (Log_Read l off)).
Proof.
  intros Hinv.
  destruct (Log_Read_heap l off) as [E|(p & s & st & Hs & E)]; rewrite E;
    [exact Hinv|].
  apply log_inv_same_offsets; [exact Hinv| | |].
  - apply length_insert.
  - apply (fmap_insert_same baseOffset _ p s); [exact Hs|reflexivity].
  - apply (fmap_insert_same nextOffset _ p s); [exact Hs|reflexivity].
Qed.

Lemma with_defaults_InitialOffset (c : Config) :
  InitialOffset (with_defaults c) = InitialOffset c.
Proof.
  unfold with_defaults.
  destruct (MaxStoreBytes c =? 0); cbn;
    match goal with |- context [if ?b then _ else _] => destruct b end;
    reflexivity.
Qed.

Lemma with_defaults_MaxIndexBytes (c : Config) :
  0 <= MaxIndexBytes c < 2 ^ 63 ->
  0 <= MaxIndexBytes (with_defaults c) < 2 ^ 63.
Proof.
  intros Hc. unfold with_defaults.
  destruct (MaxStoreBytes c =? 0); cbn [MaxIndexBytes];
    destruct (MaxIndexBytes c =? 0); cbn [MaxIndexBytes];
    try exact Hc; vm_compute; split; congruence.
Qed.

Lemma NewLog_inv (c : Config) :
  Config_typed c -> MaxIndexBytes c < 2 ^ 63 -> log_inv (fst (NewLog empty_directory c)).
Proof.
  intros (_ & Hm & Hi) Hm'.
  rewrite NewLog_empty.
  rewrite Log_newSegment_eq
    by (apply with_defaults_MaxIndexBytes; unfold is_uint64 in Hm; lia).
  cbn [fst].
  split; [|split; [|split; [|split]]].
  - repeat constructor.
  - apply NoDup_singleton.
  - exists 0%nat. cbn. repeat split; auto.
  - cbn. repeat split; auto. lia.
  - unfold Log_segments. cbn.
    constructor; [|constructor]. cbn.
    rewrite with_defaults_InitialOffset. auto.
Qed.

Lemma last_deref_snoc {A} (h : list A) (ptrs : list nat) (a : nat) (s : A) :
  h !! a = Some s -> deref h (ptrs ++ [a]) = deref h ptrs ++ [s].
Proof.
  intros Hs. rewrite deref_app. cbn [deref]. rewrite Hs. reflexivity.
Qed.

Lemma last_snoc_split {A} (l : list A) (a : A) :
  last l = Some a -> exists l', l = l' ++ [a].
Proof.
  intros Hl. destruct l as [|x l] using rev_ind; [discriminate|].
  rewrite last_snoc in Hl. inversion Hl. eauto.
Qed.

(** The active segment changed to a segment with the same base offset and
    a next offset not below the old one. *)
Lemma with_active_inv (l : Log) (a : nat) (s s' : segment) :
  log_inv l ->
  activeSegment l = Some a ->
  heap l !! a = Some s ->
  baseOffset s' = baseOffset s ->
  nextOffset s <= nextOffset s' ->
  is_uint64 (nextOffset s') ->
  log_inv (with_active l a s').
Proof.
  intros (Hok & Hnd & (a0 & Ha0 & Hlt & Htail) & Hc & Hty) Ha Hs Hb Hn Hu.
  assert (a0 = a) by congruence. subst a0.
  assert (Hok' : heap_ok (with_active l a s')).
  { unfold heap_ok, with_active. cbn. rewrite length_insert. exact Hok. }
  assert (Hact : active_is_tail (with_active l a s')).
  { exists a. cbn. rewrite length_insert. auto. }
  split; [exact Hok'|]. split; [exact Hnd|]. split; [exact Hact|].
  unfold Log_segments, with_active in *. cbn [heap segments set_heap].
  destruct Htail as [E|E].
  - rewrite E in *. cbn. split; [exact I|constructor].
  - destruct (last_snoc_split _ _ E) as [ptrs Eptrs].
    rewrite Eptrs in *.
    apply NoDup_app in Hnd as (_ & Hdis & _).
    assert (Hni : a ∉ ptrs).
    { intros Hin. apply (Hdis a Hin). left. }
    rewrite (last_deref_snoc (heap l) ptrs a s Hs) in Hc, Hty.
    rewrite (last_deref_snoc (<[a:=s']> (heap l)) ptrs a s')
      by (apply list_lookup_insert_eq; exact Hlt).
    rewrite deref_insert_notin by exact Hni.
    apply contiguous_snoc_inv in Hc as (Hc0 & Hsr & Hadj).
    unfold offsets_typed in *. apply Forall_app in Hty as [Hty0 Hts].
    apply Forall_singleton in Hts as [Hbs Hns].
    split.
    + apply contiguous_snoc; [exact Hc0|lia|].
      intros u Hu'. rewrite Hb. apply Hadj. exact Hu'.
    + apply Forall_app. split; [exact Hty0|].
      apply Forall_singleton. rewrite Hb. auto.
Qed.

(** A rotation to a new segment that starts at the active segment's next
    offset. *)
Lemma rotated_inv (l : Log) (a : nat) (s : segment) (off : Z) :
  log_inv l ->
  activeSegment l = Some a ->
  heap l !! a = Some s ->
  off = nextOffset s ->
  is_uint64 off ->
  log_inv (rotated l off).
Proof.
  intros (Hok & Hnd & (a0 & Ha0 & Hlt & Htail) & Hc & Hty) Ha Hs Hoff Hu.
  assert (a0 = a) by congruence. subst a0.
  set (f := fresh_segment off (Log_Config l)).
  assert (Hsegs : Log_segments (rotated l off) = Log_segments l ++ [f]).
  { unfold Log_segments, rotated. cbn [heap segments].
    rewrite (last_deref_snoc _ _ (length (heap l)) f)
      by (rewrite lookup_app_r, Nat.sub_diag by lia; reflexivity).
    rewrite deref_app_heap by exact Hok. reflexivity. }
  split; [|split; [|split; [|split]]].
  - unfold heap_ok, rotated. cbn. rewrite length_app. cbn.
    apply Forall_app. split.
    + eapply Forall_impl; [exact Hok|]. cbn. intros; lia.
    + apply Forall_singleton. lia.
  - unfold rotated. cbn. apply NoDup_app. split; [exact Hnd|]. split.
    + intros p Hp Hin. apply list_elem_of_singleton in Hin. subst p.
      unfold heap_ok in Hok. rewrite Forall_forall in Hok.
      specialize (Hok _ Hp). lia.
    + apply NoDup_singleton.
  - exists (length (heap l)). unfold rotated. cbn.
    split; [reflexivity|]. rewrite length_app. cbn. split; [lia|].
    right. apply last_snoc.
  - rewrite Hsegs. apply contiguous_snoc; [exact Hc|cbn; lia|].
    intros u Hu'. cbn [f fresh_segment baseOffset]. rewrite Hoff.
    destruct Htail as [E|E].
    + unfold Log_segments in Hu'. rewrite E in Hu'. discriminate.
    + destruct (last_snoc_split _ _ E) as [ptrs Eptrs].
      unfold Log_segments in Hu'. rewrite Eptrs in Hu'.
      rewrite (last_deref_snoc (heap l) ptrs a s Hs), last_snoc in Hu'.
      inversion Hu'. reflexivity.
  - rewrite Hsegs. unfold offsets_typed in *. apply Forall_app.
    split; [exact Hty|]. apply Forall_singleton. cbn. auto.
Qed.

Lemma Log_Append_inv `{Codec} (l : Log) (r : api_Record) :
  log_inv l -> no_wrap l -> log_inv (fst (Log_Append l r)).
Proof.
  intros Hinv Hnw.
  pose proof Hinv as (Hok & Hnd & (a & Ha & Hlt & Htail) & Hc & Hty).
  destruct (lookup_lt_is_Some_2 _ _ Hlt) as [s Hs].
  rewrite (Log_Append_run l r a s Ha Hs). cbv zeta.
  destruct (segment_Append_offsets s r) as (Hb & _ & Hoff).
  set (s' := fst (segment_Append s r)) in *.
  specialize (Hnw a s Ha Hs).
  assert (Hs_typed : segments l <> [] -> is_uint64 (nextOffset s)).
  { intros Hne. destruct Htail as [E|E]; [contradiction|].
    destruct (last_snoc_split _ _ E) as [ptrs Eptrs].
    unfold Log_segments, offsets_typed in Hty. rewrite Eptrs in Hty.
    rewrite (last_deref_snoc (heap l) ptrs a s Hs) in Hty.
    apply Forall_app in Hty as [_ Hts].
    apply Forall_singleton in Hts as [_ Hns]. exact Hns. }
  assert (Hl1 : forall n', nextOffset s' = n' ->
                  n' = nextOffset s \/ n' = wrap64 (nextOffset s + 1) ->
                  log_inv (with_active l a s')).
  { intros n' Hn' Hcase.
    destruct (segments l) as [|p0 ps] eqn:Esegs.
    - (* the active segment is not listed *)
      split; [|split; [|split; [|split]]].
      + unfold heap_ok, with_active. cbn. rewrite Esegs. constructor.
      + unfold with_active. cbn. rewrite Esegs. constructor.
      + exists a. unfold with_active. cbn. rewrite length_insert, Esegs. auto.
      + unfold Log_segments, with_active. cbn. rewrite Esegs. exact I.
      + unfold Log_segments, with_active. cbn. rewrite Esegs. constructor.
    - assert (Hu : is_uint64 (nextOffset s)) by (apply Hs_typed; discriminate).
      rewrite <- Esegs in *.
      apply (with_active_inv l a s s' Hinv Ha Hs Hb).
      + rewrite Hn'. destruct Hcase as [->| ->]; [lia|].
        unfold is_uint64 in Hu. rewrite wrap64_small by lia. lia.
      + rewrite Hn'. destruct Hcase as [->| ->]; [exact Hu|].
        apply wrap64_range. }
  destruct (snd (segment_Append s r)) as [off|e|] eqn:Hres; cbn [fst].
  - destruct Hoff as [Ho Hn].
    pose proof (Hl1 _ Hn (or_intror eq_refl)) as Hinv1.
    destruct (segment_IsMaxed s'); cbn [fst]; [|exact Hinv1].
    destruct (int64 (MaxIndexBytes (Log_Config l)) <? 0); cbn [fst];
      [exact Hinv1|].
    apply (rotated_inv (with_active l a s') a s' (wrap64 (off + 1)) Hinv1).
    + exact Ha.
    + unfold with_active. cbn. apply list_lookup_insert_eq. exact Hlt.
    + rewrite Hn, Ho. reflexivity.
    + apply wrap64_range.
  - exact (Hl1 _ Hoff (or_introl eq_refl)).
  - exact (Hl1 _ Hoff (or_introl eq_refl)).
Qed.



Lemma Log_newSegment_in_result (dir : directory) (l l' : Log) (off : Z) r :
  Log_newSegment_in dir l off = (l', r) -> r <> Ok tt -> l' = l.
Proof.
  unfold Log_newSegment_in.
  destruct (newSegment _ _ _ _) as [s|e|]; intros [= <- <-]; congruence.
Qed.





Lemma reopened_log_ranges :
  snd (NewLog paired_directory default_config) = Ok tt
  /\ (fun s => (baseOffset s, nextOffset s)) <$> Log_segments reopened_log
     = [(0, 3); (3, 3)].
Proof. split; vm_compute; reflexivity. Qed.



(** Settles [no_wrap] on a log given in full. *)
Ltac concrete_no_wrap :=
  let a := fresh "a" in let s := fresh "s" in
  let Ha := fresh "Ha" in let Hs := fresh "Hs" in
  intros a s Ha Hs; vm_compute in Ha; inversion Ha; subst a;
  vm_compute in Hs; inversion Hs; subst s; vm_compute; reflexivity.

Lemma default_config_typed : Config_typed default_config.
Proof. repeat split; vm_compute; congruence. Qed.





Lemma Log_Read_out_of_range_witness :
  Log_HighestOffset one_record_log = Ok 0
  /\ @Log_Read plain_codec one_record_log 1
     = (one_record_log, Err (ErrOffsetOutOfRange 1))
  /\ @Log_Read plain_codec fresh_log 5
     = (fresh_log, Err (ErrOffsetOutOfRange 5)).
Proof.
  split; [reflexivity|]. split.
  - assert (Hok : heap_ok one_record_log) by repeat constructor.
    destruct (@Log_Read_out_of_range plain_codec one_record_log 1
                (Log_segments one_record_log)
                (Log_segments_listed one_record_log Hok))
      as (_ & _ & _ & _ & Hhigh).
    apply (Hhigh ltac:(vm_compute; repeat split; discriminate)
                 ltac:(repeat constructor; vm_compute;
                       first [reflexivity | discriminate])
                 0 eq_refl).
    lia.
  - destruct (@Log_Read_out_of_range plain_codec fresh_log 5
                [bare_segment 0 0] fresh_log_listed)
      as (_ & _ & _ & Hempty & _).
    apply Hempty. intros s Hin.
    apply list_elem_of_singleton in Hin. subst s. reflexivity.
Defined.

Lemma near_last_config_typed : Config_typed near_last_config.
Proof. repeat split; vm_compute; congruence. Qed.

(** C7 as stated fails once a rotation has gone past the last offset: the
    log that starts at [2^64 - 2] with one entry to a segment has, after
    three appends, segments based at [2^64 - 2], [2^64 - 1], 0 and 1;
    [HighestOffset] answers 0, and [Read(2^64 - 2)], an offset beyond
    [HighestOffset + 1], returns the first record. *)
Lemma Log_Read_after_wrap :
  ~ (forall (init l : Log) (off highest : Z),
       log_inv init -> @reachable_unguarded plain_codec init l ->
       Log_HighestOffset l = Ok highest ->
       highest + 1 <= off -> is_uint64 off ->
       exists l', @Log_Read plain_codec l off
                  = (l', Err (ErrOffsetOutOfRange off))).
Proof.
  intros H.
  assert (Hinit : log_inv near_last_log)
    by (apply NewLog_inv; [exact near_last_config_typed|reflexivity]).
  assert (Hr : @reachable_unguarded plain_codec near_last_log wrapped_three_log).
  { unfold wrapped_three_log, appended.
    repeat (apply (@reachable_Append plain_codec); [|exact I]).
    apply (@reachable_init plain_codec). }
  destruct (H near_last_log wrapped_three_log (2 ^ 64 - 2) 0 Hinit Hr)
    as (l' & Hread).
  - vm_compute. reflexivity.
  - lia.
  - unfold is_uint64. lia.
  - assert (Hok : snd (@Log_Read plain_codec wrapped_three_log (2 ^ 64 - 2))
                  = Ok {| Value := []; Offset := 2 ^ 64 - 2 |})
      by (vm_compute; reflexivity).
    rewrite Hread in Hok. discriminate Hok.
Qed.

(** ** The round trip *)


Lemma slice_middle (pre b post : list byte) (lo hi : Z) :
  lo = Z.of_nat (length pre) -> hi = lo + Z.of_nat (length b) ->
  slice (pre ++ b ++ post) lo hi = Some b.
Proof.
  intros -> ->. rewrite slice_Some; [|lia|lia|].
  - f_equal. replace (Z.to_nat _) with (length b) by lia.
    rewrite Nat2Z.id, drop_app_length, take_app_length. reflexivity.
  - rewrite !length_app. lia.
Qed.

Lemma slice_update_middle (pre b post b' : list byte) (lo hi : Z) f :
  lo = Z.of_nat (length pre) -> hi = lo + Z.of_nat (length b) ->
  f b = Some b' ->
  slice_update (pre ++ b ++ post) lo hi f = Some (pre ++ b' ++ post).
Proof.
  intros Hlo Hhi Hf. unfold slice_update.
  rewrite (slice_middle pre b post lo hi Hlo Hhi), Hf. subst lo hi.
  f_equal. rewrite Nat2Z.id, take_app_length. f_equal. f_equal.
  replace (Z.to_nat _) with (length pre + length b)%nat by lia.
  rewrite app_assoc, <- length_app, drop_app_length. reflexivity.
Qed.

Lemma index_Write_holds (i : index) es (e : Z * Z) :
  index_holds i es -> is_entry e ->
  index_size i + entWidth <= Z.of_nat (length (index_mMap i)) ->
  Z.of_nat (length (index_mMap i)) < 2 ^ 64 ->
  exists i', index_Write i (fst e) (snd e) = Ok i'
    /\ index_holds i' (es ++ [e])
    /\ length (index_mMap i') = length (index_mMap i).
Proof.
  intros (Hsz & (tail & Hm) & Hes) He Hroom Hlen.
  unfold index_Write, entWidth, offWidth, posWidth in *.
  assert (Hl := length_flat_map_encode es).
  assert (Ht : (12 <= length tail)%nat).
  { rewrite Hm, length_app in Hroom. lia. }
  destruct tail as [|t0 [|t1 [|t2 [|t3 [|t4 [|t5 [|t6 [|t7 [|t8 [|t9 [|t10
    [|t11 tail]]]]]]]]]]]]; simpl in Ht; try lia.
  rewrite !wrap64_small by lia.
  destruct (Z.ltb_spec (Z.of_nat (length (index_mMap i))) (index_size i + (4+8)));
    [lia|].
  rewrite Hm.
  rewrite (slice_update_middle (flat_map encode_entry es) [t0;t1;t2;t3]
             (t4 :: t5 :: t6 :: t7 :: t8 :: t9 :: t10 :: t11 :: tail)
             (bytes32 (fst e) ++ [])); [|lia|simpl; lia|reflexivity].
  cbn [must bind].
  rewrite (app_assoc (flat_map encode_entry es)).
  rewrite (slice_update_middle (flat_map encode_entry es ++ bytes32 (fst e) ++ [])
             [t4;t5;t6;t7;t8;t9;t10;t11] tail (bytes64 (snd e) ++ []));
    [|rewrite length_app; simpl; lia|simpl; lia|reflexivity].
  cbn [must bind]. eexists. split; [reflexivity|]. split.
  - split; [|split].
    + cbn [index_size]. rewrite length_app. simpl length. unfold entWidth, offWidth, posWidth. lia.
    + exists tail. cbn [index_mMap]. rewrite flat_map_app. simpl flat_map.
      unfold encode_entry. rewrite !app_nil_r, <- !app_assoc. reflexivity.
    + apply Forall_app. split; [exact Hes|]. constructor; [exact He|constructor].
  - cbn [index_mMap]. rewrite !length_app. simpl. lia.
Qed.


Lemma store_image_app ps qs :
  store_image (ps ++ qs) = store_image ps ++ store_image qs.
Proof. apply flat_map_app. Qed.

Lemma store_image_lookup (ps : list (list byte)) (k : nat) p :
  ps !! k = Some p ->
  store_image ps
  = store_image (take k ps) ++ bytes64 (Z.of_nat (length p)) ++ p
      ++ store_image (drop (S k) ps).
Proof.
  intros Hk. rewrite <- (take_drop_middle ps k p Hk) at 1.
  rewrite store_image_app.
  change (store_image (p :: drop (S k) ps))
    with (frame p ++ store_image (drop (S k) ps)).
  unfold frame. rewrite <- !app_assoc. reflexivity.
Qed.

Lemma store_Read_image (st : store) (ps : list (list byte)) (k : nat) p :
  store_file st ++ store_buf st = store_image ps ->
  Z.of_nat (length (store_image ps)) < 2 ^ 64 ->
  ps !! k = Some p ->
  store_Read st (Z.of_nat (length (store_image (take k ps))))
  = (store_flush st, Ok p).
Proof.
  intros Him Hlen Hk. unfold store_Read. f_equal.
  unfold store_flush. cbn [store_file]. rewrite Him.
  assert (Hsplit := store_image_lookup ps k p Hk).
  assert (Hl : length (store_image ps)
               = (length (store_image (take k ps)) + 8 + length p
                  + length (store_image (drop (S k) ps)))%nat).
  { rewrite Hsplit at 1. rewrite !length_app. simpl. lia. }
  set (pre := store_image (take k ps)) in *.
  unfold ReadAt, lenWidth.
  rewrite Hsplit at 1.
  rewrite (slice_middle pre (bytes64 (Z.of_nat (length p))) _ _ _ eq_refl)
    by (simpl; lia).
  cbn [bind].
  rewrite <- (app_nil_r (bytes64 _)), Uint64_bytes64. cbn [must bind].
  rewrite Z.mod_small by lia.
  rewrite wrap64_small by lia.
  rewrite Hsplit. rewrite (app_assoc pre).
  rewrite (slice_middle (pre ++ bytes64 (Z.of_nat (length p))) p
             (store_image (drop (S k) ps)) (Z.of_nat (length pre) + 8)
             (Z.of_nat (length pre) + 8 + Z.of_nat (length p))).
  - reflexivity.
  - rewrite length_app. simpl. lia.
  - reflexivity.
Qed.

Lemma segment_holds_flushed `{Codec} (s : segment) rs :
  segment_holds s rs -> segment_holds (flushed s) rs.
Proof.
  intros (Hes & Him & Hsz & Hszb & Hnext & Hoff & Hmap).
  destruct s as [st ix b n c rm]. unfold segment_holds, flushed in *.
  cbn in *. rewrite app_nil_r. auto 10.
Qed.

Lemma segment_Read_holds `{Codec} `{!CodecLaws} (s : segment) rs (k : nat) r :
  segment_holds s rs ->
  Config_small (segment_config s) ->
  is_uint64 (baseOffset s) ->
  baseOffset s + Z.of_nat (length rs) < 2 ^ 64 ->
  rs !! k = Some r ->
  segment_Read s (baseOffset s + Z.of_nat k) = (flushed s, Ok r).
Proof.
  intros Hh (Hst & Hix) Hb Hn Hk. unfold entWidth, offWidth, posWidth in Hix.
  destruct Hh as ((es & Hes & Hlen & Hent) & Him & Hsz & Hszb & Hnext & Hoff & Hmap).
  assert (Hkl : (k < length rs)%nat) by (eapply lookup_lt_Some; eauto).
  assert (Hes' := Hes). destruct Hes' as (Hisz & (tail & Hm) & _).
  assert (Hl := length_flat_map_encode es).
  assert (Hsmall : 12 * Z.of_nat (length rs) < 2 ^ 32).
  { rewrite Hm, length_app in Hmap. lia. }
  destruct (lookup_lt_is_Some_2 es k) as [e He]; [lia|].
  assert (Hee := Hent k e He). subst e.
  unfold segment_Read.
  replace (baseOffset s + Z.of_nat k - baseOffset s) with (Z.of_nat k) by lia.
  rewrite wrap64_small by lia. rewrite int64_small by lia.
  assert (Hrange : 0 <= Z.of_nat k < 2 ^ 32) by lia.
  assert (He' : es !! Z.to_nat (Z.of_nat k)
                = Some (Z.of_nat k,
                        Z.of_nat (length (store_image (marshal <$> take k rs)))))
    by (rewrite Nat2Z.id; exact He).
  rewrite (index_Read_nth _ es (Z.of_nat k) _ Hes Hrange He').
  rewrite fmap_take.
  rewrite (store_Read_image (segment_store s) (marshal <$> rs) k (marshal r));
    [|exact Him|lia|rewrite list_lookup_fmap, Hk; reflexivity].
  assert (Hr : is_uint64 (Offset r)).
  { eapply Forall_lookup_1 in Hoff; eauto. }
  cbn [bind]. rewrite (unmarshal_marshal r Hr). reflexivity.
Qed.



Lemma segment_Append_holds `{Codec} (s : segment) rs (r : api_Record) :
  segment_holds s rs ->
  Config_small (segment_config s) ->
  segment_IsMaxed s = false ->
  marshals r ->
  is_uint64 (baseOffset s) ->
  nextOffset s < 2 ^ 64 - 1 ->
  exists s', segment_Append s r = (s', Ok (nextOffset s))
    /\ segment_holds s' (rs ++ [set_Offset r (nextOffset s)])
    /\ baseOffset s' = baseOffset s /\ nextOffset s' = nextOffset s + 1
    /\ segment_config s' = segment_config s
    /\ segment_removed s' = segment_removed s.
Proof.
  intros Hh (Hst & Hix) Hmax Hr Hb Hn.
  destruct Hh as ((es & Hes & Hlen & Hent) & Him & Hsz & Hszb & Hnext & Hoff & Hmap).
  assert (Hes' := Hes). destruct Hes' as (Hisz & (tail & Hm) & _).
  assert (Hl := length_flat_map_encode es).
  assert (Hsmall : 12 * Z.of_nat (length rs) < 2 ^ 32).
  { rewrite Hm, length_app in Hmap. lia. }
  unfold segment_IsMaxed in Hmax. apply orb_false_iff in Hmax.
  destruct Hmax as [Hm1 Hm2].
  apply Z.leb_gt in Hm1. apply Z.ltb_ge in Hm2.
  unfold entWidth, offWidth, posWidth in *.
  rewrite wrap64_small in Hm2 by lia.
  assert (Hp := Hr (nextOffset s) ltac:(unfold is_uint64 in *; lia)).
  set (p := marshal (set_Offset r (nextOffset s))) in *.
  assert (Hsz0 : 0 <= store_size (segment_store s)) by lia.
  destruct (index_Write_holds (segment_index s) es
              (Z.of_nat (length rs), store_size (segment_store s)))
    as (ix' & Hw & Hholds & Hlen').
  { exact Hes. }
  { split; cbn; unfold is_uint32, is_uint64; lia. }
  { unfold entWidth, offWidth, posWidth. lia. }
  { lia. }
  cbn [fst snd] in Hw.
  unfold segment_Append. fold p. unfold store_Append.
  cbn [set_store segment_index nextOffset baseOffset].
  replace (uint32 (wrap64 (nextOffset s - baseOffset s)))
    with (Z.of_nat (length rs))
    by (rewrite Hnext; replace (baseOffset s + Z.of_nat (length rs) - baseOffset s)
          with (Z.of_nat (length rs)) by lia;
        rewrite wrap64_small by lia; rewrite uint32_small by lia; reflexivity).
  rewrite Hw. eexists. split; [reflexivity|].
  split; [|cbn; rewrite wrap64_small by (unfold is_uint64 in *; lia);
           repeat split; reflexivity].
  unfold segment_holds. cbn.
  rewrite fmap_app, store_image_app. cbn [fmap list_fmap store_image flat_map].
  fold p. rewrite app_nil_r. unfold frame.
  split; [|repeat split].
  - exists (es ++ [(Z.of_nat (length rs), store_size (segment_store s))]).
    split; [exact Hholds|]. split; [rewrite !length_app; simpl; lia|].
    intros k e Hk. destruct (decide (k < length es)%nat) as [Hlt|Hge].
    + rewrite lookup_app_l in Hk by exact Hlt.
      rewrite take_app_le by lia. exact (Hent k e Hk).
    + assert (Hkl := lookup_lt_Some _ _ _ Hk). rewrite length_app in Hkl.
      simpl in Hkl. assert (k = length es) by lia. subst k.
      rewrite lookup_app_r, Nat.sub_diag in Hk by lia. simpl in Hk.
      injection Hk as <-. rewrite Hlen, take_app_length, Hsz. reflexivity.
  - rewrite app_assoc, Him. reflexivity.
  - rewrite !length_app. simpl length. unfold lenWidth.
    rewrite (wrap64_small (_ + 8)) by lia. rewrite wrap64_small by lia. lia.
  - unfold lenWidth. rewrite (wrap64_small (_ + 8)) by lia.
    rewrite wrap64_small by lia. lia.
  - rewrite wrap64_small by (unfold is_uint64 in *; lia).
    rewrite length_app. simpl. lia.
  - apply Forall_app. split; [exact Hoff|]. constructor; [|constructor].
    cbn. unfold is_uint64 in *. lia.
  - rewrite Hlen'. exact Hmap.
Qed.

Lemma fresh_segment_holds `{Codec} (base : Z) (c : Config) :
  0 <= MaxIndexBytes c < 2 ^ 63 -> segment_holds (fresh_segment base c) [].
Proof.
  intros Hc. unfold segment_holds. cbn. split; [|repeat split; auto; try lia].
  - exists []. split; [|split; [reflexivity|intros k e Hk; discriminate Hk]].
    split; [reflexivity|]. split; [|constructor].
    eexists. reflexivity.
  - unfold truncate_file. rewrite int64_small by exact Hc.
    rewrite take_nil, length_app, repeat_length. simpl. lia.
Qed.


Lemma listed_lookup (l : Log) p s :
  heap_ok l -> p ∈ segments l -> heap l !! p = Some s ->
  exists i, segments l !! i = Some p /\ Log_segments l !! i = Some s.
Proof.
  intros Hok Hp Hs. apply list_elem_of_lookup in Hp as [i Hi].
  assert (HL := Log_segments_listed l Hok). unfold listed in HL.
  destruct (Forall2_lookup_l _ _ _ i p HL Hi) as (s0 & Hs0 & Hh).
  exists i. split; [exact Hi|congruence].
Qed.

Lemma segment_typed (l : Log) p s :
  log_inv l -> p ∈ segments l -> heap l !! p = Some s ->
  is_uint64 (baseOffset s) /\ is_uint64 (nextOffset s).
Proof.
  intros (Hok & _ & _ & _ & Hty) Hp Hs.
  destruct (listed_lookup l p s Hok Hp Hs) as (i & _ & Hi).
  exact (Forall_lookup_1 _ _ _ _ Hty Hi).
Qed.

Lemma segment_unique (l : Log) p s p' s' off :
  log_inv l ->
  p ∈ segments l -> heap l !! p = Some s -> in_range s off ->
  p' ∈ segments l -> heap l !! p' = Some s' -> in_range s' off ->
  p' = p.
Proof.
  intros (Hok & _ & _ & Hc & _) Hp Hs Hr Hp' Hs' Hr'.
  destruct (listed_lookup l p s Hok Hp Hs) as (i & Hi & Hsi).
  destruct (listed_lookup l p' s' Hok Hp' Hs') as (j & Hj & Hsj).
  destruct (decide (i = j)) as [->|Hne]; [congruence|].
  exfalso. exact (contiguous_disjoint _ Hc i j s s' off Hne Hsi Hsj (conj Hr Hr')).
Qed.

Lemma Log_Read_holds `{Codec} `{!CodecLaws} (l : Log) (off : Z) r :
  log_holds l -> holds l off r ->
  exists l', Log_Read l off = (l', Ok r)
    /\ log_holds l'
    /\ forall off' r', holds l off' r' -> holds l' off' r'.
Proof.
  intros (Hinv & Hc & Hsegs & Hact) (p & s & rs & k & Hp & Hs & Hseg & Hk & ->).
  destruct (segment_typed l p s Hinv Hp Hs) as [Hb Hn].
  destruct (Hsegs p s Hp Hs) as [Hcs _].
  assert (Hnext : nextOffset s = baseOffset s + Z.of_nat (length rs))
    by (destruct Hseg as (_ & _ & _ & _ & Hx & _); exact Hx).
  assert (Hkl : (k < length rs)%nat) by (eapply lookup_lt_Some; eauto).
  assert (Hin : in_range s (baseOffset s + Z.of_nat k))
    by (unfold in_range; lia).
  assert (Hok : heap_ok l) by (destruct Hinv as [Hx _]; exact Hx).
  assert (Hplt : (p < length (heap l))%nat) by (eapply lookup_lt_Some; eauto).
  assert (Hrun : Log_Read l (baseOffset s + Z.of_nat k)
                 = (set_heap l (<[p := flushed s]> (heap l)), Ok r)).
  { destruct (Log_Read_find_spec (heap l) (baseOffset s + Z.of_nat k)
                (segments l) (Log_segments l) (Log_segments_listed l Hok))
      as [[_ Hnone] | (p' & s' & Hfind & Hp' & Hs' & Hr')].
    - exfalso. apply (Hnone s); [|exact Hin].
      destruct (listed_lookup l p s Hok Hp Hs) as (i & _ & Hi).
      eapply list_elem_of_lookup_2; eauto.
    - assert (p' = p) by (eapply segment_unique; eauto). subst p'.
      unfold Log_Read. rewrite Hfind, Hs.
      rewrite (segment_Read_holds s rs k r Hseg); auto.
      + rewrite Hcs. exact Hc.
      + unfold is_uint64 in *. lia. }
  eexists. split; [exact Hrun|].
  assert (Hinv' := Log_Read_inv l (baseOffset s + Z.of_nat k) Hinv).
  rewrite Hrun in Hinv'. cbn [fst] in Hinv'.
  split; [split; [exact Hinv'|split; [exact Hc|split]]|].
  - intros q t Hq Ht. cbn in Hq, Ht.
    destruct (decide (q = p)) as [->|Hne].
    + rewrite list_lookup_insert_eq in Ht by exact Hplt.
      injection Ht as <-. split; [exact Hcs|].
      exists rs. apply segment_holds_flushed. exact Hseg.
    + rewrite list_lookup_insert_ne in Ht by auto. exact (Hsegs q t Hq Ht).
  - destruct Hact as (a & sa & Ha & Hal & Hsa & Hmx). cbn.
    destruct (decide (a = p)) as [->|Hne].
    + exists p, (flushed s). rewrite list_lookup_insert_eq by exact Hplt.
      assert (sa = s) by congruence. subst sa.
      split; [exact Ha|]. split; [exact Hal|]. split; [reflexivity|].
      destruct s as [st ix b n c rm]. exact Hmx.
    + exists a, sa. rewrite list_lookup_insert_ne by auto. auto.
  - intros off' r' (q & t & rs' & k' & Hq & Ht & Hseg' & Hk' & ->).
    destruct (decide (q = p)) as [->|Hne].
    + assert (t = s) by congruence. subst t.
      exists p, (flushed s), rs', k'. cbn.
      rewrite list_lookup_insert_eq by exact Hplt.
      split; [exact Hq|]. split; [reflexivity|].
      split; [apply segment_holds_flushed; exact Hseg'|]. auto.
    + exists q, t, rs', k'. cbn. rewrite list_lookup_insert_ne by auto. auto.
Qed.


Lemma fresh_segment_not_maxed (off : Z) (c : Config) :
  Config_small c -> segment_IsMaxed (fresh_segment off c) = false.
Proof.
  intros (Hst & Hix). unfold entWidth, offWidth, posWidth in Hix.
  unfold segment_IsMaxed. cbn. apply orb_false_iff. split.
  - apply Z.leb_gt. lia.
  - apply Z.ltb_ge. unfold entWidth, offWidth, posWidth.
    rewrite wrap64_small by lia. lia.
Qed.

Lemma with_active_holds `{Codec} (l : Log) (a : nat) (s s1 : segment) rs
    (r : api_Record) :
  segments_hold l ->
  a ∈ segments l -> heap l !! a = Some s ->
  segment_holds s rs ->
  nextOffset s = baseOffset s + Z.of_nat (length rs) ->
  segment_config s1 = segment_config s ->
  baseOffset s1 = baseOffset s ->
  (forall rs', segment_holds s rs' -> segment_holds s1 (rs' ++ [r])) ->
  segments_hold (with_active l a s1)
  /\ holds (with_active l a s1) (nextOffset s) r
  /\ forall off x, holds l off x -> holds (with_active l a s1) off x.
Proof.
  intros Hsegs Hal Hsa Hseg Hnext Hc1 Hb1 Hgrow.
  assert (Halt : (a < length (heap l))%nat) by (eapply lookup_lt_Some; eauto).
  split; [|split].
  - intros q t Hq Ht. cbn in Hq, Ht.
    destruct (decide (q = a)) as [->|Hne].
    + rewrite list_lookup_insert_eq in Ht by exact Halt. injection Ht as <-.
      split; [rewrite Hc1; exact (proj1 (Hsegs a s Hal Hsa))|].
      exists (rs ++ [r]). apply Hgrow. exact Hseg.
    + rewrite list_lookup_insert_ne in Ht by auto. exact (Hsegs q t Hq Ht).
  - exists a, s1, (rs ++ [r]), (length rs). cbn.
    rewrite list_lookup_insert_eq by exact Halt.
    split; [exact Hal|]. split; [reflexivity|].
    split; [apply Hgrow; exact Hseg|]. split; [|lia].
    rewrite lookup_app_r, Nat.sub_diag by lia. reflexivity.
  - intros off x (q & t & rs' & k' & Hq & Ht & Hseg' & Hk' & ->).
    destruct (decide (q = a)) as [->|Hne].
    + assert (t = s) by congruence. subst t.
      exists a, s1, (rs' ++ [r]), k'. cbn.
      rewrite list_lookup_insert_eq by exact Halt.
      split; [exact Hq|]. split; [reflexivity|].
      split; [apply Hgrow; exact Hseg'|]. split; [|lia].
      rewrite lookup_app_l by (eapply lookup_lt_Some; eauto). exact Hk'.
    + exists q, t, rs', k'. cbn. rewrite list_lookup_insert_ne by auto. auto.
Qed.

Lemma rotated_holds `{Codec} (l : Log) (off : Z) :
  heap_ok l -> segments_hold l -> Config_small (Log_Config l) ->
  segments_hold (rotated l off)
  /\ (forall o x, holds l o x -> holds (rotated l off) o x)
  /\ (exists a s, activeSegment (rotated l off) = Some a
        /\ a ∈ segments (rotated l off)
        /\ heap (rotated l off) !! a = Some s
        /\ segment_IsMaxed s = false /\ nextOffset s = off).
Proof.
  intros Hok Hsegs Hc. unfold heap_ok in Hok. rewrite Forall_forall in Hok.
  split; [|split].
  - intros q t Hq Ht. cbn in Hq, Ht. apply elem_of_app in Hq as [Hq|Hq].
    + rewrite lookup_app_l in Ht by (apply Hok; exact Hq).
      exact (Hsegs q t Hq Ht).
    + apply list_elem_of_singleton in Hq. subst q.
      rewrite lookup_app_r, Nat.sub_diag in Ht by lia. injection Ht as <-.
      split; [reflexivity|]. exists [].
      apply fresh_segment_holds. destruct Hc as (_ & Hix).
      unfold entWidth, offWidth, posWidth in Hix. lia.
  - intros o x (q & t & rs' & k' & Hq & Ht & Hseg' & Hk' & ->).
    exists q, t, rs', k'. cbn. split; [apply elem_of_app; left; exact Hq|].
    rewrite lookup_app_l by (apply Hok; exact Hq). auto.
  - exists (length (heap l)), (fresh_segment off (Log_Config l)). cbn.
    split; [reflexivity|]. split; [apply elem_of_app; right; constructor|].
    rewrite lookup_app_r, Nat.sub_diag by lia.
    split; [reflexivity|]. split; [|reflexivity].
    apply fresh_segment_not_maxed. exact Hc.
Qed.



Lemma Log_Append_holds `{Codec} (l : Log) (r : api_Record) (n : Z) :
  log_holds l -> marshals r -> Log_next l n -> n < 2 ^ 64 - 1 ->
  exists l', Log_Append l r = (l', Some (n, None))
    /\ log_holds l'
    /\ holds l' n (set_Offset r n)
    /\ (forall off x, holds l off x -> holds l' off x)
    /\ Log_next l' (n + 1).
Proof.
  intros (Hinv & Hc & Hsegs & (a & s & Ha & Hal & Hsa & Hmx)) Hr
         (a' & s' & Ha' & Hsa' & Hn') Hn.
  assert (a' = a) by congruence. subst a'.
  assert (s' = s) by congruence. subst s'. subst n.
  destruct (Hsegs a s Hal Hsa) as [Hcs [rs Hseg]].
  destruct (segment_typed l a s Hinv Hal Hsa) as [Hb Hnx].
  assert (Hcs' : Config_small (segment_config s)) by (rewrite Hcs; exact Hc).
  destruct (segment_Append_holds s rs r Hseg Hcs' Hmx Hr Hb Hn)
    as (s1 & Happ & Hh1 & Hb1 & Hn1 & Hc1 & Hrm1).
  assert (Hnext : nextOffset s = baseOffset s + Z.of_nat (length rs))
    by (destruct Hseg as (_ & _ & _ & _ & Hx & _); exact Hx).
  assert (Hgrow : forall rs', segment_holds s rs' ->
            segment_holds s1 (rs' ++ [set_Offset r (nextOffset s)])).
  { intros rs' Hseg'.
    destruct (segment_Append_holds s rs' r Hseg' Hcs' Hmx Hr Hb Hn)
      as (s2 & Happ2 & Hh2 & _).
    assert (s2 = s1) by congruence. subst s2. exact Hh2. }
  assert (Hnw : no_wrap l).
  { intros a0 s0 Ha0 Hs0. assert (a0 = a) by congruence. subst a0.
    assert (s0 = s) by congruence. subst s0. exact Hn. }
  assert (Hinv' := Log_Append_inv l r Hinv Hnw).
  destruct (with_active_holds l a s s1 rs (set_Offset r (nextOffset s))
              Hsegs Hal Hsa Hseg Hnext Hc1 Hb1 Hgrow)
    as (Hsegs1 & Hnew1 & Hold1).
  assert (Halt : (a < length (heap l))%nat) by (eapply lookup_lt_Some; eauto).
  assert (Hmap : (int64 (MaxIndexBytes (Log_Config l)) <? 0) = false).
  { apply int64_nonneg. destruct Hc as (_ & Hix).
    unfold entWidth, offWidth, posWidth in Hix. lia. }
  rewrite (Log_Append_run l r a s Ha Hsa) in *.
  rewrite Happ, Hmap in *. cbn [fst snd] in *.
  destruct (segment_IsMaxed s1) eqn:Hmx1; cbn [fst] in Hinv'.
  - assert (Hok1 : heap_ok (with_active l a s1)).
    { destruct Hinv as (Hok & _). unfold heap_ok in *. cbn.
      rewrite length_insert. exact Hok. }
    destruct (rotated_holds (with_active l a s1) (wrap64 (nextOffset s + 1))
                Hok1 Hsegs1 Hc) as (Hsegs2 & Hold2 & (a2 & s2 & Hact2)).
    eexists. split; [reflexivity|].
    split; [split; [exact Hinv'|split; [exact Hc|split; [exact Hsegs2|]]]|].
    { exists a2, s2. tauto. }
    split; [apply Hold2; exact Hnew1|].
    split; [intros off x Hx; apply Hold2, Hold1; exact Hx|].
    destruct Hact2 as (Ha2 & _ & Hs2 & _ & Hn2).
    rewrite wrap64_small in Hn2 by (unfold is_uint64 in *; lia).
    exists a2, s2. auto.
  - eexists. split; [reflexivity|].
    split; [split; [exact Hinv'|split; [exact Hc|split; [exact Hsegs1|]]]|].
    { exists a, s1. cbn. rewrite list_lookup_insert_eq by exact Halt. auto. }
    split; [exact Hnew1|]. split; [exact Hold1|].
    exists a, s1. cbn. rewrite list_lookup_insert_eq by exact Halt. auto.
Qed.


Lemma plain_codec_laws : @CodecLaws plain_codec.
Proof.
  constructor. intros [v off] Hoff.
  change (plain_unmarshal (plain_marshal {| Value := v; Offset := off |})
          = Some {| Value := v; Offset := off |}).
  unfold plain_unmarshal, plain_marshal. cbn [Value Offset] in *.
  rewrite Uint64_bytes64. rewrite Z.mod_small by exact Hoff. reflexivity.
Qed.

Lemma fresh_log_holds `{Codec} : log_holds fresh_log /\ Log_next fresh_log 0.
Proof.
  assert (Hc : Config_small (with_defaults default_config)).
  { unfold Config_small. repeat split; vm_compute; congruence. }
  split.
  - split; [apply NewLog_inv; [exact default_config_typed|reflexivity]|].
    split; [exact Hc|]. split.
    + intros p s Hp Hs. cbn in Hp. apply list_elem_of_singleton in Hp.
      subst p. cbn in Hs. injection Hs as <-. split; [reflexivity|].
      exists []. apply (fresh_segment_holds 0 (with_defaults default_config)).
      vm_compute. split; [discriminate|reflexivity].
    + exists 0%nat, (fresh_segment 0 (with_defaults default_config)).
      split; [reflexivity|]. split; [cbn; constructor|].
      split; [reflexivity|]. apply fresh_segment_not_maxed. exact Hc.
  - exists 0%nat, (fresh_segment 0 (with_defaults default_config)).
    repeat split.
Qed.

Lemma Log_Append_all_holds `{Codec} (rs : list api_Record) (l : Log) (n : Z) :
  log_holds l -> Forall marshals rs -> Log_next l n ->
  n + Z.of_nat (length rs) <= 2 ^ 64 - 1 ->
  exists l',
    Log_Append_all l rs
    = (l', (fun k : nat => Some (n + Z.of_nat k, None)) <$> seq 0 (length rs))
    /\ log_holds l'
    /\ (forall (k : nat) r, rs !! k = Some r ->
          holds l' (n + Z.of_nat k) (set_Offset r (n + Z.of_nat k)))
    /\ (forall off x, holds l off x -> holds l' off x).
Proof.
  revert l n. induction rs as [|r rs IH]; intros l n Hl Hrs Hn Hlen.
  - exists l. split; [reflexivity|]. split; [exact Hl|].
    split; [intros k r Hk; discriminate Hk|auto].
  - apply Forall_cons in Hrs as [Hr Hrs]. simpl length in Hlen.
    destruct (Log_Append_holds l r n Hl Hr Hn ltac:(lia))
      as (l1 & Hrun & Hl1 & Hnew & Hold & Hn1).
    destruct (IH l1 (n + 1) Hl1 Hrs Hn1 ltac:(lia))
      as (l2 & Hrun2 & Hl2 & Hnew2 & Hold2).
    exists l2. split; [|split; [exact Hl2|split]].
    + cbn [Log_Append_all]. rewrite Hrun, Hrun2. f_equal.
      simpl length. cbn [seq fmap list_fmap]. f_equal.
      * do 2 f_equal. lia.
      * rewrite <- fmap_S_seq, <- list_fmap_compose. apply list_fmap_ext.
        intros _ k _. cbn. do 2 f_equal. lia.
    + intros [|k] x Hk.
      * cbn in Hk. injection Hk as <-.
        replace (n + Z.of_nat 0) with n by lia. apply Hold2. exact Hnew.
      * cbn in Hk. replace (n + Z.of_nat (S k)) with (n + 1 + Z.of_nat k) by lia.
        apply Hnew2. exact Hk.
    + intros off x Hx. apply Hold2, Hold. exact Hx.
Qed.

Lemma Log_Read_each_holds `{Codec} `{!CodecLaws} (offs : list Z) (l : Log)
    (xs : list api_Record) :
  log_holds l -> Forall2 (holds l) offs xs ->
  snd (Log_Read_each l offs) = Ok <$> xs.
Proof.
  revert l xs. induction offs as [|off offs IH]; intros l xs Hl Hxs.
  - apply Forall2_nil_inv_l in Hxs. subst xs. reflexivity.
  - apply Forall2_cons_inv_l in Hxs as (x & xs' & Hx & Hxs & ->).
    destruct (Log_Read_holds l off x Hl Hx) as (l1 & Hrun & Hl1 & Hold).
    cbn [Log_Read_each]. rewrite Hrun.
    assert (Hrest := IH l1 xs' Hl1
              (Forall2_impl _ _ _ _ Hxs (fun o y => Hold o y))).
    destruct (Log_Read_each l1 offs) as [l2 ress]. cbn in *.
    rewrite Hrest. reflexivity.
Qed.

(** C1. On a log created with the default configuration, appending the
    records [rs] one after the other returns the offsets 0, 1, 2, ... without
    an error, and from then on every call [Read(k)] for such an offset, in
    any order and any number of times, returns the [k]-th record appended:
    its payload bytes, with the offset [k] set. The serializer is assumed to
    decode what it encodes, and each record to fit a Go slice when
    marshalled. *)
Theorem Log_round_trip `{Codec} `{!CodecLaws} (rs : list api_Record)
    (ks : list nat) :
  Forall marshals rs ->
  Z.of_nat (length rs) <= 2 ^ 64 - 1 ->
  Forall (fun k => (k < length rs)%nat) ks ->
  exists l,
    Log_Append_all fresh_log rs
    = (l, (fun k : nat => Some (Z.of_nat k, None)) <$> seq 0 (length rs))
    /\ Forall2 (fun (k : nat) out =>
                  exists r r', rs !! k = Some r /\ out = Ok r'
                               /\ Value r' = Value r
                               /\ Offset r' = Z.of_nat k)
         ks (snd (Log_Read_each l (Z.of_nat <$> ks))).
Proof.
  intros Hrs Hlen Hks.
  destruct fresh_log_holds as [Hl Hn].
  destruct (Log_Append_all_holds rs fresh_log 0 Hl Hrs Hn ltac:(lia))
    as (l & Hrun & Hl' & Hnew & _).
  exists l. split; [exact Hrun|].
  assert (Hread : Forall2 (holds l) (Z.of_nat <$> ks)
            ((fun k : nat => set_Offset (default empty_record (rs !! k))
                                        (Z.of_nat k)) <$> ks)).
  { apply Forall2_fmap. apply Forall_Forall2_diag.
    eapply Forall_impl; [exact Hks|]. intros k Hk. cbn.
    destruct (lookup_lt_is_Some_2 rs k Hk) as [r Hr]. rewrite Hr. cbn.
    exact (Hnew k r Hr). }
  rewrite (Log_Read_each_holds _ l _ Hl' Hread).
  apply Forall2_fmap_r. apply Forall2_fmap_r. apply Forall_Forall2_diag.
  eapply Forall_impl; [exact Hks|]. intros k Hk. cbn.
  destruct (lookup_lt_is_Some_2 rs k Hk) as [r Hr]. rewrite Hr. cbn.
  exists r, (set_Offset r (Z.of_nat k)). auto.
Qed.

Lemma Log_round_trip_witness :
  exists l,
    @Log_Append_all plain_codec fresh_log four_records
    = (l, (fun k : nat => Some (Z.of_nat k, None))
            <$> seq 0 (length four_records))
    /\ Forall2 (fun (k : nat) out =>
                  exists r r', four_records !! k = Some r /\ out = Ok r'
                               /\ Value r' = Value r
                               /\ Offset r' = Z.of_nat k)
         [3%nat; 0%nat; 3%nat]
         (snd (@Log_Read_each plain_codec l (Z.of_nat <$> [3%nat; 0%nat; 3%nat]))).
Proof.
  apply (@Log_round_trip plain_codec plain_codec_laws four_records
           [3%nat; 0%nat; 3%nat]).
  - repeat constructor; intros off _; cbn; lia.
  - cbn. lia.
  - repeat constructor; cbn; lia.
Defined.


(** ** Further properties of the index and the log *)

Lemma index_Read_total (i : index) (n : Z) :
  0 <= index_size i <= Z.of_nat (length (index_mMap i)) ->
  index_Read i n <> Panic.
Proof.
  intros Hsz. unfold index_Read.
  destruct (index_size i =? 0); [congruence|].
  set (out := if n =? -1 then _ else _).
  assert (Hout : 0 <= out < 2 ^ 32)
    by (unfold out; destruct (n =? -1); apply uint32_range).
  destruct (read_position_range out Hout) as (H1 & H2 & H3).
  cbv zeta. rewrite H1, H2, H3.
  destruct (Z.ltb_spec (index_size i) (out * entWidth + entWidth)) as [|Hle];
    [congruence|].
  unfold entWidth, offWidth, posWidth in *.
  rewrite slice_Some by lia. cbn [must bind].
  destruct (Uint32_is_Some
              (take (Z.to_nat (out * (4 + 8) + 4 - out * (4 + 8)))
                 (drop (Z.to_nat (out * (4 + 8))) (index_mMap i)))) as [v Hv].
  { rewrite length_take, length_drop. lia. }
  rewrite Hv. cbn [must bind].
  rewrite slice_Some by lia. cbn [must bind].
  destruct (Uint64_is_Some
              (take (Z.to_nat (out * (4 + 8) + (4 + 8) - (out * (4 + 8) + 4)))
                 (drop (Z.to_nat (out * (4 + 8) + 4)) (index_mMap i))))
    as [w Hw].
  { rewrite length_take, length_drop. lia. }
  rewrite Hw. cbn [must bind]. congruence.
Qed.



Lemma index_Write_run (i : index) (off pos : Z) :
  0 <= index_size i ->
  index_size i + entWidth <= Z.of_nat (length (index_mMap i)) ->
  Z.of_nat (length (index_mMap i)) < 2 ^ 64 ->
  index_Write i off pos
  = Ok {| index_mMap :=
            take (Z.to_nat (index_size i)) (index_mMap i)
              ++ bytes32 off ++ bytes64 pos
              ++ drop (Z.to_nat (index_size i + entWidth)) (index_mMap i);
          index_size := index_size i + entWidth |}.
Proof.
  intros Hsz Hroom Hlen. unfold index_Write, entWidth, offWidth, posWidth in *.
  rewrite !wrap64_small by lia.
  destruct (Z.ltb_spec (Z.of_nat (length (index_mMap i))) (index_size i + (4 + 8)));
    [lia|].
  set (pre := take (Z.to_nat (index_size i)) (index_mMap i)).
  assert (Hpre : length pre = Z.to_nat (index_size i))
    by (unfold pre; rewrite length_take; lia).
  assert (Hm : index_mMap i = pre ++ drop (Z.to_nat (index_size i)) (index_mMap i))
    by (unfold pre; rewrite take_drop; reflexivity).
  assert (Hd : drop (Z.to_nat (index_size i + (4 + 8))) (index_mMap i)
               = drop 12 (drop (Z.to_nat (index_size i)) (index_mMap i))).
  { rewrite drop_drop. f_equal. lia. }
  rewrite Hd.
  assert (Hr : (12 <= length (drop (Z.to_nat (index_size i)) (index_mMap i)))%nat)
    by (rewrite length_drop; lia).
  destruct (drop (Z.to_nat (index_size i)) (index_mMap i))
    as [|t0 [|t1 [|t2 [|t3 [|t4 [|t5 [|t6 [|t7 [|t8 [|t9 [|t10 [|t11 post]]]]]]]]]]]];
    simpl in Hr; try lia.
  rewrite Hm.
  rewrite (slice_update_middle pre [t0;t1;t2;t3]
             (t4 :: t5 :: t6 :: t7 :: t8 :: t9 :: t10 :: t11 :: post)
             (bytes32 off ++ [])); [|lia|simpl; lia|reflexivity].
  cbn [must bind].
  rewrite (app_assoc pre).
  rewrite (slice_update_middle (pre ++ bytes32 off ++ [])
             [t4;t5;t6;t7;t8;t9;t10;t11] post (bytes64 pos ++ []));
    [|rewrite length_app; simpl; lia|simpl; lia|reflexivity].
  cbn [must bind]. rewrite !app_nil_r, <- !app_assoc. reflexivity.
Qed.

(** [index.Write] when the mapping has no room for one more entry returns
    [io.EOF]; when it has room it succeeds, writes the 4 + 8 bytes of the
    entry at [size] (offset first, both big-endian), moves [size] on by
    [entWidth] and leaves every other byte, and the length of the mapping,
    as they were. *)
Theorem index_Write_spec (i : index) (off pos : Z) :
  0 <= index_size i <= Z.of_nat (length (index_mMap i)) ->
  Z.of_nat (length (index_mMap i)) < 2 ^ 63 ->
  (Z.of_nat (length (index_mMap i)) < index_size i + entWidth ->
   index_Write i off pos = Err EOF)
  /\ (index_size i + entWidth <= Z.of_nat (length (index_mMap i)) ->
      exists i',
        index_Write i off pos = Ok i'
        /\ index_size i' = index_size i + entWidth
        /\ length (index_mMap i') = length (index_mMap i)
        /\ take (Z.to_nat (index_size i)) (index_mMap i')
           = take (Z.to_nat (index_size i)) (index_mMap i)
        /\ drop (Z.to_nat (index_size i')) (index_mMap i')
           = drop (Z.to_nat (index_size i')) (index_mMap i)
        /\ slice (index_mMap i') (index_size i) (index_size i')
           = Some (bytes32 off ++ bytes64 pos)).
Proof.
  intros Hsz Hlen. split.
  - intros Hfull. unfold index_Write.
    rewrite wrap64_small by (unfold entWidth, offWidth, posWidth in *; lia).
    destruct (Z.ltb_spec (Z.of_nat (length (index_mMap i)))
                (index_size i + entWidth)); [reflexivity|lia].
  - intros Hroom. rewrite index_Write_run by lia.
    set (pre := take (Z.to_nat (index_size i)) (index_mMap i)).
    assert (Hpre : length pre = Z.to_nat (index_size i))
      by (unfold pre; rewrite length_take; lia).
    unfold entWidth, offWidth, posWidth in *.
    eexists. split; [reflexivity|]. cbn [index_size index_mMap].
    split; [reflexivity|]. split; [|split; [|split]].
    + rewrite !length_app, Hpre, length_drop. simpl. lia.
    + rewrite <- Hpre. rewrite take_app_length. reflexivity.
    + rewrite !app_assoc.
      replace (Z.to_nat (index_size i + (4 + 8)))
        with (length ((pre ++ bytes32 off) ++ bytes64 pos))
        by (rewrite !length_app, Hpre; simpl; lia).
      rewrite drop_app_length.
      rewrite !length_app, Hpre. simpl length. f_equal.
    + rewrite (app_assoc (bytes32 off)).
      apply slice_middle; [lia|simpl; lia].
Qed.



(** Settles a closed comparison of sizes by evaluation. *)
Ltac by_evaluation :=
  vm_compute; repeat split; first [reflexivity | discriminate].

Lemma one_slot_free_holds : index_holds one_slot_free [(7, 1234)].
Proof.
  split; [reflexivity|]. split; [exists (repeat x00 12); reflexivity|].
  repeat constructor; cbn; lia.
Qed.

Lemma index_Write_spec_witness :
  (exists i', index_Write one_slot_free 8 99 = Ok i'
              /\ index_size i' = 24
              /\ slice (index_mMap i') 12 24 = Some (bytes32 8 ++ bytes64 99))
  /\ index_Write full_index 8 99 = Err EOF.
Proof.
  destruct (index_Write_spec one_slot_free 8 99) as [_ Hok];
    [by_evaluation|by_evaluation|].
  destruct (index_Write_spec full_index 8 99) as [Hfull _];
    [by_evaluation|by_evaluation|].
  split.
  - destruct Hok as (i' & Hw & Hs & _ & _ & _ & Hb);
      [by_evaluation|].
    exists i'. split; [exact Hw|]. split; [exact Hs|].
    rewrite Hs in Hb. exact Hb.
  - apply Hfull. by_evaluation.
Defined.

(** [index.Read] returns an entry or [io.EOF] on every input, and does not
    panic, as long as [size] does not exceed the length of the mapping. *)
Theorem index_Read_no_panic (i : index) (n : Z) :
  0 <= index_size i <= Z.of_nat (length (index_mMap i)) ->
  index_Read i n = Err EOF \/ exists e, index_Read i n = Ok e.
Proof.
  intros Hsz. assert (Hp := index_Read_total i n Hsz).
  destruct (index_Read i n) as [e|e|] eqn:Hr.
  - right. exists e. reflexivity.
  - left. rewrite (index_Read_Err i n e Hr). reflexivity.
  - congruence.
Qed.

Lemma index_Read_no_panic_witness :
  index_Read one_slot_free (- 2 ^ 63) = Err EOF
  \/ exists e, index_Read one_slot_free (- 2 ^ 63) = Ok e.
Proof.
  apply (index_Read_no_panic one_slot_free (- 2 ^ 63)).
  by_evaluation.
Defined.

(** An entry written by [index.Write] is read back by [index.Read], both at
    its own number and as the last entry ([Read(-1)]), and the entries
    written before it read as before. *)
Theorem index_Write_Read (i : index) (es : list (Z * Z)) (off pos : Z) :
  index_holds i es ->
  is_uint32 off -> is_uint64 pos ->
  index_size i + entWidth <= Z.of_nat (length (index_mMap i)) ->
  Z.of_nat (length (index_mMap i)) < 2 ^ 32 ->
  exists i',
    index_Write i off pos = Ok i'
    /\ index_Read i' (Z.of_nat (length es)) = Ok (off, pos)
    /\ index_Read i' (-1) = Ok (off, pos)
    /\ forall (n : nat) e, es !! n = Some e -> index_Read i' (Z.of_nat n) = Ok e.
Proof.
  intros Hes Hoff Hpos Hroom Hlen.
  destruct (index_Write_holds i es (off, pos) Hes (conj Hoff Hpos) Hroom
              ltac:(lia)) as (i' & Hw & Hes' & Hl').
  assert (Hn : 12 * Z.of_nat (length es) < 2 ^ 32).
  { destruct Hes as (Hs & _ & _). unfold entWidth, offWidth, posWidth in *.
    lia. }
  exists i'. split; [exact Hw|]. split; [|split].
  - apply (index_Read_nth i' (es ++ [(off, pos)])); [exact Hes'|lia|].
    rewrite Nat2Z.id, lookup_app_r, Nat.sub_diag by lia. reflexivity.
  - destruct (index_Read_last i' (es ++ [(off, pos)]) Hes') as (e & He & Hr).
    + rewrite length_app. simpl. lia.
    + destruct es; discriminate.
    + rewrite Hr. f_equal.
      destruct Hes' as (Hs' & _ & _). rewrite Hs' in He.
      rewrite length_app in He. simpl length in He.
      unfold entWidth, offWidth, posWidth in He.
      replace (Z.to_nat ((4 + 8) * Z.of_nat (length es + 1) / (4 + 8) - 1))
        with (length es) in He.
      * rewrite lookup_app_r, Nat.sub_diag in He by lia. cbn in He. congruence.
      * rewrite Z.mul_comm, Z.div_mul by lia. lia.
  - intros n e Hn'. apply (index_Read_nth i' (es ++ [(off, pos)])); [exact Hes'| |].
    + apply lookup_lt_Some in Hn'. lia.
    + rewrite Nat2Z.id. rewrite lookup_app_l by (eapply lookup_lt_Some; eauto).
      exact Hn'.
Qed.

Lemma index_Write_Read_witness :
  exists i',
    index_Write one_slot_free 8 99 = Ok i'
    /\ index_Read i' 1 = Ok (8, 99)
    /\ index_Read i' (-1) = Ok (8, 99)
    /\ forall (n : nat) e, [(7, 1234)] !! n = Some e
                           -> index_Read i' (Z.of_nat n) = Ok e.
Proof.
  apply (index_Write_Read one_slot_free [(7, 1234)] 8 99).
  - exact one_slot_free_holds.
  - by_evaluation.
  - by_evaluation.
  - by_evaluation.
  - by_evaluation.
Defined.

(** Closing an index cuts its file to the entries written, and opening that
    file again, with a [MaxIndexBytes] that has room for them and is a valid
    file length (below [2^63]), succeeds and gives an index that holds the
    same entries with the same [size], mapped at [MaxIndexBytes] bytes. With
    a [MaxIndexBytes] of [2^63] or more [newIndex] fails instead. *)
Theorem index_Close_newIndex (i : index) (es : list (Z * Z)) (c : Config) :
  index_holds i es ->
  Z.of_nat (length (index_mMap i)) < 2 ^ 63 ->
  (index_size i <= MaxIndexBytes c < 2 ^ 63 ->
   exists file i',
     index_Close i = Ok file
     /\ file = flat_map encode_entry es
     /\ newIndex file c = Ok i'
     /\ index_holds i' es
     /\ index_size i' = index_size i
     /\ Z.of_nat (length (index_mMap i')) = MaxIndexBytes c)
  /\ (2 ^ 63 <= MaxIndexBytes c < 2 ^ 64 ->
      forall file, newIndex file c = Err IoError).
Proof.
  intros (Hsz & (tail & Hm) & Hes) Hlen. split.
  2: { intros Hbig file. unfold newIndex. rewrite int64_neg by exact Hbig.
       reflexivity. }
  intros Hmax.
  assert (Hl := length_flat_map_encode es).
  unfold entWidth, offWidth, posWidth in *.
  assert (Hle : index_size i <= Z.of_nat (length (index_mMap i))).
  { rewrite Hm, length_app. lia. }
  unfold index_Close. rewrite int64_small by lia.
  destruct (Z.ltb_spec (index_size i) 0); [lia|].
  assert (Hfile : truncate_file (index_mMap i) (index_size i)
                  = flat_map encode_entry es).
  { unfold truncate_file. rewrite Hm.
    replace (Z.to_nat (index_size i)) with (length (flat_map encode_entry es))
      by lia.
    rewrite take_app_length, length_app.
    replace (length (flat_map encode_entry es)
             - (length (flat_map encode_entry es) + length tail))%nat
      with 0%nat by lia.
    apply app_nil_r. }
  exists (flat_map encode_entry es), (mapped_index (flat_map encode_entry es) c).
  rewrite Hfile.
  split; [reflexivity|]. split; [reflexivity|].
  split; [unfold newIndex; rewrite int64_nonneg by lia; reflexivity|].
  unfold mapped_index, truncate_file. cbn [index_size index_mMap].
  rewrite int64_small by lia. rewrite take_ge by lia.
  split; [|split].
  - split; [cbn; unfold entWidth, offWidth, posWidth; lia|].
    split; [eexists; reflexivity|exact Hes].
  - lia.
  - rewrite length_app, repeat_length. lia.
Qed.

Lemma index_Close_newIndex_witness :
  (exists file i',
     index_Close one_slot_free = Ok file
     /\ file = flat_map encode_entry [(7, 1234)]
     /\ newIndex file (with_defaults default_config) = Ok i'
     /\ index_holds i' [(7, 1234)]
     /\ index_size i' = index_size one_slot_free
     /\ Z.of_nat (length (index_mMap i'))
        = MaxIndexBytes (with_defaults default_config))
  /\ (forall file, newIndex file (mkConfig 1024 (2 ^ 63) 0) = Err IoError).
Proof.
  split.
  - apply (index_Close_newIndex one_slot_free [(7, 1234)]
             (with_defaults default_config)).
    + exact one_slot_free_holds.
    + by_evaluation.
    + by_evaluation.
  - apply (index_Close_newIndex one_slot_free [(7, 1234)]
             (mkConfig 1024 (2 ^ 63) 0)).
    + exact one_slot_free_holds.
    + by_evaluation.
    + by_evaluation.
Defined.



(** [newIndex] takes [size] from the file as found and only then cuts the
    file to [MaxIndexBytes]: on a file longer than [MaxIndexBytes] the last
    entry lies beyond the mapping, and [Read(-1)] panics on the slice. *)
Theorem newIndex_cut_short (contents : list byte) (c : Config) :
  entWidth <= Z.of_nat (length contents) < entWidth * 2 ^ 32 ->
  0 <= MaxIndexBytes c < entWidth * (Z.of_nat (length contents) / entWidth) ->
  exists i, newIndex contents c = Ok i /\ index_Read i (-1) = Panic.
Proof.
  unfold entWidth, offWidth, posWidth. change (4 + 8) with 12. intros HL HM.
  exists (mapped_index contents c).
  set (L := Z.of_nat (length contents)) in *.
  assert (Hq : 1 <= L / 12 < 2 ^ 32 + 1).
  { split; [apply Z.div_le_lower_bound; lia|].
    apply Z.div_lt_upper_bound; lia. }
  assert (Hq2 : L / 12 <= 2 ^ 32).
  { assert (L / 12 < 2 ^ 32) by (apply Z.div_lt_upper_bound; lia). lia. }
  assert (HqL : 12 * (L / 12) <= L) by (apply Z.mul_div_le; lia).
  split; [unfold newIndex; rewrite int64_nonneg by lia; reflexivity|].
  unfold index_Read, mapped_index. cbn [index_size index_mMap]. fold L.
  rewrite (int64_small (MaxIndexBytes c)) by lia.
  destruct (Z.eqb_spec L 0); [lia|]. cbv zeta.
  change (-1 =? -1) with true. cbv iota.
  change entWidth with 12. change offWidth with 4.
  assert (Hlt : L / 12 < 2 ^ 32) by (apply Z.div_lt_upper_bound; lia).
  rewrite (wrap64_small (L / 12 - 1)) by lia.
  rewrite uint32_small by lia.
  set (q := L / 12 - 1) in *.
  rewrite (wrap64_small (q * 12)) by lia.
  rewrite (wrap64_small (q * 12 + 12)) by lia.
  rewrite (wrap64_small (q * 12 + 4)) by lia.
  destruct (Z.ltb_spec L (q * 12 + 12)); [lia|].
  assert (Hlen : Z.of_nat (length (truncate_file contents (MaxIndexBytes c)))
                 = MaxIndexBytes c).
  { unfold truncate_file. rewrite length_app, length_take, repeat_length.
    fold L. lia. }
  destruct (slice (truncate_file contents (MaxIndexBytes c)) (q * 12)
              (q * 12 + 4)) as [b|] eqn:Hb; [|reflexivity].
  cbn [must bind].
  assert (Hb4 := length_slice _ _ _ _ Hb).
  destruct (Uint32_is_Some b) as [v Hv]; [lia|]. rewrite Hv. cbn [must bind].
  rewrite slice_None; [reflexivity|]. unfold q in *. lia.
Qed.

Lemma newIndex_cut_short_witness :
  exists i,
    newIndex (encode_entry (0, 0) ++ encode_entry (1, 20)) (mkConfig 1024 12 0)
    = Ok i
    /\ index_Read i (-1) = Panic.
Proof.
  apply (newIndex_cut_short (encode_entry (0, 0) ++ encode_entry (1, 20))
           (mkConfig 1024 12 0)); by_evaluation.
Defined.



Lemma with_defaults_MaxIndexBytes_eq (c : Config) :
  MaxIndexBytes (with_defaults c)
  = (if MaxIndexBytes c =? 0 then 36 else MaxIndexBytes c).
Proof.
  unfold with_defaults.
  destruct (MaxStoreBytes c =? 0) eqn:E1; cbn [MaxIndexBytes MaxStoreBytes];
    destruct (MaxIndexBytes c =? 0) eqn:E2;
    cbn [MaxIndexBytes MaxStoreBytes]; reflexivity.
Qed.

(** [NewLog] on an empty directory, with a [MaxIndexBytes] that is a valid
    file length (below [2^63]), succeeds and gives a log of one empty
    segment based at [InitialOffset], which is the active one: the lowest
    offset is [InitialOffset], every [Read] is out of range, and the limits
    given as 0 are replaced by 1024 bytes of store and three index entries,
    the others kept. With a [MaxIndexBytes] of [2^63] or more the index file
    cannot be sized: [NewLog] returns the error and the log has no
    segment. *)
Theorem NewLog_state `{Codec} (c : Config) :
  (0 <= MaxIndexBytes c < 2 ^ 63 ->
   let l := fst (NewLog empty_directory c) in
   snd (NewLog empty_directory c) = Ok tt
   /\ segments l = [0%nat] /\ activeSegment l = Some 0%nat
   /\ Log_LowestOffset l = Ok (InitialOffset c)
   /\ (forall off, Log_Read l off = (l, Err (ErrOffsetOutOfRange off)))
   /\ MaxStoreBytes (Log_Config l)
      = (if MaxStoreBytes c =? 0 then 1024 else MaxStoreBytes c)
   /\ MaxIndexBytes (Log_Config l)
      = (if MaxIndexBytes c =? 0 then 36 else MaxIndexBytes c))
  /\ (2 ^ 63 <= MaxIndexBytes c < 2 ^ 64 ->
      snd (NewLog empty_directory c) = Err IoError
      /\ segments (fst (NewLog empty_directory c)) = []
      /\ activeSegment (fst (NewLog empty_directory c)) = None).
Proof.
  split.
  2: { intros Hbig. rewrite NewLog_empty.
       rewrite Log_newSegment_run. cbn [Log_Config].
       rewrite with_defaults_MaxIndexBytes_eq.
       destruct (Z.eqb_spec (MaxIndexBytes c) 0); [lia|].
       rewrite int64_neg by exact Hbig. repeat split. }
  intros Hc.
  cbv zeta. rewrite NewLog_empty.
  rewrite Log_newSegment_eq by (apply with_defaults_MaxIndexBytes; exact Hc).
  cbn [fst snd].
  split; [reflexivity|]. split; [reflexivity|]. split; [reflexivity|].
  split; [|split].
  - unfold Log_LowestOffset, rotated. cbn.
    rewrite with_defaults_InitialOffset. reflexivity.
  - intros off. unfold Log_Read, rotated.
    cbn [segments heap Log_Read_find app length lookup list_lookup must bind
         fresh_segment baseOffset nextOffset Log_Config].
    destruct (Z.leb_spec (InitialOffset (with_defaults c)) off);
      destruct (Z.ltb_spec off (InitialOffset (with_defaults c)));
      try lia; reflexivity.
  - split.
    + unfold rotated, with_defaults. cbn [Log_Config].
      destruct (MaxStoreBytes c =? 0) eqn:E1; cbn [MaxIndexBytes MaxStoreBytes];
        destruct (MaxIndexBytes c =? 0) eqn:E2;
        cbn [MaxIndexBytes MaxStoreBytes]; reflexivity.
    + unfold rotated. cbn [Log_Config]. apply with_defaults_MaxIndexBytes_eq.
Qed.

Lemma NewLog_state_witness :
  (snd (NewLog empty_directory default_config) = Ok tt
   /\ segments fresh_log = [0%nat]
   /\ Log_LowestOffset fresh_log = Ok 0
   /\ @Log_Read plain_codec fresh_log 0
      = (fresh_log, Err (ErrOffsetOutOfRange 0)))
  /\ snd (NewLog empty_directory (mkConfig 0 (2 ^ 63) 0)) = Err IoError.
Proof.
  split.
  - destruct (@NewLog_state plain_codec default_config) as [Hok _].
    destruct Hok as (H1 & H2 & _ & H4 & H5 & _);
      [vm_compute; split; [discriminate|reflexivity]|].
    split; [exact H1|]. split; [exact H2|]. split; [exact H4|]. exact (H5 0).
  - destruct (@NewLog_state plain_codec (mkConfig 0 (2 ^ 63) 0)) as [_ Herr].
    destruct Herr as (H1 & _);
      [vm_compute; split; [discriminate|reflexivity]|].
    exact H1.
Defined.

Lemma lookup_insert_offsets (h : list segment) (p q : nat) (s s' : segment) :
  h !! p = Some s ->
  baseOffset s' = baseOffset s -> nextOffset s' = nextOffset s ->
  (baseOffset <$> (<[p := s']> h) !! q) = (baseOffset <$> h !! q)
  /\ (nextOffset <$> (<[p := s']> h) !! q) = (nextOffset <$> h !! q).
Proof.
  intros Hp Hb Hn. destruct (decide (q = p)) as [->|Hne].
  - rewrite list_lookup_insert_eq by (eapply lookup_lt_Some; eauto).
    rewrite Hp. cbn. rewrite Hb, Hn. auto.
  - rewrite list_lookup_insert_ne by auto. auto.
Qed.

Lemma Log_LowestOffset_offsets (l l' : Log) :
  segments l' = segments l ->
  (forall q, baseOffset <$> heap l' !! q = baseOffset <$> heap l !! q) ->
  Log_LowestOffset l' = Log_LowestOffset l.
Proof.
  intros Hs Hh. unfold Log_LowestOffset. rewrite Hs.
  destruct (segments l !! 0%nat) as [p|]; [|reflexivity]. cbn [must bind].
  specialize (Hh p).
  destruct (heap l' !! p), (heap l !! p); cbn in *; congruence.
Qed.

Lemma Log_HighestOffset_offsets (l l' : Log) :
  segments l' = segments l ->
  (forall q, nextOffset <$> heap l' !! q = nextOffset <$> heap l !! q) ->
  Log_HighestOffset l' = Log_HighestOffset l.
Proof.
  intros Hs Hh. unfold Log_HighestOffset. rewrite Hs.
  destruct (if Z.of_nat (length (segments l)) - 1 <? 0 then None
            else segments l !! Z.to_nat (Z.of_nat (length (segments l)) - 1))
    as [p|]; [|reflexivity].
  cbn [must bind]. specialize (Hh p).
  destruct (heap l' !! p) as [s'|], (heap l !! p) as [s|]; cbn in Hh;
    try discriminate Hh; [|reflexivity].
  injection Hh as Hh. cbn [must bind]. rewrite Hh. reflexivity.
Qed.

(** [Read] changes neither the segment list, nor the active segment, nor
    the configuration, nor any offset: [LowestOffset] and [HighestOffset]
    answer after it as before, whatever [Read] returned. *)
Theorem Log_Read_keeps `{Codec} (l : Log) (off : Z) :
  let l' := fst (Log_Read l off) in
  segments l' = segments l /\ activeSegment l' = activeSegment l
  /\ Log_Config l' = Log_Config l
  /\ length (heap l') = length (heap l)
  /\ Log_LowestOffset l' = Log_LowestOffset l
  /\ Log_HighestOffset l' = Log_HighestOffset l.
Proof.
  cbv zeta. destruct (Log_Read_heap l off) as [->|(p & s & st & Hp & ->)].
  - repeat split; reflexivity.
  - cbn [set_heap segments activeSegment Log_Config heap].
    split; [reflexivity|]. split; [reflexivity|]. split; [reflexivity|].
    split; [apply length_insert|].
    split.
    + apply Log_LowestOffset_offsets; [reflexivity|]. intros q. cbn.
      apply (lookup_insert_offsets (heap l) p q s (set_store s st) Hp);
        reflexivity.
    + apply Log_HighestOffset_offsets; [reflexivity|]. intros q. cbn.
      apply (lookup_insert_offsets (heap l) p q s (set_store s st) Hp);
        reflexivity.
Qed.



Lemma Log_Append_segments `{Codec} (l l' : Log) (r : api_Record) res :
  Log_Append l r = (l', res) ->
  segments l' = segments l
  \/ segments l' = segments l ++ [length (heap l)].
Proof.
  unfold Log_Append. destruct (activeSegment l) as [a|];
    [|intros [= <- _]; left; reflexivity].
  destruct (heap l !! a) as [s|]; [|intros [= <- _]; left; reflexivity].
  destruct (segment_Append s r) as [s1 [off|e|]].
  - destruct (segment_IsMaxed s1).
    + rewrite Log_newSegment_run. cbn [set_heap Log_Config].
      destruct (int64 (MaxIndexBytes (Log_Config l)) <? 0).
      * intros [= <- _]. left. reflexivity.
      * intros [= <- _]. right. cbn. rewrite length_insert. reflexivity.
    + intros [= <- _]. left. reflexivity.
  - intros [= <- _]. left. reflexivity.
  - intros [= <- _]. left. reflexivity.
Qed.

(** After an [Append] that returned the offset [off], [HighestOffset]
    answers [off], whether or not the append rotated to a new segment. The
    log is in a state with a consistent, non-empty segment list and its
    offsets are not exhausted. *)
Theorem Log_Append_HighestOffset `{Codec} (l l' : Log) (r : api_Record)
    (off : Z) :
  log_inv l -> no_wrap l -> segments l <> [] ->
  Log_Append l r = (l', Some (off, None)) ->
  Log_HighestOffset l' = Ok off.
Proof.
  intros Hinv Hnw Hne Hrun.
  assert (Hinv' := Log_Append_inv l r Hinv Hnw). rewrite Hrun in Hinv'.
  cbn [fst] in Hinv'.
  destruct (Log_Append_success_inv l l' r off Hrun) as (a & s & Ha & Hs & Hoff).
  destruct (Log_Append_next l l' r off Hrun) as (a1 & s1 & Ha1 & Hs1 & Hn1).
  assert (Hal : a ∈ segments l).
  { destruct Hinv as (_ & _ & (a0 & Ha0 & _ & [Hnil|Hlast]) & _); [congruence|].
    assert (a0 = a) by congruence. subst a0.
    rewrite last_lookup in Hlast. eapply list_elem_of_lookup_2. exact Hlast. }
  destruct (segment_typed l a s Hinv Hal Hs) as [_ Hty].
  assert (Hoff' : off = nextOffset s).
  { destruct (segment_Append_offsets s r) as (_ & _ & Hx).
    rewrite Hoff in Hx. tauto. }
  assert (Hlt := Hnw a s Ha Hs).
  assert (Hne' : segments l' <> []).
  { destruct (Log_Append_segments l l' r _ Hrun) as [->| ->]; [exact Hne|].
    destruct (segments l); discriminate. }
  assert (Htail : tail_segment l' s1).
  { destruct Hinv' as (_ & _ & (a0 & Ha0 & _ & [Hnil|Hlast]) & _);
      [congruence|].
    exists a1. split; [congruence|exact Hs1]. }
  rewrite (Log_HighestOffset_tail l' s1 Htail), Hn1.
  unfold is_uint64 in Hty.
  rewrite wrap64_small by lia.
  destruct (Z.eqb_spec (off + 1) 0); [lia|].
  f_equal. rewrite wrap64_small by lia. lia.
Qed.

Lemma Log_Append_HighestOffset_witness :
  Log_HighestOffset (fst (@Log_Append plain_codec fresh_log empty_record))
  = Ok 0.
Proof.
  apply (@Log_Append_HighestOffset plain_codec fresh_log
           (fst (@Log_Append plain_codec fresh_log empty_record))
           empty_record 0).
  - apply NewLog_inv; [exact default_config_typed|reflexivity].
  - concrete_no_wrap.
  - discriminate.
  - vm_compute. reflexivity.
Defined.



Lemma Log_Read_record `{Codec} `{!CodecLaws} (l : Log) (off : Z) r :
  log_inv l -> Config_small (Log_Config l) -> segments_hold l ->
  holds l off r ->
  snd (Log_Read l off) = Ok r.
Proof.
  intros Hinv Hc Hsegs (p & s & rs & k & Hp & Hs & Hseg & Hk & ->).
  destruct (segment_typed l p s Hinv Hp Hs) as [Hb Hn].
  destruct (Hsegs p s Hp Hs) as [Hcs _].
  assert (Hnext : nextOffset s = baseOffset s + Z.of_nat (length rs))
    by (destruct Hseg as (_ & _ & _ & _ & Hx & _); exact Hx).
  assert (Hkl : (k < length rs)%nat) by (eapply lookup_lt_Some; eauto).
  assert (Hin : in_range s (baseOffset s + Z.of_nat k))
    by (unfold in_range; lia).
  assert (Hok : heap_ok l) by (destruct Hinv as [Hx _]; exact Hx).
  destruct (Log_Read_find_spec (heap l) (baseOffset s + Z.of_nat k)
              (segments l) (Log_segments l) (Log_segments_listed l Hok))
    as [[_ Hnone] | (p' & s' & Hfind & Hp' & Hs' & Hr')].
  - exfalso. apply (Hnone s); [|exact Hin].
    destruct (listed_lookup l p s Hok Hp Hs) as (i & _ & Hi).
    eapply list_elem_of_lookup_2; eauto.
  - assert (p' = p) by (eapply segment_unique; eauto). subst p'.
    unfold Log_Read. rewrite Hfind, Hs.
    rewrite (segment_Read_holds s rs k r Hseg); auto.
    + rewrite Hcs. exact Hc.
    + unfold is_uint64 in *. lia.
Qed.

Lemma Log_Truncate_retained (l : Log) (lowest : Z) (p : nat) (s : segment) :
  heap_ok l -> p ∈ segments l -> heap l !! p = Some s ->
  dropped lowest s = false ->
  p ∈ segments (fst (Log_Truncate l lowest))
  /\ heap (fst (Log_Truncate l lowest)) !! p = Some s.
Proof.
  intros Hok Hp Hs Hd.
  destruct (Log_Truncate_run l lowest Hok) as (h' & -> & _ & _ & _ & Hh).
  cbn [fst segments heap]. split.
  - apply list_elem_of_In, filter_In. split; [apply list_elem_of_In; exact Hp|].
    rewrite (retained_dropped (heap l) lowest p s Hs), Hd. reflexivity.
  - rewrite (Hh p s Hs). unfold after_Truncate. rewrite Hd, andb_false_r.
    reflexivity.
Qed.

Lemma Log_Truncate_listed (l : Log) (lowest : Z) (p : nat) :
  heap_ok l -> p ∈ segments (fst (Log_Truncate l lowest)) ->
  exists s, p ∈ segments l /\ heap l !! p = Some s
            /\ dropped lowest s = false
            /\ heap (fst (Log_Truncate l lowest)) !! p = Some s.
Proof.
  intros Hok Hp.
  destruct (Log_Truncate_run l lowest Hok) as (h' & Hrun & _ & _ & _ & Hh).
  rewrite Hrun in Hp |- *. cbn [fst segments heap] in *.
  apply list_elem_of_In, filter_In in Hp as [Hp Hr].
  apply list_elem_of_In in Hp.
  assert (Hlt : (p < length (heap l))%nat).
  { unfold heap_ok in Hok. rewrite Forall_forall in Hok. exact (Hok p Hp). }
  destruct (lookup_lt_is_Some_2 (heap l) p Hlt) as [s Hs].
  rewrite (retained_dropped (heap l) lowest p s Hs) in Hr.
  apply negb_true_iff in Hr.
  exists s. split; [exact Hp|]. split; [exact Hs|]. split; [exact Hr|].
  rewrite (Hh p s Hs). unfold after_Truncate. rewrite Hr, andb_false_r.
  reflexivity.
Qed.

(** [Truncate(lowest)] keeps every record above [lowest]: a record the log
    holds at an offset greater than [lowest] is returned by [Read] at that
    offset after the truncation. *)
Theorem Log_Truncate_keeps `{Codec} `{!CodecLaws} (l : Log) (lowest off : Z)
    r :
  log_inv l -> Config_small (Log_Config l) -> segments_hold l ->
  holds l off r -> 0 <= lowest < off ->
  snd (Log_Truncate l lowest) = Ok tt
  /\ snd (Log_Read (fst (Log_Truncate l lowest)) off) = Ok r.
Proof.
  intros Hinv Hc Hsegs Hholds Hlow.
  assert (Hok : heap_ok l) by (destruct Hinv as [Hx _]; exact Hx).
  split.
  { destruct (Log_Truncate_run l lowest Hok) as (h' & -> & _). reflexivity. }
  apply Log_Read_record.
  - apply Log_Truncate_inv. exact Hinv.
  - destruct (Log_Truncate_run l lowest Hok) as (h' & -> & _). exact Hc.
  - intros p s Hp Hs.
    destruct (Log_Truncate_listed l lowest p Hok Hp) as (s0 & Hp0 & Hs0 & _ & Hs0').
    assert (s0 = s) by congruence. subst s0.
    destruct (Log_Truncate_run l lowest Hok) as (h' & -> & _). cbn [fst Log_Config].
    exact (Hsegs p s Hp0 Hs0).
  - destruct Hholds as (p & s & rs & k & Hp & Hs & Hseg & Hk & ->).
    destruct (segment_typed l p s Hinv Hp Hs) as [Hb Hn].
    assert (Hnext : nextOffset s = baseOffset s + Z.of_nat (length rs))
      by (destruct Hseg as (_ & _ & _ & _ & Hx & _); exact Hx).
    assert (Hkl : (k < length rs)%nat) by (eapply lookup_lt_Some; eauto).
    assert (Hd : dropped lowest s = false).
    { unfold dropped. apply Z.leb_gt. unfold is_uint64 in *.
      rewrite wrap64_small by lia. lia. }
    destruct (Log_Truncate_retained l lowest p s Hok Hp Hs Hd) as [Hp' Hs'].
    exists p, s, rs, k. auto.
Qed.

(** [Truncate(lowest)], for [lowest] below the largest offset [2^64 - 1]
    (where [lowest + 1] does not wrap), drops whole segments: an offset
    inside a segment whose next offset is at most [lowest + 1] is out of
    range after the truncation. *)
Theorem Log_Truncate_drops `{Codec} (l : Log) (lowest off : Z) (p : nat)
    (s : segment) :
  log_inv l ->
  p ∈ segments l -> heap l !! p = Some s -> in_range s off ->
  0 <= lowest < 2 ^ 64 - 1 ->
  nextOffset s <= lowest + 1 ->
  snd (Log_Read (fst (Log_Truncate l lowest)) off)
  = Err (ErrOffsetOutOfRange off).
Proof.
  intros Hinv Hp Hs Hin Hlow Hnext'.
  assert (Hnext : nextOffset s <= wrap64 (lowest + 1))
    by (rewrite wrap64_small by lia; exact Hnext').
  assert (Hok : heap_ok l) by (destruct Hinv as [Hx _]; exact Hx).
  assert (Hinv' := Log_Truncate_inv l lowest Hinv).
  assert (Hok' : heap_ok (fst (Log_Truncate l lowest)))
    by (destruct Hinv' as [Hx _]; exact Hx).
  rewrite (Log_Read_none (fst (Log_Truncate l lowest)) off
             (Log_segments (fst (Log_Truncate l lowest)))
             (Log_segments_listed _ Hok')); [reflexivity|].
  intros s' Hs' Hin'.
  destruct (listed_elem _ _ s' (Log_segments_listed _ Hok') Hs')
    as (p' & Hp' & Hh').
  destruct (Log_Truncate_listed l lowest p' Hok Hp')
    as (s0 & Hp0 & Hs0 & Hd0 & Hs0').
  assert (s0 = s') by congruence. subst s0.
  assert (p' = p) by (eapply (segment_unique l p s p' s' off); eauto).
  subst p'. assert (s' = s) by congruence. subst s'.
  unfold dropped in Hd0. apply Z.leb_gt in Hd0. lia.
Qed.

Lemma filter_filter_implies {A} (f g : A -> bool) (xs : list A) :
  (forall x, f x = true -> g x = true) ->
  List.filter f (List.filter g xs) = List.filter f xs.
Proof.
  intros Hfg. induction xs as [|x xs IH]; [reflexivity|]. simpl.
  destruct (g x) eqn:Hg; simpl.
  - rewrite IH. reflexivity.
  - destruct (f x) eqn:Hf; [|exact IH]. rewrite (Hfg x Hf) in Hg. discriminate.
Qed.

(** Truncating at [lowest1] and then at [lowest2] leaves the segment list
    that truncating at [lowest2] alone leaves, when [lowest1 + 1] is at most
    [lowest2 + 1] on [uint64]; in particular a second [Truncate] at the same
    offset removes nothing more. *)
Theorem Log_Truncate_twice (l : Log) (lowest1 lowest2 : Z) :
  heap_ok l ->
  wrap64 (lowest1 + 1) <= wrap64 (lowest2 + 1) ->
  segments (fst (Log_Truncate (fst (Log_Truncate l lowest1)) lowest2))
  = segments (fst (Log_Truncate l lowest2)).
Proof.
  intros Hok Hle.
  destruct (Log_Truncate_run l lowest1 Hok) as (h1 & Hrun1 & Hl1 & Hn1 & _).
  assert (Hok1 : heap_ok (fst (Log_Truncate l lowest1))).
  { rewrite Hrun1. unfold heap_ok in *. cbn [fst segments heap].
    rewrite Hl1. rewrite Forall_forall in *. intros p Hp.
    apply list_elem_of_In, filter_In in Hp as [Hp _].
    apply Hok, list_elem_of_In, Hp. }
  destruct (Log_Truncate_run _ lowest2 Hok1) as (h2 & Hrun2 & _).
  destruct (Log_Truncate_run l lowest2 Hok) as (h3 & Hrun3 & _).
  rewrite Hrun2, Hrun3, Hrun1. cbn [fst segments heap]. rewrite Hn1.
  apply filter_filter_implies. intros p. unfold retained.
  destruct ((nextOffset <$> heap l) !! p) as [n|]; [|discriminate].
  rewrite !negb_true_iff, !Z.leb_gt. lia.
Qed.


Lemma four_appended_holds :
  @log_holds plain_codec four_appended
  /\ @holds plain_codec four_appended 3
       {| Value := [x64]; Offset := 3 |}.
Proof.
  destruct (@fresh_log_holds plain_codec) as [Hl Hn].
  destruct (@Log_Append_all_holds plain_codec four_records fresh_log 0 Hl)
    as (l' & Hrun & Hl' & Hnew & _).
  - repeat constructor; intros off _; cbn; lia.
  - exact Hn.
  - cbn. lia.
  - assert (Heq : four_appended = l')
      by (unfold four_appended; rewrite Hrun; reflexivity).
    rewrite Heq. split; [exact Hl'|].
    exact (Hnew 3%nat {| Value := [x64]; Offset := 0 |} eq_refl).
Qed.

Lemma Log_Truncate_keeps_witness :
  snd (Log_Truncate four_appended 2) = Ok tt
  /\ snd (@Log_Read plain_codec (fst (Log_Truncate four_appended 2)) 3)
     = Ok {| Value := [x64]; Offset := 3 |}.
Proof.
  destruct four_appended_holds as [(Hinv & Hc & Hsegs & _) Hh].
  apply (@Log_Truncate_keeps plain_codec plain_codec_laws four_appended 2 3
           {| Value := [x64]; Offset := 3 |} Hinv Hc Hsegs Hh).
  lia.
Defined.

Lemma Log_Truncate_drops_witness :
  snd (@Log_Read plain_codec (fst (Log_Truncate four_appended 2)) 1)
  = Err (ErrOffsetOutOfRange 1).
Proof.
  destruct four_appended_holds as [(Hinv & _) _].
  apply (@Log_Truncate_drops plain_codec four_appended 2 1 0%nat
           (default (bare_segment 0 0) (heap four_appended !! 0%nat)) Hinv).
  - apply (list_elem_of_lookup_2 _ 0%nat). vm_compute. reflexivity.
  - vm_compute. reflexivity.
  - by_evaluation.
  - lia.
  - by_evaluation.
Defined.

Lemma Log_Truncate_twice_witness :
  segments (fst (Log_Truncate (fst (Log_Truncate three_segment_log 9)) 14))
  = segments (fst (Log_Truncate three_segment_log 14)).
Proof.
  apply (Log_Truncate_twice three_segment_log 9 14 three_segment_log_ok).
  by_evaluation.
Defined.


Lemma Log_Append_without_room `{Codec} (l : Log) (r : api_Record) :
  index_without_room l ->
  snd (Log_Append l r) = Some (0, Some EOF)
  /\ index_without_room (fst (Log_Append l r)).
Proof.
  intros (s & Ha & Hs & Hsz & Hlen).
  assert (Hw : forall off pos, index_Write (segment_index s) off pos = Err EOF).
  { intros off pos. unfold index_Write. rewrite Hsz.
    unfold entWidth, offWidth, posWidth in *.
    rewrite wrap64_small by lia.
    destruct (Z.ltb_spec (Z.of_nat (length (index_mMap (segment_index s))))
                (0 + (4 + 8))); [reflexivity|lia]. }
  unfold Log_Append. rewrite Ha, Hs. unfold segment_Append, store_Append.
  cbn [set_store segment_index nextOffset baseOffset]. rewrite Hw.
  cbn [fst snd]. split; [reflexivity|].
  eexists. cbn [set_heap activeSegment heap].
  split; [exact Ha|]. split.
  - apply list_lookup_insert_eq. eapply lookup_lt_Some. exact Hs.
  - cbn [segment_index]. auto.
Qed.

(** A log created with a [MaxIndexBytes] smaller than one index entry (and
    not 0, which selects the default) accepts no record: every [Append]
    returns offset 0 and [io.EOF]. *)
Theorem NewLog_index_too_small `{Codec} (c : Config) (rs : list api_Record) :
  0 < MaxIndexBytes c < entWidth ->
  snd (Log_Append_all (fst (NewLog empty_directory c)) rs)
  = (fun _ => Some (0, Some EOF)) <$> rs.
Proof.
  intros Hc.
  assert (H0 : index_without_room (fst (NewLog empty_directory c))).
  { assert (Hc' : 0 <= MaxIndexBytes c < 2 ^ 63)
      by (unfold entWidth, offWidth, posWidth in Hc; lia).
    rewrite NewLog_empty.
    rewrite Log_newSegment_eq by (apply with_defaults_MaxIndexBytes; exact Hc').
    cbn [fst]. eexists. unfold rotated. cbn [activeSegment heap length app].
    split; [reflexivity|]. split; [reflexivity|].
    cbn [fresh_segment segment_index mapped_index index_size index_mMap length].
    split; [reflexivity|].
    unfold truncate_file. rewrite take_nil, length_app, repeat_length.
    cbn [length Log_Config]. rewrite with_defaults_MaxIndexBytes_eq.
    destruct (Z.eqb_spec (MaxIndexBytes c) 0); [lia|].
    rewrite int64_small by exact Hc'. lia. }
  revert H0. generalize (fst (NewLog empty_directory c)). induction rs as [|r rs IH];
    intros l Hl; [reflexivity|].
  cbn [Log_Append_all].
  destruct (Log_Append_without_room l r Hl) as [Hres Hl'].
  destruct (Log_Append l r) as [l1 res]. cbn [fst snd] in *.
  specialize (IH l1 Hl'). destruct (Log_Append_all l1 rs) as [l2 ress].
  cbn [snd] in *. rewrite Hres, IH. reflexivity.
Qed.

Lemma NewLog_index_too_small_witness :
  snd (@Log_Append_all plain_codec (fst (NewLog empty_directory (mkConfig 0 8 0))) four_records)
  = (fun _ => Some (0, Some EOF)) <$> four_records.
Proof.
  apply (@NewLog_index_too_small plain_codec (mkConfig 0 8 0) four_records).
  by_evaluation.
Defined.



Lemma Log_LowestOffset_first (l : Log) (p : nat) (ps : list nat) :
  segments l = p :: ps ->
  Log_LowestOffset l
  = match heap l !! p with Some s => Ok (baseOffset s) | None => Panic end.
Proof.
  intros Hs. unfold Log_LowestOffset. rewrite Hs. cbn.
  destruct (heap l !! p); reflexivity.
Qed.

(** [Append] does not move the lowest offset: on a log whose segment list is
    not empty, [LowestOffset] answers after an [Append] what it answered
    before, whether the append succeeded, failed or rotated. *)
Theorem Log_Append_LowestOffset `{Codec} (l : Log) (r : api_Record) :
  heap_ok l -> segments l <> [] ->
  Log_LowestOffset (fst (Log_Append l r)) = Log_LowestOffset l.
Proof.
  intros Hok Hne.
  destruct (segments l) as [|p ps] eqn:Hsegs; [congruence|].
  assert (Hp : (p < length (heap l))%nat).
  { unfold heap_ok in Hok. rewrite Hsegs in Hok.
    apply Forall_cons in Hok as [Hp _]. exact Hp. }
  destruct (lookup_lt_is_Some_2 (heap l) p Hp) as [sp Hsp].
  rewrite (Log_LowestOffset_first l p ps Hsegs), Hsp.
  destruct (activeSegment l) as [a|] eqn:Ha;
    [|unfold Log_Append; rewrite Ha; cbn [fst];
      rewrite (Log_LowestOffset_first l p ps Hsegs), Hsp; reflexivity].
  destruct (heap l !! a) as [s|] eqn:Hs;
    [|unfold Log_Append; rewrite Ha, Hs; cbn [fst];
      rewrite (Log_LowestOffset_first l p ps Hsegs), Hsp; reflexivity].
  assert (Hb : baseOffset (fst (segment_Append s r)) = baseOffset s)
    by apply segment_Append_offsets.
  assert (Hl1 : exists s', <[a := fst (segment_Append s r)]> (heap l) !! p
                           = Some s' /\ baseOffset s' = baseOffset sp).
  { destruct (decide (p = a)) as [->|Hpa].
    - rewrite list_lookup_insert_eq by exact Hp. eexists. split; [reflexivity|].
      rewrite Hb. congruence.
    - rewrite list_lookup_insert_ne by auto. eauto. }
  destruct Hl1 as (s' & Hs' & Hbs').
  rewrite (Log_Append_run l r a s Ha Hs).
  assert (Hw : Log_LowestOffset (with_active l a (fst (segment_Append s r)))
               = Ok (baseOffset sp)).
  { rewrite (Log_LowestOffset_first _ p ps) by exact Hsegs.
    unfold with_active. cbn [set_heap heap]. rewrite Hs', Hbs'. reflexivity. }
  assert (Hr : forall off,
             Log_LowestOffset
               (rotated (with_active l a (fst (segment_Append s r))) off)
             = Ok (baseOffset sp)).
  { intros off.
    rewrite (Log_LowestOffset_first _ p (ps ++ [length (<[a := fst (segment_Append s r)]> (heap l))]))
      by (unfold rotated, with_active; cbn; rewrite Hsegs; reflexivity).
    unfold rotated, with_active. cbn [set_heap heap].
    rewrite lookup_app_l by (rewrite length_insert; exact Hp).
    rewrite Hs', Hbs'. reflexivity. }
  destruct (snd (segment_Append s r)) as [off|e|]; cbn [fst].
  - destruct (segment_IsMaxed (fst (segment_Append s r))); cbn [fst];
      [|exact Hw].
    destruct (int64 (MaxIndexBytes (Log_Config l)) <? 0); cbn [fst];
      [exact Hw|apply Hr].
  - exact Hw.
  - exact Hw.
Qed.

Lemma Log_Append_LowestOffset_witness :
  Log_LowestOffset (fst (@Log_Append plain_codec three_segment_log empty_record))
  = Log_LowestOffset three_segment_log.
Proof.
  apply (@Log_Append_LowestOffset plain_codec three_segment_log empty_record
           three_segment_log_ok).
  discriminate.
Defined.







Lemma every_other_pairs (n : nat) :
  forall (l bs : list Z),
    length bs = n -> StronglySorted Z.le l -> l ≡ₚ bs ++ bs ->
    every_other l ≡ₚ bs /\ StronglySorted Z.le (every_other l).
Proof.
  induction n as [|n IH]; intros l bs Hn Hs Hp.
  - destruct bs; [|discriminate]. apply Permutation_nil_r in Hp. subst l.
    split; [reflexivity|constructor].
  - destruct l as [|x [|y l']].
    + apply Permutation_length in Hp. rewrite length_app in Hp.
      simpl in Hp. lia.
    + apply Permutation_length in Hp. rewrite length_app in Hp.
      simpl in Hp. lia.
    + assert (Hx : x ∈ bs).
      { assert (Hx : x ∈ bs ++ bs) by (rewrite <- Hp; left).
        apply elem_of_app in Hx. tauto. }
      apply elem_of_Permutation in Hx as [bs' Hbs].
      assert (Hp2 : x :: y :: l' ≡ₚ x :: x :: (bs' ++ bs')).
      { rewrite Hp, Hbs. cbn. apply perm_skip.
        rewrite <- Permutation_middle. reflexivity. }
      apply Permutation_cons_inv in Hp2.
      apply StronglySorted_inv in Hs as [Hs Hx].
      apply StronglySorted_inv in Hs as [Hs Hy].
      assert (Hyx : y = x).
      { assert (Hin : x ∈ y :: l') by (rewrite Hp2; left).
        apply Forall_cons in Hx as [Hxy Hx].
        apply elem_of_cons in Hin as [Hin|Hin]; [congruence|].
        rewrite Forall_forall in Hy. specialize (Hy x Hin). lia. }
      subst y. apply Permutation_cons_inv in Hp2.
      assert (Hn' : length bs' = n).
      { apply Permutation_length in Hbs. simpl in Hbs. lia. }
      destruct (IH l' bs' Hn' Hs Hp2) as [Hp' Hs'].
      cbn [every_other]. split.
      * rewrite Hbs, Hp'. reflexivity.
      * constructor; [exact Hs'|].
        rewrite Forall_forall. intros z Hz. rewrite Hp' in Hz.
        assert (Hz' : z ∈ l') by (rewrite Hp2; apply elem_of_app; tauto).
        rewrite Forall_forall in Hy. exact (Hy z Hz').
Qed.

(** When the directory holds two entries for each base offset of [bs] (the
    store file and the index file), [setup] opens one segment for each of
    them, in ascending order of base offset. *)
Theorem setup_bases_pairs (offs bs : list Z) :
  offs ≡ₚ bs ++ bs ->
  setup_bases offs ≡ₚ bs /\ StronglySorted Z.le (setup_bases offs).
Proof.
  intros Hp. unfold setup_bases.
  apply (every_other_pairs (length bs)); [reflexivity| |].
  - apply StronglySorted_merge_sort; apply _.
  - rewrite merge_sort_Permutation. exact Hp.
Qed.

Lemma setup_bases_pairs_witness :
  setup_bases [10; 0; 20; 10; 0; 20] ≡ₚ [10; 0; 20]
  /\ StronglySorted Z.le (setup_bases [10; 0; 20; 10; 0; 20]).
Proof.
  apply (setup_bases_pairs [10; 0; 20; 10; 0; 20] [10; 0; 20]).
  reflexivity.
Defined.

(** One more directory entry breaks the pairing: with the entries of the
    bases 0 and 3 and a stray entry whose name parses to 0 (as a name that
    is not a number does), [setup] opens the base 0 twice. *)
Lemma setup_bases_stray_entry : setup_bases [0; 0; 3; 3; 0] = [0; 0; 3].
Proof. vm_compute. reflexivity. Qed.
